(** * Dsys_Anal: particle trajectories through a velocity field

    A shallow embedding of [src/Dsys_Anal.cpp] (class [Dsys_Anal]) and the
    properties of its time grid, particle store, the two time-marching
    schemes and the print/export surface.

    Conventions of the embedding:
    - a C++ [double] is a binary64 value, Rocq's primitive [float]; [+], [-],
      [*] and [/] are the IEEE-754 operations (round to nearest, ties to
      even), each rounded once;
    - an Eigen [VectorXd] is a [list float]; [operator()] is unchecked in the
      source, so a read or write outside the vector is undefined behaviour,
      which the embedding renders as [None];
    - memory that the source leaves uninitialised after an allocation is
      filled from an arbitrary oracle [uninit], a parameter of the model;
    - a member function becomes a function from the object before the call
      to the object after it. *)

From Stdlib Require Import ZArith QArith Qround Qpower Floats Lia.
From Stdlib Require Import Strings.String Strings.Ascii.
From stdpp Require Import base tactics option list strings gmap.

#[local] Open Scope nat_scope.
#[local] Set Warnings "-register-all".

#[global] Instance float_inhabited : Inhabited float := populate 0%float.

(** Decides [ready] on a concrete object, by evaluation. *)
Ltac solve_ready := repeat split; repeat constructor.

(** ** Numbers *)

Module Num.

(** Modelled from the spec: the declaration of [t_count] is in
    Dsys_Anal.h, which is missing. The spec makes the step count an
    integer and the loops of the source compare it with a [std::size_t]
    counter, so it is taken to be a [std::size_t]; this is the largest value
    of that type on a 64-bit target. *)
Definition size_max : Z := (2 ^ 64 - 1)%Z.

(** Integer part (rounding towards zero) of a binary64 value given by its
    sign, mantissa and exponent; [None] for infinities and NaN. *)
Definition SFtrunc (f : spec_float) : option Z :=
  match f with
  | S754_zero _ => Some 0%Z
  | S754_finite s m e =>
      let mag := Z.shiftl (Z.pos m) e in
      Some (if s then (- mag)%Z else mag)
  | S754_infinity _ | S754_nan => None
  end.

(** Conversion [double -> std::size_t], as in [t_count = (tmax / dt) + 1]:
    the fractional part is discarded; the conversion is undefined when the
    truncated value does not fit the destination type. *)
Definition to_size_t (d : float) : option nat :=
  z ← SFtrunc (Prim2SF d);
  if decide (0 ≤ z ≤ size_max)%Z then Some (Z.to_nat z) else None.

(** Conversion [std::size_t -> double], as in [dt * i]: the nearest binary64
    value. *)
Definition of_size_t (n : nat) : float :=
  SF2Prim (binary_normalize prec emax (Z.of_nat n) 0 false).

(** The real number a finite binary64 value stands for, as a rational. *)
Definition SF2Q (f : spec_float) : option Q :=
  match f with
  | S754_zero _ => Some 0%Q
  | S754_finite s m e =>
      Some (inject_Z (if s then Z.neg m else Z.pos m) * Qpower 2 e)%Q
  | S754_infinity _ | S754_nan => None
  end.

Definition B2Q (d : float) : option Q := SF2Q (Prim2SF d).

(** [d] is a finite number whose exact value is [q]. *)
Definition exactly (d : float) (q : Q) : Prop :=
  ∃ q', B2Q d = Some q' ∧ (q' == q)%Q.

(** A binary64 value that is not NaN and not below zero. *)
Definition SF_nonneg (f : spec_float) : Prop :=
  match f with
  | S754_zero _ => True
  | S754_finite s _ _ => s = false
  | S754_infinity s => s = false
  | S754_nan => False
  end.

(** The format function of binary64: the exponent of the last place of a
    number of the given magnitude. *)
Definition fexp64 : Z → Z := fexp prec emax.

(** Neither the round bit nor the sticky bit of a shifted mantissa is
    set: nothing was lost by the shift. *)
Definition flags_clear (mrs : shr_record) : Prop :=
  orb (shr_r mrs) (shr_s mrs) = false.

(** [b] is [a] shifted right by [j] bits. *)
Definition shifted (j : Z) (a b : shr_record) : Prop :=
  (0 ≤ shr_m b)%Z ∧ shr_m b = (shr_m a / 2 ^ j)%Z ∧
  (flags_clear b ↔ flags_clear a ∧ (shr_m a mod 2 ^ j)%Z = 0%Z).

End Num.

Export Num.

(** ** Containers *)

Section Model.

(** Content of memory that an allocation leaves uninitialised, by cell. *)
Variable uninit : nat → float.

(** [VectorXd::operator()(i)] as an rvalue. *)
Definition vec_read (vec : list float) (i : nat) : option float := vec !! i.

(** [VectorXd::operator()(i) = d]. *)
Definition vec_write (vec : list float) (i : nat) (d : float)
  : option (list float) :=
  if decide (i < length vec) then Some (<[i := d]> vec) else None.

(** [VectorXd::resize(n)]: nothing happens when the size is already [n];
    otherwise the storage is reallocated and the content is lost. *)
Definition resize (n : nat) (vec : list float) : list float :=
  if decide (length vec = n) then vec else uninit <$> seq 0 n.

(** [VectorXd::conservativeResize(n)]: the leading [min (size, n)]
    coefficients are kept, new trailing ones are uninitialised. *)
Definition conservativeResize (n : nat) (vec : list float) : list float :=
  take n vec ++ (uninit <$> seq (length vec) (n - length vec)).

(** [for (std::size_t i = lo; i != lo + count; ++i) body], where the body may
    hit undefined behaviour. *)
Fixpoint for_loop {St : Type} (body : nat → St → option St)
    (i count : nat) (s : St) : option St :=
  match count with
  | O => Some s
  | S k => s' ← body i s; for_loop body (S i) k s'
  end.

(** ** The object *)

(** Modelled from the spec: the two classes are declared in Dsys_Anal.h,
    which is missing. The members are those the source uses, with the
    types of the spec's data model: a particle is its two position
    histories; the object has the step size, the end time, the step count,
    the time vector, the two "ready" flags, the particles and the velocity
    field. *)
Record Particle : Type := mkParticle {
  x : list float;
  y : list float
}.

Record Dsys_Anal : Type := mkDsys {
  dt : float;
  tmax : float;
  t_count : nat;
  t : list float;
  t_set : bool;
  ic_set : bool;
  parts : list Particle;
  u : float → float → float → float;
  v : float → float → float → float
}.

Definition with_parts (st : Dsys_Anal) (ps : list Particle) : Dsys_Anal :=
  mkDsys (dt st) (tmax st) (t_count st) (t st) (t_set st) (ic_set st) ps
         (u st) (v st).

Inductive exn : Type :=
  | invalid_argument (what : string)
  | out_of_range (what : string)
  | ios_failure (what : string).

(** How a call ends: it returns, throws, or runs into undefined behaviour. *)
Inductive outcome : Type :=
  | Returned
  | Threw (e : exn)
  | Undefined.

(** [std::vector<Particle>::resize(n)]: leading elements are kept, new ones
    are default-constructed (two empty vectors). *)
Definition vector_resize (n : nat) (ps : list Particle) : list Particle :=
  take n ps ++ replicate (n - length ps) (mkParticle [] []).

(** *** ResizeParts *)

Definition ResizeParts (st : Dsys_Anal) : Dsys_Anal :=
  with_parts st
    ((λ p, mkParticle (conservativeResize (t_count st + 1) (x p))
                      (conservativeResize (t_count st + 1) (y p)))
       <$> parts st).

(** *** SetTime *)

Definition SetTime (st : Dsys_Anal) (dt_in tmax_in : float)
  : option Dsys_Anal :=
  n ← to_size_t (tmax_in / dt_in + 1)%float;
  let t' := imap (λ i _, dt_in * of_size_t i)%float (resize n (t st)) in
  let st' := mkDsys dt_in tmax_in n t' true (ic_set st) (parts st)
                    (u st) (v st) in
  Some (if t_set st' && ic_set st' then ResizeParts st' else st').

(** *** SetICs *)

Definition SetICs (st : Dsys_Anal) (x0 y0 : list float)
  : Dsys_Anal * outcome :=
  if decide (length x0 ≠ length y0) then
    (st, Threw (invalid_argument "Mismatched IC Vectors"))
  else
    let ps :=
      imap (λ n p, mkParticle (<[0 := x0 !!! n]> (resize 1 (x p)))
                              (<[0 := y0 !!! n]> (resize 1 (y p))))
           (vector_resize (length x0) (parts st)) in
    let st' := mkDsys (dt st) (tmax st) (t_count st) (t st) (t_set st) true
                      ps (u st) (v st) in
    (if t_set st' && ic_set st' then ResizeParts st' else st', Returned).

(** *** SetVel *)

Definition SetVel (st : Dsys_Anal) (u_in v_in : float → float → float → float)
  : Dsys_Anal :=
  mkDsys (dt st) (tmax st) (t_count st) (t st) (t_set st) (ic_set st)
         (parts st) u_in v_in.

(** *** The constructor *)

(** Modelled from the spec: the member initialisers are in Dsys_Anal.h, which
    is missing; a new object is in the state the spec calls Empty (neither
    flag set, no time point, no particle). *)
Definition blank : Dsys_Anal :=
  mkDsys 0%float 0%float 0 [] false false []
         (λ _ _ _, 0%float) (λ _ _ _, 0%float).

Definition new_Dsys_Anal (dt_in tmax_in : float) (x0 y0 : list float)
    (u_in v_in : float → float → float → float)
  : option (Dsys_Anal * outcome) :=
  st1 ← SetTime blank dt_in tmax_in;
  match SetICs st1 x0 y0 with
  | (st2, Returned) => Some (SetVel st2 u_in v_in, Returned)
  | (st2, o) => Some (st2, o)
  end.

(** Both configuration calls have completed: the time vector has [t_count]
    entries and every position vector has [t_count + 1]. *)
Definition ready (st : Dsys_Anal) : Prop :=
  t_set st = true ∧ ic_set st = true ∧
  length (t st) = t_count st ∧
  Forall (λ p, length (x p) = t_count st + 1 ∧ length (y p) = t_count st + 1)
         (parts st).

(** *** MarchEE *)

(** Body of the inner loop, for time index [i] and particle [n]. *)
Definition EE_body (i n : nat) (st : Dsys_Anal) : option Dsys_Anal :=
  p ← parts st !! n;
  t_i ← vec_read (t st) i;
  x_i ← vec_read (x p) i;
  y_i ← vec_read (y p) i;
  let u_n := u st t_i x_i y_i in
  let v_n := v st t_i x_i y_i in
  x' ← vec_write (x p) (i + 1) (x_i + dt st * u_n)%float;
  y' ← vec_write (y p) (i + 1) (y_i + dt st * v_n)%float;
  Some (with_parts st (<[n := mkParticle x' y']> (parts st))).

(** One iteration of the outer loop: the inner loop over all particles. *)
Definition EE_step (i : nat) (st : Dsys_Anal) : option Dsys_Anal :=
  for_loop (EE_body i) 0 (length (parts st)) st.

Definition MarchEE (st : Dsys_Anal) : option Dsys_Anal :=
  for_loop EE_step 0 (t_count st) st.

(** The object after the first [k] iterations of the outer loop. *)
Definition MarchEE_upto (k : nat) (st : Dsys_Anal) : option Dsys_Anal :=
  for_loop EE_step 0 k st.

(** *** MarchAB *)

(** The object together with the locals [u_nm1] and [v_nm1]. *)
Record AB_state : Type := mkAB {
  ab_obj : Dsys_Anal;
  u_nm1 : list float;
  v_nm1 : list float
}.

Definition AB_body (i n : nat) (s : AB_state) : option AB_state :=
  let st := ab_obj s in
  p ← parts st !! n;
  t_i ← vec_read (t st) i;
  x_i ← vec_read (x p) i;
  y_i ← vec_read (y p) i;
  let u_n := u st t_i x_i y_i in
  let v_n := v st t_i x_i y_i in
  p' ←
    (if decide (i = 0) then
       x' ← vec_write (x p) (i + 1) (x_i + dt st * u_n)%float;
       y' ← vec_write (y p) (i + 1) (y_i + dt st * v_n)%float;
       Some (mkParticle x' y')
     else
       u_prev ← vec_read (u_nm1 s) n;
       x' ← vec_write (x p) (i + 1)
              (x_i + dt st * (3 / 2 * u_n - 1 / 2 * u_prev))%float;
       v_prev ← vec_read (v_nm1 s) n;
       y' ← vec_write (y p) (i + 1)
              (y_i + dt st * (3 / 2 * v_n - 1 / 2 * v_prev))%float;
       Some (mkParticle x' y'));
  u' ← vec_write (u_nm1 s) n u_n;
  v' ← vec_write (v_nm1 s) n v_n;
  Some (mkAB (with_parts st (<[n := p']> (parts st))) u' v').

Definition AB_step (i : nat) (s : AB_state) : option AB_state :=
  for_loop (AB_body i) 0 (length (parts (ab_obj s))) s.

(** The locals on entry: two vectors of [parts.size()] uninitialised
    coefficients. *)
Definition AB_init (st : Dsys_Anal) : AB_state :=
  mkAB st (uninit <$> seq 0 (length (parts st)))
          (uninit <$> seq 0 (length (parts st))).

Definition MarchAB (st : Dsys_Anal) : option Dsys_Anal :=
  ab_obj <$> for_loop AB_step 0 (t_count st) (AB_init st).

Definition MarchAB_upto (k : nat) (st : Dsys_Anal) : option AB_state :=
  for_loop AB_step 0 k (AB_init st).

(** *** PrintTraj *)

(** A line on standard output: the header, or a row
    [printf("%6.2f%6.2f%6.2f\n", t_i, x_i, y_i)] kept as its three
    arguments. *)
Inductive line : Type :=
  | header (text : string)
  | row (t_i x_i y_i : float).

(** [parts[n]] for an [int n]: the index is converted to [size_type], so a
    negative one is out of range as well. *)
Definition particle_at (st : Dsys_Anal) (n : Z) : option Particle :=
  if decide (0 ≤ n)%Z then parts st !! Z.to_nat n else None.

Definition print_row (st : Dsys_Anal) (n : Z) (i : nat) : option line :=
  t_i ← vec_read (t st) i;
  p ← particle_at st n;
  x_i ← vec_read (x p) i;
  y_i ← vec_read (y p) i;
  Some (row t_i x_i y_i).

(** The loop of PrintTraj; what was printed before an out-of-range access
    stays printed. *)
Fixpoint print_rows (st : Dsys_Anal) (n : Z) (i count : nat)
    (out : list line) : list line * outcome :=
  match count with
  | O => (out, Returned)
  | S k =>
      match print_row st n i with
      | Some l => print_rows st n (S i) k (out ++ [l])
      | None => (out, Undefined)
      end
  end.

(** [PrintTraj(n)], from the lines already on standard output to the lines
    after the call. *)
Definition PrintTraj (st : Dsys_Anal) (n : Z) (out : list line)
  : list line * outcome :=
  print_rows st n 0 (t_count st) (out ++ [header "     t     x     y"]).

(** *** ExportData *)

(** Modelled from the spec: json.hpp is missing. The spec gives the
    structured document (an object with a time array and an array of
    per-particle objects) and treats its textual encoding as an opaque,
    lossless service, so a document is kept as a tree and a file holds the
    document written to it. Objects are [std::map]s: their keys are in
    increasing order. *)
Inductive json : Type :=
  | JNull
  | JNumber (d : float)
  | JArray (items : list json)
  | JObject (members : list (string * json)).

#[global] Instance json_inhabited : Inhabited json := populate JNull.

Fixpoint obj_lookup (k : string) (m : list (string * json)) : option json :=
  match m with
  | [] => None
  | (k', j) :: m' => if String.eqb k k' then Some j else obj_lookup k m'
  end.

Fixpoint obj_insert (k : string) (j : json) (m : list (string * json))
  : list (string * json) :=
  match m with
  | [] => [(k, j)]
  | (k', j') :: m' =>
      if String.eqb k k' then (k, j) :: m'
      else if String.ltb k k' then (k, j) :: (k', j') :: m'
      else (k', j') :: obj_insert k j m'
  end.

(** [j[k]] as an lvalue, then [f] on the member: a null becomes an object, a
    missing key is added as null; any other kind of value throws. *)
Definition at_key (k : string) (f : json → option json) (j : json)
  : option json :=
  match j with
  | JNull => e ← f JNull; Some (JObject [(k, e)])
  | JObject m =>
      e ← f (default JNull (obj_lookup k m)); Some (JObject (obj_insert k e m))
  | _ => None
  end.

(** [j[n]] as an lvalue, then [f] on the item: a null becomes an array, an
    array is filled with nulls up to index [n]. *)
Definition at_index (n : nat) (f : json → option json) (j : json)
  : option json :=
  match j with
  | JNull => e ← f JNull; Some (JArray (replicate n JNull ++ [e]))
  | JArray l =>
      let l' := l ++ replicate (S n - length l) JNull in
      e ← f (l' !!! n); Some (JArray (<[n := e]> l'))
  | _ => None
  end.

Definition assign (new : json) (_ : json) : option json := Some new.

(** Conversion of a [VectorXd] to a document: an array of numbers. *)
Definition of_vector (vec : list float) : json := JArray (JNumber <$> vec).

Definition export_body (st : Dsys_Anal) (n : nat) (j : json) : option json :=
  p ← parts st !! n;
  j1 ← at_key "parts" (at_index n (at_key "x" (assign (of_vector (x p))))) j;
  at_key "parts" (at_index n (at_key "y" (assign (of_vector (y p))))) j1.

(** The document [j] that ExportData builds. *)
Definition export_document (st : Dsys_Anal) : option json :=
  j1 ← at_key "t" (assign (of_vector (t st))) JNull;
  j2 ← at_key "parts" (assign (JArray [])) j1;
  for_loop (export_body st) 0 (length (parts st)) j2.

(** The files a program can see: which paths can be opened for writing, and
    what each existing file holds. *)
Record filesystem : Type := mkFs {
  can_open : string → bool;
  files : gmap string json
}.

(** [std::ofstream outfile(filename); outfile << j]: when the file cannot
    be opened the stream is in a failed state and the insertion does
    nothing; no exception mask is set. *)
Definition ExportData (st : Dsys_Anal) (filename : string) (fs : filesystem)
  : filesystem * outcome :=
  match export_document st with
  | None => (fs, Undefined)
  | Some j =>
      if can_open fs filename
      then (mkFs (can_open fs) (<[filename := j]> (files fs)), Returned)
      else (fs, Returned)
  end.

(** Reading a document back: the time array and, per particle, its two
    position arrays. *)
Definition get_key (k : string) (j : json) : option json :=
  match j with
  | JObject m => obj_lookup k m
  | _ => None
  end.

Definition as_number (j : json) : option float :=
  match j with
  | JNumber d => Some d
  | _ => None
  end.

Definition as_vector (j : json) : option (list float) :=
  match j with
  | JArray l => mapM as_number l
  | _ => None
  end.

Definition as_particle (j : json) : option (list float * list float) :=
  xs ← get_key "x" j ≫= as_vector;
  ys ← get_key "y" j ≫= as_vector;
  Some (xs, ys).

Definition read_document (j : json)
  : option (list float * list (list float * list float)) :=
  ts ← get_key "t" j ≫= as_vector;
  pj ← get_key "parts" j;
  match pj with
  | JArray l => ps ← mapM as_particle l; Some (ts, ps)
  | _ => None
  end.

(** A particle after [ResizeParts] with [t_count + 1 = n]. *)
Definition resized (n : nat) (p : Particle) : Particle :=
  mkParticle (conservativeResize n (x p)) (conservativeResize n (y p)).

(** ** The properties as the specification words them *)

(** The time grid of [(dt_in, tmax_in)] read over the real numbers:
    [floor (tmax / dt) + 1] time points, the first one zero, the [i]-th one
    equal to [i * dt], strictly increasing. *)
Definition grid_as_specified (dt_in tmax_in : float) (ts : list float)
  : Prop :=
  ∃ qdt qtmax, exactly dt_in qdt ∧ exactly tmax_in qtmax ∧
    Z.of_nat (length ts) = (Qfloor (qtmax / qdt) + 1)%Z ∧
    ts !! 0 = Some 0%float ∧
    (∀ i a, ts !! i = Some a → exactly a (inject_Z (Z.of_nat i) * qdt)) ∧
    (∀ i j a b, i < j → ts !! i = Some a → ts !! j = Some b →
       ∃ qa qb, exactly a qa ∧ exactly b qb ∧ (qa < qb)%Q).

(** What the first [k] Explicit Euler steps make of particle [p0]: the
    vectors keep their sizes, entry [i + 1] is the Euler update of entry
    [i] for every [i < k], and entry [0] and the entries past [k] are those
    of [p0]. *)
Definition euler_upto (st : Dsys_Anal) (k : nat) (p0 p : Particle) : Prop :=
  length (x p) = length (x p0) ∧ length (y p) = length (y p0) ∧
  (∀ i, i < k →
     let u_n := u st (t st !!! i) (x p !!! i) (y p !!! i) in
     let v_n := v st (t st !!! i) (x p !!! i) (y p !!! i) in
     x p !!! (i + 1) = (x p !!! i + dt st * u_n)%float ∧
     y p !!! (i + 1) = (y p !!! i + dt st * v_n)%float) ∧
  (∀ j, j = 0 ∨ k < j → x p !! j = x p0 !! j ∧ y p !! j = y p0 !! j).

(** The velocity components evaluated at step [i] for particle [p]. *)
Definition vel_u (st : Dsys_Anal) (p : Particle) (i : nat) : float :=
  u st (t st !!! i) (x p !!! i) (y p !!! i).

Definition vel_v (st : Dsys_Anal) (p : Particle) (i : nat) : float :=
  v st (t st !!! i) (x p !!! i) (y p !!! i).

(** What the first [k] steps of MarchAB make of particle [p0]: step [0] is
    an Euler step, every later step [i < k] uses the weights 1.5 and -0.5 on
    the velocities of steps [i] and [i - 1]. *)
Definition ab2_upto (st : Dsys_Anal) (k : nat) (p0 p : Particle) : Prop :=
  length (x p) = length (x p0) ∧ length (y p) = length (y p0) ∧
  (0 < k →
     x p !!! 1 = (x p !!! 0%nat + dt st * vel_u st p 0)%float ∧
     y p !!! 1 = (y p !!! 0%nat + dt st * vel_v st p 0)%float) ∧
  (∀ i, 1 ≤ i → i < k →
     x p !!! (i + 1)
     = (x p !!! i
        + dt st * (1.5 * vel_u st p i - 0.5 * vel_u st p (i - 1)))%float ∧
     y p !!! (i + 1)
     = (y p !!! i
        + dt st * (1.5 * vel_v st p i - 0.5 * vel_v st p (i - 1)))%float) ∧
  (∀ j, j = 0 ∨ k < j → x p !! j = x p0 !! j ∧ y p !! j = y p0 !! j).

(** The document of one particle and of a whole object. *)
Definition particle_document (p : Particle) : json :=
  JObject [("x"%string, of_vector (x p)); ("y"%string, of_vector (y p))].

Definition object_document (st : Dsys_Anal) : json :=
  JObject [("parts"%string, JArray (particle_document <$> parts st));
           ("t"%string, of_vector (t st))].

(** An index that [parts[n]] may be used with. *)
Definition valid_index (st : Dsys_Anal) (n : Z) : Prop :=
  (0 ≤ n < Z.of_nat (length (parts st)))%Z.

(** The Euler update of one particle at time index [i]. *)
Definition euler_update (st : Dsys_Anal) (i : nat) (p : Particle) : Particle :=
  let u_n := u st (t st !!! i) (x p !!! i) (y p !!! i) in
  let v_n := v st (t st !!! i) (x p !!! i) (y p !!! i) in
  mkParticle (<[i + 1 := (x p !!! i + dt st * u_n)%float]> (x p))
             (<[i + 1 := (y p !!! i + dt st * v_n)%float]> (y p)).

(** The particles of [s] are those of [st] advanced by [f n] steps. *)
Definition advanced (st : Dsys_Anal) (f : nat → nat) (s : Dsys_Anal) : Prop :=
  s = with_parts st (parts s) ∧
  length (parts s) = length (parts st) ∧
  ∀ n p0 p, parts st !! n = Some p0 → parts s !! n = Some p →
    euler_upto st (f n) p0 p.

(** The update of one particle at time index [i], given the cached
    velocities [u_prev] and [v_prev]. *)
Definition ab2_update (st : Dsys_Anal) (i : nat) (p : Particle)
    (u_prev v_prev : float) : Particle :=
  if decide (i = 0) then euler_update st i p
  else
    mkParticle
      (<[i + 1 := (x p !!! i
                   + dt st * (3 / 2 * vel_u st p i - 1 / 2 * u_prev))%float]>
         (x p))
      (<[i + 1 := (y p !!! i
                   + dt st * (3 / 2 * vel_v st p i - 1 / 2 * v_prev))%float]>
         (y p)).

(** The particles of [s] are those of [st] advanced by [f n] steps, and the
    cache holds, for a particle that has taken a step, the velocity of its
    latest step. *)
Definition ab_advanced (st : Dsys_Anal) (f : nat → nat) (s : AB_state)
  : Prop :=
  ab_obj s = with_parts st (parts (ab_obj s)) ∧
  length (parts (ab_obj s)) = length (parts st) ∧
  length (u_nm1 s) = length (parts st) ∧
  length (v_nm1 s) = length (parts st) ∧
  ∀ n p0 p, parts st !! n = Some p0 → parts (ab_obj s) !! n = Some p →
    ab2_upto st (f n) p0 p ∧
    (0 < f n → u_nm1 s !!! n = vel_u st p (f n - 1) ∧
               v_nm1 s !!! n = vel_v st p (f n - 1)).

(** ** Invariants of the object *)

(** The sizes agree with the step count whatever calls were made so far:
    the time vector has [t_count] entries and every position vector
    [t_count + 1]; as long as SetTime was not called the count is zero, and
    as long as SetICs was not called there is no particle. *)
Definition consistent (st : Dsys_Anal) : Prop :=
  length (t st) = t_count st ∧
  (t_set st = false → t_count st = 0) ∧
  (ic_set st = false → parts st = []) ∧
  Forall (λ p, length (x p) = t_count st + 1 ∧ length (y p) = t_count st + 1)
         (parts st).

(** Two objects that differ at most in the entries of the position vectors
    past the initial one. *)
Definition same_start (st1 st2 : Dsys_Anal) : Prop :=
  st2 = with_parts st1 (parts st2) ∧
  length (parts st2) = length (parts st1) ∧
  ∀ n p1 p2, parts st1 !! n = Some p1 → parts st2 !! n = Some p2 →
    x p1 !! 0 = x p2 !! 0 ∧ y p1 !! 0 = y p2 !! 0.

(** What the constructor builds from well-formed arguments. *)
Definition constructed_from (dt_in tmax_in : float) (x0 y0 : list float)
    (u_in v_in : float → float → float → float) (n : nat) (st : Dsys_Anal)
  : Prop :=
  ready st ∧ dt st = dt_in ∧ tmax st = tmax_in ∧ t_count st = n ∧
  u st = u_in ∧ v st = v_in ∧
  (∀ i, i < n → t st !! i = Some (dt_in * of_size_t i)%float) ∧
  length (parts st) = length x0 ∧
  ∀ k a b, x0 !! k = Some a → y0 !! k = Some b →
    ∃ p, parts st !! k = Some p ∧ x p !! 0 = Some a ∧ y p !! 0 = Some b.

(** The relative spacing of binary64 numbers, [2^-52]. *)
Definition DBL_EPSILON : Q := (1 # 4503599627370496)%Q.

(** The trajectories of [s1] are the first [k + 1] samples of those of
    [s2], particle by particle. *)
Definition same_upto (k : nat) (s1 s2 : Dsys_Anal) : Prop :=
  length (parts s1) = length (parts s2) ∧
  (∀ i, i < k → t s1 !! i = t s2 !! i) ∧
  ∀ n q1 q2, parts s1 !! n = Some q1 → parts s2 !! n = Some q2 →
    ∀ i, i ≤ k → x q1 !! i = x q2 !! i ∧ y q1 !! i = y q2 !! i.

(** ** Concrete objects *)

(** An oracle for uninitialised memory: every fresh cell holds NaN. *)
Definition garbage : nat → float := λ _, nan.

(** A solid-body rotation, [u = -y] and [v = x]. *)
Definition rot_u (t_i x_i y_i : float) : float := (- y_i)%float.
Definition rot_v (t_i x_i y_i : float) : float := x_i.

(** The object [Dsys_Anal(0.25, 0.5, [1, 0], [2, -1], rot_u, rot_v)] as
    its constructor leaves it, after MarchEE, and after MarchAB. *)
Definition demo : Dsys_Anal :=
  mkDsys 0.25 0.5 3 [0; 0.25; 0.5]%float true true
         [mkParticle [1; nan; nan; nan]%float [2; nan; nan; nan]%float;
          mkParticle [0; nan; nan; nan]%float [-1; nan; nan; nan]%float]
         rot_u rot_v.

Definition demo_EE : Dsys_Anal :=
  with_parts demo
    [mkParticle [1; 0.5; -0.0625; -0.65625]%float
                [2; 2.25; 2.375; 2.359375]%float;
     mkParticle [0; 0.25; 0.5; 0.734375]%float
                [-1; -1; -0.9375; -0.8125]%float].

Definition demo_AB : Dsys_Anal :=
  with_parts demo
    [mkParticle [1; 0.5; -0.09375; -0.6796875]%float
                [2; 2.25; 2.3125; 2.21484375]%float;
     mkParticle [0; 0.25; 0.5; 0.71484375]%float
                [-1; -1; -0.90625; -0.75]%float].

(** The same time grid with a particle whose vectors were never resized. *)
Definition unready : Dsys_Anal :=
  mkDsys 0.25 0.5 3 [0; 0.25; 0.5]%float true false
         [mkParticle [1]%float [2]%float] rot_u rot_v.

(** A file system where nothing can be opened, and one where everything
    can; both without files. *)
Definition fs_closed : filesystem := mkFs (λ _, false) ∅.
Definition fs_open : filesystem := mkFs (λ _, true) ∅.

(** A second content of uninitialised memory: every fresh cell holds 0. *)
Definition zeroed : nat → float := λ _, 0%float.

(** The object [Dsys_Anal(0.5, 0.25, [1], [2], rot_u, rot_v)] as its
    constructor leaves it: a grid of one time point. *)
Definition demo_single : Dsys_Anal :=
  mkDsys 0.5 0.25 1 [0]%float true true
         [mkParticle [1; nan]%float [2; nan]%float] rot_u rot_v.

(** An object on which SetICs was called and SetTime was not. *)
Definition demo_untimed : Dsys_Anal :=
  mkDsys 0 0 0 [] false true [mkParticle [1]%float [2]%float]
         (λ _ _ _, 0%float) (λ _ _ _, 0%float).

(** The object [Dsys_Anal(0.25, 1, [1, 0], [2, -1], rot_u, rot_v)] as its
    constructor leaves it: the grid of [demo] with two more time points. *)
Definition demo_long : Dsys_Anal :=
  mkDsys 0.25 1 5 [0; 0.25; 0.5; 0.75; 1]%float true true
         [mkParticle [1; nan; nan; nan; nan; nan]%float
                     [2; nan; nan; nan; nan; nan]%float;
          mkParticle [0; nan; nan; nan; nan; nan]%float
                     [-1; nan; nan; nan; nan; nan]%float]
         rot_u rot_v.

(** * Proofs *)

(** ** Numbers *)

Lemma Qfloor_shiftl (m : positive) (e : Z) :
  Qfloor (inject_Z (Z.pos m) * Qpower 2 e) = Z.shiftl (Z.pos m) e.
Proof.
  destruct (Z_le_gt_dec 0 e) as [He|He].
  - rewrite Z.shiftl_mul_pow2 by done.
    rewrite <- (Qfloor_Z (Z.pos m * 2 ^ e)).
    apply Qfloor_comp. rewrite inject_Z_mult, Zpower_Qpower by done. reflexivity.
  - rewrite Z.shiftl_div_pow2 by lia.
    rewrite Zdiv_Qdiv. apply Qfloor_comp.
    rewrite Zpower_Qpower by lia. rewrite Qpower_opp.
    unfold Qdiv. rewrite Qinv_involutive. reflexivity.
Qed.

Lemma SF_value_pos (m : positive) (e : Z) :
  (0 < inject_Z (Z.pos m) * 2 ^ e)%Q.
Proof. apply Qmult_lt_0_compat; [done|]. by apply Qpower_0_lt. Qed.

Lemma SF_value_neg (m : positive) (e : Z) :
  (inject_Z (Z.neg m) * 2 ^ e < 0)%Q.
Proof.
  assert (inject_Z (Z.neg m) * 2 ^ e == - (inject_Z (Z.pos m) * 2 ^ e))%Q as ->.
  { change (Z.neg m) with (- Z.pos m)%Z. rewrite inject_Z_opp. ring. }
  apply (Qopp_lt_compat 0), SF_value_pos.
Qed.

Lemma SF2Q_pos_finite f q :
  SF2Q f = Some q → (0 < q)%Q → ∃ m e, f = S754_finite false m e.
Proof.
  destruct f as [s|s| |s m e]; simpl; intros [= <-] Hq; try by inversion Hq.
  destruct s; [|eauto].
  exfalso. apply (Qlt_not_le _ _ Hq), Qlt_le_weak, SF_value_neg.
Qed.

Lemma SF2Q_nonneg_trunc f q :
  SF2Q f = Some q → (0 <= q)%Q → SFtrunc f = Some (Qfloor q).
Proof.
  destruct f as [s|s| |s m e]; simpl; intros [= <-] Hq; try done.
  destruct s.
  - exfalso. apply (Qle_not_lt _ _ Hq), SF_value_neg.
  - by rewrite Qfloor_shiftl.
Qed.

(** A defined conversion to [std::size_t] is the floor of the exact value. *)
Lemma to_size_t_floor d q n :
  exactly d q → (0 <= q)%Q → to_size_t d = Some n → Z.of_nat n = Qfloor q.
Proof.
  intros (q' & Hq' & Heq) Hq. unfold to_size_t, B2Q in *.
  rewrite (SF2Q_nonneg_trunc _ _ Hq') by (by rewrite Heq). simpl.
  case_decide; [|done]. intros [= <-]. rewrite Z2Nat.id by lia. by rewrite Heq.
Qed.

Lemma Qfloor_plus_1 (q : Q) : Qfloor (q + 1) = (Qfloor q + 1)%Z.
Proof.
  destruct q as [a b]. unfold Qfloor, Qplus. simpl.
  rewrite Z.mul_1_r, Pos.mul_1_r.
  rewrite <- (Z.mul_1_l (Z.pos b)) at 1. by rewrite Z.div_add by lia.
Qed.

Lemma mul_zero_pos d q :
  exactly d q → (0 < q)%Q → (d * of_size_t 0 = 0)%float.
Proof.
  intros (q' & Hq' & Heq) Hq. rewrite <- Heq in Hq.
  destruct (SF2Q_pos_finite _ _ Hq' Hq) as (m & e & Hd).
  apply Prim2SF_inj. rewrite mul_spec, Hd. reflexivity.
Qed.

Lemma exactly_compute d q :
  match B2Q d with Some q' => Qeq_bool q' q | None => false end = true →
  exactly d q.
Proof.
  destruct (B2Q d) as [q'|] eqn:E; [|done].
  intros H. exists q'. split; [done|]. by apply Qeq_bool_eq.
Qed.

Lemma exactly_unique d q1 q2 : exactly d q1 → exactly d q2 → (q1 == q2)%Q.
Proof.
  intros (a & Ha & Hqa) (b & Hb & Hqb). rewrite Ha in Hb.
  injection Hb as <-. by rewrite <- Hqa, <- Hqb.
Qed.

(** *** The sign of [tmax / dt + 1] *)

Lemma shr_1_nonneg mrs : (0 ≤ shr_m mrs)%Z → (0 ≤ shr_m (shr_1 mrs))%Z.
Proof.
  destruct mrs as [m r s]. simpl.
  destruct m as [|[p|p|]|p]; simpl; lia.
Qed.

Lemma iter_pos_shr_1_nonneg p mrs :
  (0 ≤ shr_m mrs)%Z → (0 ≤ shr_m (SpecFloat.iter_pos shr_1 p mrs))%Z.
Proof.
  revert mrs. induction p as [p IH|p IH|]; intros mrs H; simpl.
  - apply IH, IH. by apply shr_1_nonneg.
  - by apply IH, IH.
  - by apply shr_1_nonneg.
Qed.

Lemma shr_fexp_nonneg m e l :
  (0 ≤ m)%Z → (0 ≤ shr_m (shr_fexp prec emax m e l).1)%Z.
Proof.
  intros H. unfold shr_fexp, shr.
  assert (0 ≤ shr_m (shr_record_of_loc m l))%Z as H'.
  { by destruct l as [|[]]. }
  destruct (_ - e)%Z; simpl; try done. by apply iter_pos_shr_1_nonneg.
Qed.

Lemma binary_round_aux_nonneg m e l :
  (0 ≤ m)%Z → SF_nonneg (binary_round_aux prec emax false m e l).
Proof.
  intros H. unfold binary_round_aux.
  pose proof (shr_fexp_nonneg m e l H) as H1.
  destruct (shr_fexp prec emax m e l) as [mrs' e']. simpl in H1.
  assert (0 ≤ round_nearest_even (shr_m mrs') (loc_of_shr_record mrs'))%Z as H2.
  { unfold round_nearest_even.
    destruct (loc_of_shr_record mrs') as [|[]]; try done; try lia.
    destruct (Z.even _); lia. }
  pose proof (shr_fexp_nonneg _ e' loc_Exact H2) as H3.
  destruct (shr_fexp prec emax _ e' loc_Exact) as [mrs'' e'']. simpl in H3.
  destruct (shr_m mrs'') as [|p|p]; simpl; try done; try lia.
  by destruct (_ <=? _)%Z.
Qed.

Lemma SFdiv_nonneg a b m e :
  SF_nonneg a → a ≠ S754_infinity false → b = S754_finite false m e →
  SF_nonneg (SFdiv prec emax a b) ∧ SFdiv prec emax a b ≠ S754_nan.
Proof.
  intros Ha Hinf ->. destruct a as [s|s| |s ma ea]; simpl in *; try done.
  - by subst.
  - subst s. simpl.
    destruct (SFdiv_core_binary prec emax (Z.pos ma) ea (Z.pos m) e)
      as [[mz ez] lz] eqn:E.
    assert (0 ≤ mz)%Z as Hmz.
    { unfold SFdiv_core_binary in E.
      set (m' := match (_ - _ - _)%Z with Z0 => _ | Z.pos _ => _ | Z.neg _ => _ end) in E.
      assert (0 ≤ m')%Z as Hm'.
      { unfold m'. destruct (_ - _ - _)%Z; try lia.
        apply Z.shiftl_nonneg. lia. }
      pose proof (Z.div_pos m' (Z.pos m) Hm' ltac:(lia)) as Hq.
      unfold Z.div in Hq. destruct (Z.div_eucl m' (Z.pos m)) as [q r].
      injection E as <- _ _. done. }
    pose proof (binary_round_aux_nonneg mz ez lz Hmz) as H.
    split; [done|]. intros Hn. by rewrite Hn in H.
Qed.

Lemma binary_round_nonneg m e : SF_nonneg (binary_round prec emax false m e).
Proof.
  unfold binary_round. destruct (shl_align _ _ _) as [mz ez].
  by apply binary_round_aux_nonneg.
Qed.

Lemma SFadd_one_nonneg a :
  SF_nonneg a → SF_nonneg (SFadd prec emax a (Prim2SF 1)).
Proof.
  change (Prim2SF 1) with (S754_finite false 4503599627370496 (-52)).
  destruct a as [s|s| |s ma ea]; simpl; try done.
  intros ->. simpl. apply binary_round_nonneg.
Qed.

Lemma exactly_nonneg d q :
  exactly d q → (0 <= q)%Q →
  SF_nonneg (Prim2SF d) ∧ Prim2SF d ≠ S754_infinity false.
Proof.
  intros (q' & Hq' & Heq) Hq. rewrite <- Heq in Hq. unfold B2Q in Hq'.
  destruct (Prim2SF d) as [s|s| |s m e]; simpl in *; try done.
  injection Hq' as <-. split; [|done]. destruct s; [|done].
  exfalso. apply (Qle_not_lt _ _ Hq), SF_value_neg.
Qed.

Lemma count_nonneg dt_in tmax_in qdt qtmax :
  exactly dt_in qdt → exactly tmax_in qtmax → (0 < qdt)%Q → (0 <= qtmax)%Q →
  SF_nonneg (Prim2SF (tmax_in / dt_in + 1)%float).
Proof.
  intros (q' & Hq' & Heq) Htmax Hpos Hnn. rewrite <- Heq in Hpos.
  destruct (SF2Q_pos_finite _ _ Hq' Hpos) as (m & e & Hdt).
  destruct (exactly_nonneg _ _ Htmax Hnn) as [Hs Hinf].
  rewrite add_spec, div_spec. apply SFadd_one_nonneg.
  by apply (SFdiv_nonneg _ _ m e).
Qed.

Lemma SF_nonneg_trunc f :
  SF_nonneg f →
  f = S754_infinity false ∨ ∃ z, SFtrunc f = Some z ∧ (0 ≤ z)%Z.
Proof.
  destruct f as [s|s| |s m e]; simpl; try done.
  - right. exists 0%Z. done.
  - intros ->. by left.
  - intros ->. right. eexists. split; [done|]. apply Z.shiftl_nonneg. lia.
Qed.

(** *** Rounding of the products [dt * i] *)

Section Rounding.

#[local] Open Scope Z_scope.

(** The number of binary digits of a mantissa. *)
Lemma digits2_pos_bounds (p : positive) :
  2 ^ (Z.pos (digits2_pos p) - 1) ≤ Z.pos p < 2 ^ Z.pos (digits2_pos p).
Proof.
  induction p as [p IH|p IH|]; simpl digits2_pos.
  - rewrite Pos2Z.inj_succ. replace (Z.succ (Z.pos (digits2_pos p)) - 1)
      with (Z.succ (Z.pos (digits2_pos p) - 1)) by lia.
    rewrite !Z.pow_succ_r by lia. lia.
  - rewrite Pos2Z.inj_succ. replace (Z.succ (Z.pos (digits2_pos p)) - 1)
      with (Z.succ (Z.pos (digits2_pos p) - 1)) by lia.
    rewrite !Z.pow_succ_r by lia. lia.
  - simpl. lia.
Qed.

Lemma Zdigits2_log2 (n : Z) : 0 < n → Zdigits2 n = Z.log2 n + 1.
Proof.
  destruct n as [|p|p]; try lia. intros _. unfold Zdigits2.
  pose proof (digits2_pos_bounds p) as H.
  assert (Z.log2 (Z.pos p) = Z.pos (digits2_pos p) - 1) as ->; [|lia].
  apply Z.log2_unique; [lia|].
  by replace (Z.succ (Z.pos (digits2_pos p) - 1))
    with (Z.pos (digits2_pos p)) by lia.
Qed.

(** One right shift halves the mantissa and keeps the flags clear exactly
    when the bit shifted out is zero. *)
Lemma shr_1_spec mrs :
  0 ≤ shr_m mrs →
  shr_m (shr_1 mrs) = shr_m mrs / 2 ∧
  (orb (shr_r (shr_1 mrs)) (shr_s (shr_1 mrs)) = false ↔
   (orb (shr_r mrs) (shr_s mrs) = false ∧ shr_m mrs mod 2 = 0)).
Proof.
  destruct mrs as [m r s]. simpl. intros Hm.
  destruct m as [|[p|p|]|p]; simpl shr_m; simpl shr_r; simpl shr_s; try lia.
  - split; [done|]. rewrite orb_false_l. split; [done|tauto].
  - split.
    + rewrite Pos2Z.inj_xI. apply (Z.div_unique _ _ _ 1); lia.
    + rewrite Pos2Z.inj_xI.
      replace ((2 * Z.pos p + 1) mod 2) with 1
        by (apply (Z.mod_unique _ _ (Z.pos p)); lia).
      simpl. split; [done|]. intros [_ ?]; lia.
  - split.
    + rewrite Pos2Z.inj_xO. apply (Z.div_unique _ _ _ 0); lia.
    + rewrite Pos2Z.inj_xO.
      replace ((2 * Z.pos p) mod 2) with 0
        by (apply (Z.mod_unique _ _ (Z.pos p)); lia).
      rewrite orb_false_l. split; [done|tauto].
  - split; [done|]. simpl. split; [done|]. intros [_ H]. done.
Qed.

Lemma mod_pow2_split m a b :
  0 ≤ m → 0 ≤ a → 0 ≤ b →
  (m mod 2 ^ (a + b) = 0 ↔ m mod 2 ^ a = 0 ∧ (m / 2 ^ a) mod 2 ^ b = 0).
Proof.
  intros Hm Ha Hb. rewrite Z.pow_add_r by done.
  rewrite Z.rem_mul_r by lia.
  pose proof (Z.mod_pos_bound m (2 ^ a) ltac:(lia)).
  pose proof (Z.mod_pos_bound (m / 2 ^ a) (2 ^ b) ltac:(lia)).
  nia.
Qed.

Lemma shifted_trans i j a b c :
  0 ≤ shr_m a → 0 ≤ i → 0 ≤ j →
  shifted i a b → shifted j b c → shifted (i + j) a c.
Proof.
  intros Ha Hi Hj (Hb0 & Hb & Hfb) (Hc0 & Hc & Hfc).
  split; [done|]. split.
  - rewrite Hc, Hb, Z.pow_add_r by done. rewrite Z.div_div by lia. done.
  - rewrite Hfc, Hfb, Hb, (mod_pow2_split _ i j) by done. tauto.
Qed.

Lemma shifted_1 a : 0 ≤ shr_m a → shifted 1 a (shr_1 a).
Proof.
  intros Ha. destruct (shr_1_spec a Ha) as [H1 H2].
  split; [rewrite H1; by apply Z.div_pos|]. split; [done|]. apply H2.
Qed.

Lemma shifted_iter p a :
  0 ≤ shr_m a → shifted (Z.pos p) a (SpecFloat.iter_pos shr_1 p a).
Proof.
  revert a. induction p as [p IH|p IH|]; intros a Ha; simpl.
  - pose proof (shifted_1 a Ha) as H1.
    pose proof (IH _ (proj1 H1)) as H2.
    pose proof (IH _ (proj1 H2)) as H3.
    rewrite Pos2Z.inj_xI.
    replace (2 * Z.pos p + 1) with (1 + Z.pos p + Z.pos p) by lia.
    eapply shifted_trans; [done|lia|lia| |exact H3].
    eapply shifted_trans; [done|lia|lia|exact H1|exact H2].
  - pose proof (IH _ Ha) as H2.
    pose proof (IH _ (proj1 H2)) as H3.
    rewrite Pos2Z.inj_xO. replace (2 * Z.pos p) with (Z.pos p + Z.pos p) by lia.
    eapply shifted_trans; [done|lia|lia|exact H2|exact H3].
  - by apply shifted_1.
Qed.

Lemma fexp64_eq x : fexp64 x = Z.max (x - 53) (-1074).
Proof. reflexivity. Qed.

Lemma shr_fexp_spec M E :
  0 ≤ M →
  let k := Z.max 0 (fexp64 (Zdigits2 M + E) - E) in
  ∃ mrs, shr_fexp prec emax M E loc_Exact = (mrs, E + k) ∧
         shifted k (Build_shr_record M false false) mrs.
Proof.
  intros HM k. unfold shr_fexp, shr. fold fexp64.
  change (shr_record_of_loc M loc_Exact) with (Build_shr_record M false false).
  subst k. destruct (fexp64 (Zdigits2 M + E) - E) as [|p|p] eqn:Hk.
  - eexists. split; [by rewrite Z.add_0_r|].
    split; [done|]. simpl. rewrite Z.div_1_r, Z.mod_1_r. tauto.
  - eexists. split; [by rewrite Z.max_r by lia|].
    rewrite Z.max_r by lia. by apply shifted_iter.
  - eexists. split; [by rewrite Z.max_l, Z.add_0_r by lia|].
    rewrite Z.max_l by lia.
    split; [done|]. simpl. rewrite Z.div_1_r, Z.mod_1_r. tauto.
Qed.

Lemma Zdigits2_le53 m : 0 ≤ m → m < 2 ^ 53 → Zdigits2 m ≤ 53.
Proof.
  intros H0 H. destruct (decide (m = 0)) as [->|Hne]; [simpl; lia|].
  rewrite Zdigits2_log2 by lia.
  assert (Z.log2 m < 53); [|lia]. apply Z.log2_lt_pow2; lia.
Qed.

Lemma round_nearest_even_bounds m l :
  m ≤ round_nearest_even m l ≤ m + 1 ∧
  (l = loc_Exact → round_nearest_even m l = m).
Proof.
  unfold round_nearest_even. destruct l as [|[]]; try destruct (Z.even m);
    split; try done; lia.
Qed.

Lemma loc_exact_flags mrs :
  loc_of_shr_record mrs = loc_Exact ↔ flags_clear mrs.
Proof.
  destruct mrs as [m [] []]; unfold flags_clear; simpl; split; done.
Qed.

(** The value of a rounded positive number: the mantissa left after the
    shift, or the next one, at the exponent [E + k]. *)
Lemma binary_round_aux_value M E :
  0 < M →
  let k := Z.max 0 (fexp64 (Zdigits2 M + E) - E) in
  binary_round_aux prec emax false M E loc_Exact = S754_infinity false ∨
  ∃ m1 q, SF2Q (binary_round_aux prec emax false M E loc_Exact) = Some q ∧
    (q == inject_Z m1 * 2 ^ (E + k))%Q ∧
    M / 2 ^ k ≤ m1 ≤ M / 2 ^ k + 1 ∧
    (M mod 2 ^ k = 0 → m1 = M / 2 ^ k).
Proof.
  intros HM k. unfold binary_round_aux.
  destruct (shr_fexp_spec M E ltac:(lia)) as (mrs' & -> & Hs0 & Hs1 & Hs2).
  fold k in Hs0, Hs1, Hs2 |- *. simpl shr_m in Hs1, Hs2.
  set (m1 := round_nearest_even (shr_m mrs') (loc_of_shr_record mrs')).
  destruct (round_nearest_even_bounds (shr_m mrs') (loc_of_shr_record mrs'))
    as [Hb Hex]. fold m1 in Hb, Hex.
  assert (0 ≤ k) as Hk by (subst k; lia).
  assert (M / 2 ^ k < 2 ^ 53) as Hm'.
  { apply Z.div_lt_upper_bound; [lia|]. rewrite <- Z.pow_add_r by lia.
    assert (Z.log2 M < k + 53); [|apply Z.log2_lt_pow2; lia].
    subst k. rewrite fexp64_eq, Zdigits2_log2 by lia. lia. }
  assert (-1074 ≤ E + k) as HE.
  { subst k. rewrite fexp64_eq. lia. }
  assert (M mod 2 ^ k = 0 → m1 = M / 2 ^ k) as Hexact.
  { intros H0. rewrite <- Hs1. apply Hex. apply loc_exact_flags, Hs2.
    split; [done|exact H0]. }
  destruct (decide (m1 = 2 ^ 53)) as [Hcarry|Hno].
  - (* the carry: one more shift, which is exact *)
    rewrite Hcarry.
    change (shr_fexp prec emax (2 ^ 53) (E + k) loc_Exact)
      with (shr (Build_shr_record 9007199254740992 false false) (E + k)
              (fexp64 (54 + (E + k)) - (E + k))).
    replace (fexp64 (54 + (E + k)) - (E + k)) with 1
      by (rewrite fexp64_eq; lia).
    change (shr (Build_shr_record 9007199254740992 false false) (E + k) 1)
      with (Build_shr_record 4503599627370496 false false, E + k + 1).
    cbn [shr_m].
    destruct (E + k + 1 <=? emax - prec) eqn:Hle; [|by left].
    right. exists m1, (inject_Z 4503599627370496 * 2 ^ (E + k + 1))%Q.
    split; [done|]. split; [|split; [lia|done]].
    rewrite Hcarry. rewrite Qpower_plus by done.
    change (2 ^ 53) with (4503599627370496 * 2). rewrite inject_Z_mult.
    change (2 ^ 1)%Q with (inject_Z 2). ring.
  - assert (0 ≤ m1 < 2 ^ 53) as Hm1 by lia.
    assert (fexp64 (Zdigits2 m1 + (E + k)) - (E + k) ≤ 0) as Hk2.
    { pose proof (Zdigits2_le53 m1 ltac:(lia) ltac:(lia)).
      rewrite fexp64_eq. lia. }
    destruct (shr_fexp_spec m1 (E + k) ltac:(lia))
      as (mrs'' & -> & Ht0 & Ht1 & _).
    rewrite Z.max_l in Ht1 |- * by exact Hk2.
    simpl in Ht1. rewrite Z.div_1_r in Ht1. rewrite Ht1, Z.add_0_r.
    destruct m1 as [|p|p] eqn:Em1; try lia.
    + right. exists 0, 0%Q. split; [done|]. split; [|split; [lia|done]].
      ring.
    + destruct (E + k <=? emax - prec) eqn:Hle; [|by left].
      right. exists (Z.pos p), (inject_Z (Z.pos p) * 2 ^ (E + k))%Q.
      split; [done|]. split; [reflexivity|]. split; [lia|done].
Qed.

(** A mantissa already at its exponent is not rounded. *)
Lemma binary_round_aux_exact mz ez :
  fexp64 (Zdigits2 (Z.pos mz) + ez) = ez → ez ≤ emax - prec →
  binary_round_aux prec emax false (Z.pos mz) ez loc_Exact
  = S754_finite false mz ez.
Proof.
  intros Hf He. unfold binary_round_aux, shr_fexp. fold fexp64.
  rewrite Hf, Z.sub_diag. cbn [shr shr_record_of_loc shr_m loc_of_shr_record
    round_nearest_even]. rewrite Hf, Z.sub_diag. cbn [shr shr_m].
  by rewrite (proj2 (Z.leb_le _ _) He).
Qed.

Lemma Pos_iter_xO p d : Z.pos (Pos.iter xO p d) = Z.pos p * 2 ^ Z.pos d.
Proof.
  induction d as [|d IH] using Pos.peano_ind.
  - simpl. lia.
  - rewrite Pos.iter_succ, Pos2Z.inj_xO, IH, Pos2Z.inj_succ.
    rewrite Z.pow_succ_r by lia. lia.
Qed.

Lemma shl_align_spec p ex ex' :
  ex' ≤ ex →
  ∃ mz, shl_align p ex ex' = (mz, ex') ∧ Z.pos mz = Z.pos p * 2 ^ (ex - ex').
Proof.
  intros H. unfold shl_align. destruct (ex' - ex) as [|d|d] eqn:Hd; try lia.
  - exists p. replace ex with ex' by lia. rewrite Z.sub_diag. split; [done|lia].
  - eexists. split; [done|]. rewrite Pos_iter_xO. f_equal. f_equal. lia.
Qed.

Lemma Zdigits2_mul_pow2 a b :
  0 < a → 0 ≤ b → Zdigits2 (a * 2 ^ b) = Zdigits2 a + b.
Proof.
  intros Ha Hb. rewrite !Zdigits2_log2 by nia.
  rewrite Z.log2_mul_pow2 by lia. lia.
Qed.

(** The double nearest to an index below [2^53] is the index itself, with
    a non-positive exponent. *)
Lemma of_size_t_repr (n : nat) :
  0 < Z.of_nat n < 2 ^ 53 →
  ∃ mi ei, Prim2SF (of_size_t n) = S754_finite false mi ei ∧
    ei ≤ 0 ∧ Z.pos mi = Z.of_nat n * 2 ^ (- ei).
Proof.
  intros [H0 H]. unfold of_size_t.
  destruct (Z.of_nat n) as [|p|p] eqn:Ep; try lia.
  cbn [binary_normalize]. unfold binary_round. fold fexp64.
  assert (Zdigits2 (Z.pos p) ≤ 53) as Hd by (apply Zdigits2_le53; lia).
  assert (1 ≤ Zdigits2 (Z.pos p)) as Hd1.
  { rewrite Zdigits2_log2 by lia. pose proof (Z.log2_nonneg (Z.pos p)). lia. }
  change (Z.pos (digits2_pos p)) with (Zdigits2 (Z.pos p)).
  set (ez := fexp64 (Zdigits2 (Z.pos p) + 0)).
  assert (ez = Zdigits2 (Z.pos p) - 53) as Hez.
  { subst ez. rewrite fexp64_eq. lia. }
  destruct (shl_align_spec p 0 ez ltac:(lia)) as (mz & -> & Hmz).
  assert (fexp64 (Zdigits2 (Z.pos mz) + ez) = ez) as Hcanon.
  { rewrite Hmz, Zdigits2_mul_pow2 by lia. rewrite fexp64_eq. lia. }
  rewrite (binary_round_aux_exact mz ez Hcanon)
    by (change (emax - prec) with 971; lia).
  rewrite Prim2SF_SF2Prim.
  - exists mz, ez. split; [done|]. split; [lia|].
    rewrite Hmz. by rewrite Z.sub_0_l.
  - cbn [valid_binary]. unfold bounded, canonical_mantissa. fold fexp64.
    change (Z.pos (digits2_pos mz)) with (Zdigits2 (Z.pos mz)).
    rewrite Hcanon, Z.eqb_refl. simpl. apply Z.leb_le.
    change (emax - prec) with 971. lia.
Qed.

Lemma Q_scale (z c e : Z) :
  0 ≤ c → (inject_Z (z * 2 ^ c) * 2 ^ (e - c) == inject_Z z * 2 ^ e)%Q.
Proof.
  intros Hc. rewrite inject_Z_mult, Zpower_Qpower by done.
  rewrite <- Qmult_assoc. apply Qmult_comp; [reflexivity|].
  rewrite <- Qpower_plus by done. by replace (c + (e - c)) with e by lia.
Qed.

Lemma valid_finite_canonical s m e :
  valid_binary (S754_finite s m e) = true →
  -1074 ≤ e ∧ Zdigits2 (Z.pos m) ≤ 53.
Proof.
  cbn [valid_binary]. unfold bounded, canonical_mantissa. fold fexp64.
  change (Z.pos (digits2_pos m)) with (Zdigits2 (Z.pos m)).
  intros [H _]%andb_prop. apply Z.eqb_eq in H. rewrite fexp64_eq in H. lia.
Qed.

(** The product [dt * i] in units of the last place of [dt]: an integer
    [R] within a quarter of [dt]'s mantissa of [m * i], for an index below
    [2^50]. *)
Lemma product_value (d : float) (m : positive) (e : Z) (n : nat) :
  Prim2SF d = S754_finite false m e →
  Z.of_nat n < 2 ^ 50 →
  Prim2SF (d * of_size_t n)%float = S754_infinity false ∨
  ∃ R q, B2Q (d * of_size_t n)%float = Some q ∧
    (q == inject_Z R * 2 ^ e)%Q ∧
    4 * Z.abs (R - Z.pos m * Z.of_nat n) ≤ Z.pos m.
Proof.
  intros Hd Hn.
  pose proof (Prim2SF_valid d) as Hv. rewrite Hd in Hv.
  destruct (valid_finite_canonical _ _ _ Hv) as [He Hdm].
  destruct (decide (n = 0%nat)) as [->|Hn0].
  { right. exists 0, 0%Q. unfold B2Q. rewrite mul_spec, Hd.
    split; [done|]. split; [ring|lia]. }
  destruct (of_size_t_repr n) as (mi & ei & Hi & Hei & Hmi); [lia|].
  unfold B2Q. rewrite mul_spec, Hd, Hi.
  cbn [SF64mul SFmul xorb].
  set (i := Z.of_nat n) in *. set (s := - ei) in *.
  set (a := Z.pos m * i).
  assert (0 < a) as Ha by (subst a; lia).
  assert (0 ≤ s) as Hs by (subst s; lia).
  assert (Z.pos (m * mi) = a * 2 ^ s) as HM.
  { rewrite Pos2Z.inj_mul, Hmi. subst a. ring. }
  rewrite HM.
  destruct (binary_round_aux_value (a * 2 ^ s) (e + ei) ltac:(nia))
    as [Hinf|(m1 & q & Hq & Hqv & Hb & Hex)]; [by left|].
  right. rewrite Hq.
  set (k := 0 `max` (fexp64 (Zdigits2 (a * 2 ^ s) + (e + ei)) - (e + ei)))
    in *.
  assert (Zdigits2 (a * 2 ^ s) + (e + ei) = Zdigits2 a + e) as HD.
  { rewrite Zdigits2_mul_pow2 by lia. subst s. lia. }
  assert (k = 0 `max` (fexp64 (Zdigits2 a + e) - (e + ei))) as Hkdef.
  { subst k. by rewrite HD. }
  clearbody k.
  assert (0 ≤ k) as Hk by lia.
  destruct (decide (k ≤ s)) as [Hks|Hks].
  - (* the shift stays within the zeros of [2^s]: exact *)
    exists a, q. split; [done|].
    assert (a * 2 ^ s = a * 2 ^ (s - k) * 2 ^ k) as Hsplit.
    { rewrite <- Z.mul_assoc, <- Z.pow_add_r by lia. do 2 f_equal. lia. }
    assert (m1 = a * 2 ^ (s - k)) as Hm1.
    { rewrite Hex; rewrite Hsplit; [by rewrite Z.div_mul by lia|].
      by rewrite Z.mod_mul by lia. }
    split; [|lia].
    rewrite Hqv, Hm1. replace (e + ei + k) with (e - (s - k)) by lia.
    apply Q_scale. lia.
  - (* a proper rounding, in the normal range *)
    set (c := k - s). assert (0 < c) as Hc by (subst c; lia).
    assert (c = Zdigits2 a - 53) as Hcd.
    { subst c s. rewrite fexp64_eq in Hkdef. lia. }
    assert (a * 2 ^ s / 2 ^ k = a / 2 ^ c) as Hdiv.
    { replace k with (c + s) by (subst c; lia).
      rewrite Z.pow_add_r by lia. rewrite Z.div_mul_cancel_r by lia. done. }
    rewrite Hdiv in Hb.
    exists (m1 * 2 ^ c), q. split; [done|]. split.
    + rewrite Hqv. replace (e + ei + k) with (e + c) by (subst c s; lia).
      rewrite <- (Q_scale m1 c (e + c)) by lia.
      by replace (e + c - c) with e by lia.
    + assert (2 ^ (c + 2) ≤ Z.pos m) as Hu.
      { assert (Zdigits2 a ≤ Zdigits2 (Z.pos m) + 50) as Hda.
        { rewrite !Zdigits2_log2 by lia.
          assert (Z.log2 a < Z.log2 (Z.pos m) + 1 + 50); [|lia].
          apply Z.log2_lt_pow2; [lia|]. rewrite Z.pow_add_r by
            (pose proof (Z.log2_nonneg (Z.pos m)); lia).
          pose proof (Z.log2_spec (Z.pos m) ltac:(lia)) as [_ Hlt].
          replace (Z.succ (Z.log2 (Z.pos m))) with (Z.log2 (Z.pos m) + 1)
            in Hlt by lia.
          subst a. nia. }
        pose proof (digits2_pos_bounds m) as [Hlo _].
        change (Z.pos (digits2_pos m)) with (Zdigits2 (Z.pos m)) in Hlo.
        eapply Z.le_trans; [|exact Hlo].
        apply Z.pow_le_mono_r; lia. }
      rewrite Z.pow_add_r in Hu by lia. change (2 ^ 2) with 4 in Hu.
      pose proof (Z.mul_div_le a (2 ^ c) ltac:(lia)) as H1.
      pose proof (Z.mul_succ_div_gt a (2 ^ c) ltac:(lia)) as H2.
      subst a. nia.
Qed.

(** Two finite time points of a grid of at most [2^50] points are in the
    order of their indices, whatever the rounding of the products. *)
Lemma products_increasing (d : float) (qd : Q) (n1 n2 : nat) (qa qb : Q) :
  exactly d qd → (0 < qd)%Q →
  (n1 < n2)%nat → Z.of_nat n2 < 2 ^ 50 →
  B2Q (d * of_size_t n1)%float = Some qa →
  B2Q (d * of_size_t n2)%float = Some qb →
  (qa < qb)%Q.
Proof.
  intros (q' & Hq' & Heq) Hpos Hlt Hn Ha Hb. rewrite <- Heq in Hpos.
  destruct (SF2Q_pos_finite _ _ Hq' Hpos) as (m & e & Hd).
  destruct (product_value d m e n1 Hd ltac:(lia))
    as [Hinf|(Ra & qa' & Ha' & Hqa & Hra)].
  { unfold B2Q in Ha. by rewrite Hinf in Ha. }
  destruct (product_value d m e n2 Hd ltac:(lia))
    as [Hinf|(Rb & qb' & Hb' & Hqb & Hrb)].
  { unfold B2Q in Hb. by rewrite Hinf in Hb. }
  rewrite Ha in Ha'. injection Ha' as <-.
  rewrite Hb in Hb'. injection Hb' as <-.
  rewrite Hqa, Hqb. apply Qmult_lt_compat_r.
  - by apply Qpower_0_lt.
  - rewrite <- Zlt_Qlt. nia.
Qed.

End Rounding.

(** ** Containers *)

Lemma length_resize n vec : length (resize n vec) = n.
Proof.
  unfold resize. case_decide; [done|]. by rewrite length_fmap, length_seq.
Qed.

Lemma length_conservativeResize n vec : length (conservativeResize n vec) = n.
Proof.
  unfold conservativeResize.
  rewrite length_app, length_take, length_fmap, length_seq. lia.
Qed.

Lemma lookup_conservativeResize_old n vec i :
  i < length vec → i < n → conservativeResize n vec !! i = vec !! i.
Proof.
  intros Hi Hn. unfold conservativeResize.
  rewrite lookup_app_l by (rewrite length_take; lia).
  by rewrite lookup_take_lt.
Qed.

Lemma lookup_conservativeResize_new n vec i :
  length vec ≤ i → i < n → conservativeResize n vec !! i = Some (uninit i).
Proof.
  intros Hi Hn. unfold conservativeResize.
  rewrite lookup_app_r by (rewrite length_take; lia).
  rewrite length_take, Nat.min_r by lia.
  rewrite list_lookup_fmap, lookup_seq_lt by lia. simpl. f_equal. f_equal. lia.
Qed.

Lemma length_vector_resize n ps : length (vector_resize n ps) = n.
Proof.
  unfold vector_resize. rewrite length_app, length_take, length_replicate. lia.
Qed.

Lemma for_loop_snoc {St : Type} (body : nat → St → option St) i k s :
  for_loop body i (S k) s = for_loop body i k s ≫= body (i + k).
Proof.
  revert i s. induction k as [|k IH]; intros i s.
  - simpl. rewrite Nat.add_0_r. by destruct (body i s).
  - change (for_loop body i (S (S k)) s)
      with (body i s ≫= for_loop body (S i) (S k)).
    change (for_loop body i (S k) s) with (body i s ≫= for_loop body (S i) k).
    destruct (body i s) as [s'|]; [|done].
    change (for_loop body (S i) (S k) s'
            = for_loop body (S i) k s' ≫= body (i + S k)).
    rewrite IH. by replace (S i + k) with (i + S k) by lia.
Qed.

(** Hoare rule of the counted loop: an invariant that every iteration in
    range preserves (without running into undefined behaviour) holds after
    the loop, which therefore completes. *)
Lemma for_loop_inv {St : Type} (Inv : nat → St → Prop)
    (body : nat → St → option St) k s :
  Inv 0 s →
  (∀ j a, j < k → Inv j a → ∃ b, body j a = Some b ∧ Inv (S j) b) →
  ∃ s', for_loop body 0 k s = Some s' ∧ Inv k s'.
Proof.
  intros H0 Hstep. induction k as [|k IH].
  - by exists s.
  - destruct IH as (a & Ha & HI); [intros j b Hj; apply Hstep; lia|].
    destruct (Hstep k a) as (b & Hb & HI'); [lia|done|].
    exists b. by rewrite for_loop_snoc, Ha.
Qed.

(** ** Configuration: SetTime, SetICs, ResizeParts *)

Lemma SetTime_Some st dt_in tmax_in n :
  to_size_t (tmax_in / dt_in + 1)%float = Some n →
  ∃ st', SetTime st dt_in tmax_in = Some st' ∧
    dt st' = dt_in ∧ tmax st' = tmax_in ∧ t_count st' = n ∧
    t st' = imap (λ i _, dt_in * of_size_t i)%float (resize n (t st)) ∧
    t_set st' = true ∧ ic_set st' = ic_set st ∧
    parts st' = (if ic_set st then resized (n + 1) <$> parts st
                 else parts st) ∧
    u st' = u st ∧ v st' = v st.
Proof.
  intros Hn. unfold SetTime. rewrite Hn. simpl.
  eexists. split; [done|]. by destruct (ic_set st).
Qed.

(** For a finite [dt > 0] and [tmax >= 0] the count [tmax / dt + 1] is
    neither NaN nor negative, so its conversion, and SetTime with it, is
    defined unless the count is infinite or too large for its type. *)
Lemma SetTime_defined st dt_in tmax_in qdt qtmax :
  exactly dt_in qdt → exactly tmax_in qtmax → (0 < qdt)%Q → (0 <= qtmax)%Q →
  (∃ st', SetTime st dt_in tmax_in = Some st') ∨
  (SetTime st dt_in tmax_in = None ∧
   ((tmax_in / dt_in + 1)%float = infinity ∨
    ∃ z, SFtrunc (Prim2SF (tmax_in / dt_in + 1)%float) = Some z ∧
         (size_max < z)%Z)).
Proof.
  intros Hdt Htmax Hpos Hnn.
  pose proof (count_nonneg _ _ _ _ Hdt Htmax Hpos Hnn) as Hc.
  destruct (SF_nonneg_trunc _ Hc) as [Hinf|(z & Hz & Hz0)].
  - right. unfold SetTime, to_size_t. rewrite Hinf. split; [done|]. left.
    apply Prim2SF_inj. by rewrite Hinf.
  - destruct (decide (z ≤ size_max)%Z) as [Hle|Hgt].
    + left.
      destruct (SetTime_Some st dt_in tmax_in (Z.to_nat z)) as (st' & E & _).
      { unfold to_size_t. rewrite Hz. simpl. by rewrite decide_True. }
      eauto.
    + right. unfold SetTime, to_size_t. rewrite Hz. simpl.
      rewrite decide_False by lia. split; [done|]. right.
      exists z. split; [done|lia].
Qed.

Lemma SetTime_lookup st dt_in tmax_in st' i :
  SetTime st dt_in tmax_in = Some st' → i < t_count st' →
  t st' !! i = Some (dt_in * of_size_t i)%float.
Proof.
  unfold SetTime. destruct (to_size_t _) as [n|] eqn:Hn; [|done].
  destruct (SetTime_Some st _ _ _ Hn) as (st2 & E & _ & _ & Hc & Ht & _).
  unfold SetTime in E. rewrite Hn in E. rewrite E. intros [= <-] Hi.
  rewrite Ht, list_lookup_imap.
  destruct (lookup_lt_is_Some_2 (resize n (t st)) i) as [a ->]; [|done].
  rewrite length_resize. lia.
Qed.

(** C3 (as amended). For finite [dt > 0] and [tmax >= 0] for which the
    conversion of [tmax / dt + 1] is defined (it is unless the count
    overflows, see [SetTime_defined]), SetTime succeeds; the time
    vector has as many entries as that conversion yields, entry [i] is the
    binary64 product [dt * i], and entry [0] is zero. When [tmax / dt + 1]
    is computed without rounding error there are [floor (tmax / dt) + 1]
    entries; when the products [dt * i] are, [times[i] = i * dt] and the
    sequence is strictly increasing; on a grid of at most [2^50] points the
    finite entries are strictly increasing whatever the rounding; when sum
    and products are exact, the grid is the one specified over the
    reals. *)
Theorem SetTime_grid st dt_in tmax_in qdt qtmax n :
  exactly dt_in qdt → exactly tmax_in qtmax →
  (0 < qdt)%Q → (0 <= qtmax)%Q →
  to_size_t (tmax_in / dt_in + 1)%float = Some n →
  ∃ st', SetTime st dt_in tmax_in = Some st' ∧
    t_count st' = n ∧ length (t st') = n ∧
    (∀ i, i < n → t st' !! i = Some (dt_in * of_size_t i)%float) ∧
    (0 < n → t st' !! 0 = Some 0%float) ∧
    (exactly (tmax_in / dt_in + 1)%float (qtmax / qdt + 1)%Q →
     Z.of_nat n = (Qfloor (qtmax / qdt) + 1)%Z) ∧
    ((∀ i, i < n →
        exactly (dt_in * of_size_t i)%float (inject_Z (Z.of_nat i) * qdt)) →
     (∀ i a, t st' !! i = Some a → exactly a (inject_Z (Z.of_nat i) * qdt)) ∧
     (∀ i j a b, i < j → t st' !! i = Some a → t st' !! j = Some b →
        ∃ qa qb, exactly a qa ∧ exactly b qb ∧ (qa < qb)%Q)) ∧
    ((Z.of_nat n ≤ 2 ^ 50)%Z →
     ∀ i j a b qa qb, i < j → t st' !! i = Some a → t st' !! j = Some b →
       exactly a qa → exactly b qb → (qa < qb)%Q) ∧
    (exactly (tmax_in / dt_in + 1)%float (qtmax / qdt + 1)%Q →
     (∀ i, i < n →
        exactly (dt_in * of_size_t i)%float (inject_Z (Z.of_nat i) * qdt)) →
     grid_as_specified dt_in tmax_in (t st')).
Proof.
  intros Hdt Htmax Hpos Hnn Hn.
  destruct (SetTime_Some st _ _ _ Hn) as (st' & E & _ & _ & Hc & Ht & _).
  assert (length (t st') = n) as Hlen.
  { by rewrite Ht, length_imap, length_resize. }
  assert (∀ i, i < n → t st' !! i = Some (dt_in * of_size_t i)%float) as Hi.
  { intros i Hi. apply (SetTime_lookup st dt_in tmax_in); [done|lia]. }
  assert (0 < n → t st' !! 0 = Some 0%float) as H0.
  { intros H. by rewrite Hi, (mul_zero_pos _ _ Hdt Hpos). }
  assert (0 <= qtmax / qdt)%Q as Hq.
  { apply Qle_shift_div_l; [done|]. by rewrite Qmult_0_l. }
  assert (exactly (tmax_in / dt_in + 1)%float (qtmax / qdt + 1)%Q →
          Z.of_nat n = (Qfloor (qtmax / qdt) + 1)%Z) as Hfl.
  { intros Hsum. rewrite (to_size_t_floor _ _ _ Hsum)
      by (try done; apply (Qplus_le_compat 0 _ 0); done).
    apply Qfloor_plus_1. }
  assert ((∀ i, i < n →
             exactly (dt_in * of_size_t i)%float
                     (inject_Z (Z.of_nat i) * qdt)) →
          (∀ i a, t st' !! i = Some a →
             exactly a (inject_Z (Z.of_nat i) * qdt)) ∧
          (∀ i j a b, i < j → t st' !! i = Some a → t st' !! j = Some b →
             ∃ qa qb, exactly a qa ∧ exactly b qb ∧ (qa < qb)%Q)) as Hex.
  { intros Hprod. split.
    - intros i a Ha. assert (i < n) as Hlt.
      { rewrite <- Hlen. by apply lookup_lt_Some in Ha. }
      rewrite Hi in Ha by done. injection Ha as <-. by apply Hprod.
    - intros i j a b Hij Ha Hb.
      assert (j < n) as Hj by (rewrite <- Hlen; by apply lookup_lt_Some in Hb).
      rewrite Hi in Ha, Hb by lia. injection Ha as <-. injection Hb as <-.
      eexists _, _. split; [apply Hprod; lia|]. split; [by apply Hprod|].
      apply Qmult_lt_compat_r; [done|]. rewrite <- Zlt_Qlt. lia. }
  assert ((Z.of_nat n ≤ 2 ^ 50)%Z →
          ∀ i j a b qa qb, i < j →
            t st' !! i = Some a → t st' !! j = Some b →
            exactly a qa → exactly b qb → (qa < qb)%Q) as Hmono.
  { intros Hsmall i j a b qa qb Hij Ha Hb (qa' & Hqa & Ea) (qb' & Hqb & Eb).
    assert (j < n) as Hj by (rewrite <- Hlen; by apply lookup_lt_Some in Hb).
    rewrite Hi in Ha, Hb by lia. injection Ha as <-. injection Hb as <-.
    rewrite <- Ea, <- Eb.
    apply (products_increasing dt_in qdt i j); try done. lia. }
  exists st'. do 6 (split; [done|]). do 2 (split; [done|]).
  intros Hsum Hprod. destruct (Hex Hprod) as [Hval Hinc].
  exists qdt, qtmax. do 2 (split; [done|]).
  split; [by rewrite Hlen; apply Hfl|]. split; [|done].
  apply H0. apply Qfloor_resp_le in Hq.
  change (Qfloor 0) with 0%Z in Hq. specialize (Hfl Hsum). lia.
Qed.

Lemma SetICs_Returned st x0 y0 :
  length x0 = length y0 →
  SetICs st x0 y0 =
    (mkDsys (dt st) (tmax st) (t_count st) (t st) (t_set st) true
       ((if t_set st then resized (t_count st + 1) else id) <$>
          imap (λ n p, mkParticle (<[0 := x0 !!! n]> (resize 1 (x p)))
                                  (<[0 := y0 !!! n]> (resize 1 (y p))))
               (vector_resize (length x0) (parts st)))
       (u st) (v st), Returned).
Proof.
  intros H. unfold SetICs. case_decide; [done|]. simpl.
  destruct (t_set st); simpl; [done|]. by rewrite list_fmap_id.
Qed.

Lemma SetICs_throws st x0 y0 :
  length x0 ≠ length y0 →
  SetICs st x0 y0 = (st, Threw (invalid_argument "Mismatched IC Vectors")).
Proof. intros H. unfold SetICs. by case_decide. Qed.

(** C4. SetICs with vectors of different sizes throws [invalid_argument]
    and leaves the object as it was; with vectors of equal sizes it
    returns. *)
Theorem SetICs_mismatch st x0 y0 :
  (length x0 ≠ length y0 →
     SetICs st x0 y0
     = (st, Threw (invalid_argument "Mismatched IC Vectors"))) ∧
  (length x0 = length y0 → (SetICs st x0 y0).2 = Returned).
Proof.
  split; [apply SetICs_throws|]. intros H. by rewrite SetICs_Returned.
Qed.

Lemma resize_1_insert vec a : <[0 := a]> (resize 1 vec) = [a].
Proof.
  pose proof (length_resize 1 vec) as H.
  by destruct (resize 1 vec) as [|b [|c l]].
Qed.

(** The particles SetICs creates, given only the initial conditions and
    the state of the time grid. *)
Lemma SetICs_parts st x0 y0 :
  length x0 = length y0 →
  parts (SetICs st x0 y0).1 =
    (if t_set st then resized (t_count st + 1) else id) <$>
      zip_with (λ a b, mkParticle [a] [b]) x0 y0.
Proof.
  intros H. rewrite SetICs_Returned by done. simpl. f_equal.
  apply list_eq. intros i. rewrite list_lookup_imap, lookup_zip_with.
  destruct (decide (i < length x0)) as [Hi|Hi].
  - destruct (lookup_lt_is_Some_2 (vector_resize (length x0) (parts st)) i)
      as [p ->]; [by rewrite length_vector_resize|].
    destruct (lookup_lt_is_Some_2 x0 i) as [a Ha]; [done|].
    destruct (lookup_lt_is_Some_2 y0 i) as [b Hb]; [lia|].
    rewrite Ha, Hb. simpl. rewrite !resize_1_insert.
    by rewrite (list_lookup_total_correct _ _ _ Ha),
               (list_lookup_total_correct _ _ _ Hb).
  - rewrite (lookup_ge_None_2 (vector_resize _ _))
      by (rewrite length_vector_resize; lia).
    by rewrite (lookup_ge_None_2 x0) by lia.
Qed.

(** C9. After a successful SetICs the store holds exactly [length x0]
    particles, particle [n] starts at [(x0[n], y0[n])], its vectors have one
    entry (or [t_count + 1] when the time grid is set), every entry past the
    first is uninitialised memory, and nothing of the particles held before
    the call remains: the new store is the same whatever the old one was. *)
Theorem SetICs_resets st x0 y0 :
  length x0 = length y0 →
  (SetICs st x0 y0).2 = Returned ∧
  length (parts (SetICs st x0 y0).1) = length x0 ∧
  (∀ n a b, x0 !! n = Some a → y0 !! n = Some b →
     ∃ p, parts (SetICs st x0 y0).1 !! n = Some p ∧
       x p !! 0 = Some a ∧ y p !! 0 = Some b ∧
       length (x p) = (if t_set st then t_count st + 1 else 1) ∧
       length (y p) = (if t_set st then t_count st + 1 else 1) ∧
       (∀ i, 1 ≤ i → i < length (x p) → x p !! i = Some (uninit i)) ∧
       (∀ i, 1 ≤ i → i < length (y p) → y p !! i = Some (uninit i))) ∧
  (∀ old, parts (SetICs (with_parts st old) x0 y0).1
          = parts (SetICs st x0 y0).1).
Proof.
  intros H. split; [by rewrite SetICs_Returned|].
  rewrite SetICs_parts by done. split; [|split].
  - rewrite length_fmap, length_zip_with. lia.
  - intros n a b Ha Hb. rewrite list_lookup_fmap, lookup_zip_with, Ha, Hb.
    simpl. eexists. split; [done|]. destruct (t_set st); simpl.
    + rewrite !length_conservativeResize.
      rewrite !lookup_conservativeResize_old by (simpl; lia).
      repeat split; try done; intros i Hi Hlt;
        apply lookup_conservativeResize_new; simpl; lia.
    + repeat split; try done; simpl; intros; lia.
  - intros old. by rewrite SetICs_parts.
Qed.

(** C8 (as amended). A call of SetTime made when initial conditions are
    set, with a step size and an end time whose count [tmax / dt + 1] has a
    defined conversion (as it has for finite [dt > 0] and [tmax >= 0]
    unless the count is infinite or larger than any [std::size_t], see
    [SetTime_defined]), keeps every particle, gives its two vectors
    [t_count + 1] entries for the new [t_count], and leaves the entries
    below both the old and the new size unchanged. When the count
    overflows the call is undefined and nothing is promised. *)
Theorem SetTime_keeps_leading st dt_in tmax_in n :
  ic_set st = true →
  to_size_t (tmax_in / dt_in + 1)%float = Some n →
  ∃ st', SetTime st dt_in tmax_in = Some st' ∧ t_count st' = n ∧
    length (parts st') = length (parts st) ∧
    ∀ k p, parts st !! k = Some p →
      ∃ p', parts st' !! k = Some p' ∧
        length (x p') = n + 1 ∧ length (y p') = n + 1 ∧
        (∀ i, i < length (x p) `min` (n + 1) → x p' !! i = x p !! i) ∧
        (∀ i, i < length (y p) `min` (n + 1) → y p' !! i = y p !! i).
Proof.
  intros Hic Hn.
  destruct (SetTime_Some st _ _ _ Hn)
    as (st' & E & _ & _ & Hc & _ & _ & _ & Hp & _).
  rewrite Hic in Hp. exists st'. split; [done|]. split; [done|].
  rewrite Hp, length_fmap. split; [done|].
  intros k p Hk. exists (resized (n + 1) p).
  rewrite list_lookup_fmap, Hk. split; [done|]. simpl.
  rewrite !length_conservativeResize. repeat split; try done;
    intros i Hi; apply lookup_conservativeResize_old; lia.
Qed.

(** ** Explicit Euler *)

Lemma vec_read_Some vec i : i < length vec → vec_read vec i = Some (vec !!! i).
Proof.
  intros H. unfold vec_read. destruct (lookup_lt_is_Some_2 vec i H) as [a Ha].
  by rewrite (list_lookup_total_correct _ _ _ Ha).
Qed.

Lemma vec_write_Some vec i d :
  i < length vec → vec_write vec i d = Some (<[i := d]> vec).
Proof. intros H. unfold vec_write. by case_decide. Qed.

Lemma EE_body_Some st i n p :
  parts st !! n = Some p → i < length (t st) →
  i + 1 < length (x p) → i + 1 < length (y p) →
  EE_body i n st
  = Some (with_parts st (<[n := euler_update st i p]> (parts st))).
Proof.
  intros Hp Ht Hx Hy. unfold EE_body. rewrite Hp. simpl.
  rewrite !vec_read_Some by lia. simpl.
  rewrite !vec_write_Some by lia. done.
Qed.

Lemma vec_read_is_Some vec i : is_Some (vec_read vec i) ↔ i < length vec.
Proof. unfold vec_read. apply lookup_lt_is_Some. Qed.

Lemma vec_write_is_Some vec i d : is_Some (vec_write vec i d) ↔ i < length vec.
Proof.
  unfold vec_write. case_decide.
  - split; [done|eauto].
  - split; [by intros [? ?]|lia].
Qed.

(** The accesses of one pass through the body of MarchEE: the particle
    [n], the time vector at [i], and the two position vectors at [i] (read)
    and [i + 1] (written). The body is defined exactly when they are all in
    range. *)
Lemma EE_body_accesses i n st :
  is_Some (EE_body i n st) ↔
  ∃ p, parts st !! n = Some p ∧ i < length (t st) ∧
       i + 1 < length (x p) ∧ i + 1 < length (y p).
Proof.
  split.
  - intros [s E]. unfold EE_body in E.
    destruct (parts st !! n) as [p|] eqn:Hp; [|done]. simpl in E.
    destruct (vec_read (t st) i) as [t_i|] eqn:Ht; [|done]. simpl in E.
    destruct (vec_read (x p) i) as [x_i|] eqn:Hx; [|done]. simpl in E.
    destruct (vec_read (y p) i) as [y_i|] eqn:Hy; [|done]. simpl in E.
    destruct (vec_write (x p) _ _) as [x'|] eqn:Hx'; [|done]. simpl in E.
    destruct (vec_write (y p) _ _) as [y'|] eqn:Hy'; [|done].
    exists p. split; [done|].
    split; [by apply vec_read_is_Some; eauto|].
    split; eapply vec_write_is_Some; eauto.
  - intros (p & Hp & Ht & Hx & Hy). by rewrite (EE_body_Some st i n p).
Qed.

Lemma euler_upto_0 st p : euler_upto st 0 p p.
Proof. repeat split; try done; lia. Qed.

Lemma euler_update_upto st k p0 p :
  euler_upto st k p0 p → k + 1 < length (x p) → k + 1 < length (y p) →
  euler_upto st (S k) p0 (euler_update st k p).
Proof.
  intros (Hlx & Hly & Hrec & Hfr) Hx Hy. unfold euler_update, euler_upto.
  simpl. rewrite !length_insert. split; [done|]. split; [done|]. split.
  - intros i Hi. destruct (decide (i = k)) as [->|Hne].
    + rewrite !list_lookup_total_insert_eq by lia.
      by rewrite !list_lookup_total_insert_ne by lia.
    + rewrite !list_lookup_total_insert_ne by lia. apply Hrec. lia.
  - intros j Hj. rewrite !list_lookup_insert_ne by lia. apply Hfr. lia.
Qed.

Lemma with_parts_again st s ps :
  s = with_parts st (parts s) →
  with_parts s ps = with_parts st (parts (with_parts s ps)).
Proof. by intros ->. Qed.

Lemma ready_lengths st n p :
  ready st → parts st !! n = Some p →
  length (x p) = t_count st + 1 ∧ length (y p) = t_count st + 1.
Proof.
  intros (_ & _ & _ & H) Hp. by apply (Forall_lookup_1 _ _ _ _ H Hp).
Qed.

Lemma EE_step_advanced st k s :
  ready st → k < t_count st →
  advanced st (λ _, k) s →
  ∃ s', EE_step k s = Some s' ∧ advanced st (λ _, S k) s'.
Proof.
  intros Hr Hk (Hs & Hlen & Hrel). unfold EE_step.
  destruct (for_loop_inv
    (λ m a, advanced st (λ n, if decide (n < m) then S k else k) a)
    (EE_body k) (length (parts s)) s) as (s' & E & Hs').
  - split; [done|]. split; [done|]. intros n p0 p H0 Hp.
    rewrite decide_False by lia. apply (Hrel n p0 p H0 Hp).
  - intros m a Hm (Ha & Hla & Hra).
    destruct (lookup_lt_is_Some_2 (parts a) m) as [p Hp]; [lia|].
    destruct (lookup_lt_is_Some_2 (parts st) m) as [p0 Hp0]; [lia|].
    pose proof (Hra m p0 p Hp0 Hp) as Hrel_m.
    rewrite decide_False in Hrel_m by lia.
    destruct (ready_lengths st m p0 Hr Hp0) as [Hx0 Hy0].
    destruct Hr as (_ & _ & Ht & _).
    pose proof Hrel_m as (Hlx & Hly & _).
    assert (t a = t st ∧ dt a = dt st ∧ u a = u st ∧ v a = v st)
      as (Hta & Hda & Hua & Hva) by (by rewrite Ha).
    eexists. split.
    { apply EE_body_Some; [done|rewrite Hta; lia|lia|lia]. }
    split; [by apply with_parts_again|]. simpl. rewrite length_insert.
    split; [done|].
    intros n q0 q Hq0 Hq. destruct (decide (n = m)) as [->|Hne].
    + rewrite list_lookup_insert_eq in Hq by lia. injection Hq as <-.
      rewrite decide_True by lia. rewrite Hp0 in Hq0. injection Hq0 as <-.
      assert (euler_update a k p = euler_update st k p) as ->.
      { unfold euler_update. by rewrite Hta, Hda, Hua, Hva. }
      apply euler_update_upto; [done|lia|lia].
    + rewrite list_lookup_insert_ne in Hq by done.
      pose proof (Hra n q0 q Hq0 Hq) as Hn.
      destruct (decide (n < m)), (decide (n < S m)); try lia; done.
  - exists s'. split; [done|]. destruct Hs' as (H1 & H2 & H3).
    split; [done|]. split; [lia|]. intros n p0 p Hp0 Hp.
    pose proof (H3 n p0 p Hp0 Hp) as Hn.
    rewrite decide_True in Hn; [done|].
    apply lookup_lt_Some in Hp0. lia.
Qed.

Lemma MarchEE_upto_advanced st k :
  ready st → k ≤ t_count st →
  ∃ sk, MarchEE_upto k st = Some sk ∧ advanced st (λ _, k) sk.
Proof.
  intros Hr Hk. unfold MarchEE_upto.
  apply (for_loop_inv (λ j a, advanced st (λ _, j) a)).
  - split; [by destruct st|]. split; [done|].
    intros n p0 p Hp0 Hp. rewrite Hp0 in Hp. injection Hp as <-.
    apply euler_upto_0.
  - intros j a Hj Ha. apply EE_step_advanced; [done|lia|done].
Qed.

(** C1. On a ready object MarchEE completes, and so does every prefix of
    its outer loop. After the first [k] iterations of the outer loop
    ([k = t_count] for the whole call) only the particles' position vectors
    have changed, and for every particle [n]: the vectors still have
    [t_count + 1] entries; for every time index [i < k],
    [x[n][i+1] = x[n][i] + dt * u(t[i], x[n][i], y[n][i])] and
    [y[n][i+1] = y[n][i] + dt * v(t[i], x[n][i], y[n][i])]; entry [0] and
    the entries past [k] are untouched. So time step [i] is complete for all
    particles, and step [i + 1] begun for none, when iteration [i] of the
    outer loop ends. *)
Theorem MarchEE_euler st k :
  ready st → k ≤ t_count st →
  ∃ sk, MarchEE_upto k st = Some sk ∧
    (k = t_count st → MarchEE st = Some sk) ∧
    sk = with_parts st (parts sk) ∧
    length (parts sk) = length (parts st) ∧
    ∀ n p0 p, parts st !! n = Some p0 → parts sk !! n = Some p →
      length (x p) = t_count st + 1 ∧ length (y p) = t_count st + 1 ∧
      (∀ i, i < k →
         let u_n := u st (t st !!! i) (x p !!! i) (y p !!! i) in
         let v_n := v st (t st !!! i) (x p !!! i) (y p !!! i) in
         x p !!! (i + 1) = (x p !!! i + dt st * u_n)%float ∧
         y p !!! (i + 1) = (y p !!! i + dt st * v_n)%float) ∧
      (∀ j, j = 0 ∨ k < j → x p !! j = x p0 !! j ∧ y p !! j = y p0 !! j).
Proof.
  intros Hr Hk.
  destruct (MarchEE_upto_advanced st k Hr Hk) as (sk & E & Hs & Hlen & Hrel).
  exists sk. split; [done|]. split; [by intros ->|].
  split; [done|]. split; [done|].
  intros n p0 p Hp0 Hp. destruct (Hrel n p0 p Hp0 Hp) as (Hx & Hy & Hrec & Hfr).
  destruct (ready_lengths st n p0 Hr Hp0) as [Hx0 Hy0].
  rewrite Hx, Hy. done.
Qed.

(** ** Adams-Bashforth *)

Lemma AB_body_Some i n s p :
  parts (ab_obj s) !! n = Some p → i < length (t (ab_obj s)) →
  i + 1 < length (x p) → i + 1 < length (y p) →
  n < length (u_nm1 s) → n < length (v_nm1 s) →
  AB_body i n s
  = Some (mkAB
      (with_parts (ab_obj s)
         (<[n := ab2_update (ab_obj s) i p (u_nm1 s !!! n) (v_nm1 s !!! n)]>
            (parts (ab_obj s))))
      (<[n := vel_u (ab_obj s) p i]> (u_nm1 s))
      (<[n := vel_v (ab_obj s) p i]> (v_nm1 s))).
Proof.
  intros Hp Ht Hx Hy Hu Hv. unfold AB_body, ab2_update. rewrite Hp. simpl.
  rewrite !vec_read_Some by lia. simpl.
  destruct (decide (i = 0)) as [->|Hi]; simpl.
  - rewrite !vec_write_Some by lia. done.
  - rewrite !vec_write_Some by lia. done.
Qed.

(** The accesses of one pass through the body of MarchAB: those of
    MarchEE, and the two cache vectors at [n]. *)
Lemma AB_body_accesses i n s :
  is_Some (AB_body i n s) ↔
  ∃ p, parts (ab_obj s) !! n = Some p ∧ i < length (t (ab_obj s)) ∧
       i + 1 < length (x p) ∧ i + 1 < length (y p) ∧
       n < length (u_nm1 s) ∧ n < length (v_nm1 s).
Proof.
  split.
  - intros [s' E]. unfold AB_body in E.
    destruct (parts (ab_obj s) !! n) as [p|] eqn:Hp; [|done]. simpl in E.
    destruct (vec_read (t (ab_obj s)) i) as [t_i|] eqn:Ht; [|done].
    simpl in E.
    destruct (vec_read (x p) i) as [x_i|] eqn:Hx; [|done]. simpl in E.
    destruct (vec_read (y p) i) as [y_i|] eqn:Hy; [|done]. simpl in E.
    exists p. split; [done|].
    split; [by apply vec_read_is_Some; eauto|].
    destruct (decide (i = 0)) as [->|Hi]; simpl in E.
    + destruct (vec_write (x p) _ _) as [x'|] eqn:Hx'; [|done]. simpl in E.
      destruct (vec_write (y p) _ _) as [y'|] eqn:Hy'; [|done]. simpl in E.
      destruct (vec_write (u_nm1 s) _ _) as [u'|] eqn:Hu'; [|done]. simpl in E.
      destruct (vec_write (v_nm1 s) _ _) as [v'|] eqn:Hv'; [|done].
      repeat split; eapply vec_write_is_Some; eauto.
    + destruct (vec_read (u_nm1 s) n) as [up|] eqn:Hu; [|done]. simpl in E.
      destruct (vec_write (x p) _ _) as [x'|] eqn:Hx'; [|done]. simpl in E.
      destruct (vec_read (v_nm1 s) n) as [vp|] eqn:Hv; [|done]. simpl in E.
      destruct (vec_write (y p) _ _) as [y'|] eqn:Hy'; [|done]. simpl in E.
      destruct (vec_write (u_nm1 s) _ _) as [u'|] eqn:Hu'; [|done]. simpl in E.
      destruct (vec_write (v_nm1 s) _ _) as [v'|] eqn:Hv'; [|done].
      repeat split; eapply vec_write_is_Some; eauto.
  - intros (p & Hp & Ht & Hx & Hy & Hu & Hv).
    by rewrite (AB_body_Some i n s p).
Qed.

Lemma ab2_upto_0 st p : ab2_upto st 0 p p.
Proof. repeat split; try done; lia. Qed.

Lemma ab2_update_upto st k p0 p :
  ab2_upto st k p0 p → k + 1 < length (x p) → k + 1 < length (y p) →
  ab2_upto st (S k) p0
    (ab2_update st k p (vel_u st p (k - 1)) (vel_v st p (k - 1))).
Proof.
  intros (Hlx & Hly & Hfst & Hrec & Hfr) Hx Hy.
  unfold ab2_update, euler_update, ab2_upto, vel_u, vel_v in *.
  destruct (decide (k = 0)) as [->|Hk]; simpl; rewrite !length_insert.
  - split; [done|]. split; [done|]. split; [|split].
    + intros _. rewrite !list_lookup_total_insert_eq by lia.
      by rewrite !list_lookup_total_insert_ne by lia.
    + intros i Hi Hlt. lia.
    + intros j Hj. rewrite !list_lookup_insert_ne by lia. apply Hfr. lia.
  - split; [done|]. split; [done|]. split; [|split].
    + intros _. rewrite !list_lookup_total_insert_ne by lia. apply Hfst. lia.
    + intros i Hi Hlt. destruct (decide (i = k)) as [->|Hne].
      * rewrite !list_lookup_total_insert_eq by lia.
        by rewrite !list_lookup_total_insert_ne by lia.
      * rewrite !list_lookup_total_insert_ne by lia. apply Hrec; lia.
    + intros j Hj. rewrite !list_lookup_insert_ne by lia. apply Hfr. lia.
Qed.

Lemma vel_update st k p u_prev v_prev :
  vel_u st (ab2_update st k p u_prev v_prev) k = vel_u st p k ∧
  vel_v st (ab2_update st k p u_prev v_prev) k = vel_v st p k.
Proof.
  unfold vel_u, vel_v, ab2_update, euler_update.
  destruct (decide (k = 0)); simpl;
    by rewrite !list_lookup_total_insert_ne by lia.
Qed.

Lemma AB_step_advanced st k s :
  ready st → k < t_count st →
  ab_advanced st (λ _, k) s →
  ∃ s', AB_step k s = Some s' ∧ ab_advanced st (λ _, S k) s'.
Proof.
  intros Hr Hk (Hs & Hlen & Hlu & Hlv & Hrel). unfold AB_step.
  destruct (for_loop_inv
    (λ m a, ab_advanced st (λ n, if decide (n < m) then S k else k) a)
    (AB_body k) (length (parts (ab_obj s))) s) as (s' & E & Hs').
  - split; [done|]. do 3 (split; [done|]). intros n p0 p H0 Hp.
    rewrite decide_False by lia. apply (Hrel n p0 p H0 Hp).
  - intros m a Hm (Ha & Hla & Hlua & Hlva & Hra).
    destruct (lookup_lt_is_Some_2 (parts (ab_obj a)) m) as [p Hp]; [lia|].
    destruct (lookup_lt_is_Some_2 (parts st) m) as [p0 Hp0]; [lia|].
    pose proof (Hra m p0 p Hp0 Hp) as [Hrel_m Hcache].
    rewrite decide_False in Hrel_m, Hcache by lia.
    destruct (ready_lengths st m p0 Hr Hp0) as [Hx0 Hy0].
    destruct Hr as (_ & _ & Ht & _).
    pose proof Hrel_m as (Hlx & Hly & _).
    assert (t (ab_obj a) = t st) as Hta by (by rewrite Ha).
    eexists. split.
    { apply AB_body_Some; [done|rewrite Hta; lia|lia..]. }
    simpl. split; [by apply with_parts_again|]. simpl.
    rewrite !length_insert. do 3 (split; [done|]).
    assert (∀ q c d, ab2_update (ab_obj a) k q c d = ab2_update st k q c d)
      as Hupd.
    { intros q c d. unfold ab2_update, euler_update, vel_u, vel_v.
      by rewrite Ha. }
    assert (∀ q i, vel_u (ab_obj a) q i = vel_u st q i ∧
                   vel_v (ab_obj a) q i = vel_v st q i) as Hvel.
    { intros q i. unfold vel_u, vel_v. by rewrite Ha. }
    intros n q0 q Hq0 Hq. destruct (decide (n = m)) as [->|Hne].
    + rewrite list_lookup_insert_eq in Hq by lia. injection Hq as <-.
      rewrite decide_True by lia. rewrite Hp0 in Hq0. injection Hq0 as <-.
      rewrite !list_lookup_total_insert_eq by lia.
      rewrite Hupd. destruct (Hvel p k) as [-> ->].
      replace (S k - 1) with k by lia.
      destruct (vel_update st k p (u_nm1 a !!! m) (v_nm1 a !!! m))
        as [-> ->].
      split; [|done].
      destruct (decide (k = 0)) as [->|Hk0].
      * apply (ab2_update_upto st 0 p0 p); [done|lia|lia].
      * destruct Hcache as [-> ->]; [lia|].
        apply ab2_update_upto; [done|lia|lia].
    + rewrite list_lookup_insert_ne in Hq by done.
      rewrite !list_lookup_total_insert_ne by done.
      pose proof (Hra n q0 q Hq0 Hq) as Hn.
      destruct (decide (n < m)), (decide (n < S m)); try lia; done.
  - exists s'. split; [done|]. destruct Hs' as (H1 & H2 & H3 & H4 & H5).
    split; [done|]. do 3 (split; [lia|]). intros n p0 p Hp0 Hp.
    pose proof (H5 n p0 p Hp0 Hp) as Hn.
    rewrite decide_True in Hn; [done|].
    apply lookup_lt_Some in Hp0. lia.
Qed.

Lemma MarchAB_upto_advanced st k :
  ready st → k ≤ t_count st →
  ∃ sk, MarchAB_upto k st = Some sk ∧ ab_advanced st (λ _, k) sk.
Proof.
  intros Hr Hk. unfold MarchAB_upto.
  apply (for_loop_inv (λ j a, ab_advanced st (λ _, j) a)).
  - split; [by destruct st|]. simpl. rewrite !length_fmap, !length_seq.
    do 3 (split; [done|]).
    intros n p0 p Hp0 Hp. rewrite Hp0 in Hp. injection Hp as <-.
    split; [apply ab2_upto_0|lia].
  - intros j a Hj Ha. apply AB_step_advanced; [done|lia|done].
Qed.

Lemma lookup_total_eq (l k : list float) i :
  l !! i = k !! i → l !!! i = k !!! i.
Proof. intros H. by rewrite !list_lookup_total_alt, H. Qed.

(** C2. On a ready object MarchAB completes, and so does every prefix of
    its outer loop. After the first [k] iterations ([k = t_count] for the
    whole call), for every particle [n]: the step at time index [0] is the
    Explicit Euler step, and leaves at index [1] the very values MarchEE
    leaves there on the same object; for every time index [1 <= i < k],
    [x[n][i+1] = x[n][i] + dt * (1.5 * u_n - 0.5 * u_prev[n])] and likewise
    for [y] with [v], where [u_n], [v_n] are the velocities evaluated at
    step [i] and [u_prev[n]], [v_prev[n]] those evaluated at step [i - 1];
    the cache [u_nm1], [v_nm1] holds the velocities of step [k - 1]. *)
Theorem MarchAB_adams_bashforth st k :
  ready st → k ≤ t_count st →
  ∃ sk, MarchAB_upto k st = Some sk ∧
    (k = t_count st → MarchAB st = Some (ab_obj sk)) ∧
    ab_obj sk = with_parts st (parts (ab_obj sk)) ∧
    length (parts (ab_obj sk)) = length (parts st) ∧
    ∀ n p0 p, parts st !! n = Some p0 → parts (ab_obj sk) !! n = Some p →
      length (x p) = t_count st + 1 ∧ length (y p) = t_count st + 1 ∧
      (0 < k →
         x p !!! 1 = (x p0 !!! 0%nat + dt st * vel_u st p0 0)%float ∧
         y p !!! 1 = (y p0 !!! 0%nat + dt st * vel_v st p0 0)%float ∧
         ∀ sE pE, MarchEE st = Some sE → parts sE !! n = Some pE →
           x p !!! 1 = x pE !!! 1 ∧ y p !!! 1 = y pE !!! 1) ∧
      (∀ i, 1 ≤ i → i < k →
         x p !!! (i + 1)
         = (x p !!! i
            + dt st * (1.5 * vel_u st p i - 0.5 * vel_u st p (i - 1)))%float ∧
         y p !!! (i + 1)
         = (y p !!! i
            + dt st * (1.5 * vel_v st p i - 0.5 * vel_v st p (i - 1)))%float) ∧
      (0 < k → u_nm1 sk !!! n = vel_u st p (k - 1) ∧
               v_nm1 sk !!! n = vel_v st p (k - 1)) ∧
      (∀ j, j = 0 ∨ k < j → x p !! j = x p0 !! j ∧ y p !! j = y p0 !! j).
Proof.
  intros Hr Hk.
  destruct (MarchAB_upto_advanced st k Hr Hk)
    as (sk & E & Hs & Hlen & _ & _ & Hrel).
  exists sk. split; [done|]. split.
  { intros ->. unfold MarchAB. unfold MarchAB_upto in E. by rewrite E. }
  split; [done|]. split; [done|].
  intros n p0 p Hp0 Hp.
  destruct (Hrel n p0 p Hp0 Hp) as ((Hx & Hy & Hfst & Hrec & Hfr) & Hcache).
  destruct (ready_lengths st n p0 Hr Hp0) as [Hx0 Hy0].
  rewrite Hx, Hy. do 2 (split; [done|]).
  split; [|done].
  intros Hk0. destruct (Hfst Hk0) as [Hx1 Hy1].
  destruct (Hfr 0) as [Hx00 Hy00]; [by left|].
  apply lookup_total_eq in Hx00, Hy00.
  assert (vel_u st p 0 = vel_u st p0 0 ∧ vel_v st p 0 = vel_v st p0 0)
    as [Hu Hv].
  { unfold vel_u, vel_v. by rewrite Hx00, Hy00. }
  rewrite Hx1, Hy1, Hu, Hv, Hx00, Hy00. do 2 (split; [done|]).
  intros sE pE HE HpE.
  destruct (MarchEE_upto_advanced st (t_count st) Hr) as (sE' & E' & HrelE);
    [done|].
  unfold MarchEE in HE. unfold MarchEE_upto in E'. rewrite HE in E'.
  injection E' as <-. destruct HrelE as (_ & _ & HrelE).
  destruct (HrelE n p0 pE Hp0 HpE) as (_ & _ & HrecE & HfrE).
  destruct (HrecE 0) as [HxE HyE]; [lia|]. simpl in HxE, HyE.
  destruct (HfrE 0) as [HxE0 HyE0]; [by left|].
  apply lookup_total_eq in HxE0, HyE0.
  rewrite HxE, HyE, HxE0, HyE0. done.
Qed.

(** The first iteration of MarchAB's outer loop leaves the object exactly
    as the first iteration of MarchEE's does. *)
Lemma MarchAB_first_step st :
  ready st → 0 < t_count st →
  ∃ s1, MarchAB_upto 1 st = Some s1 ∧ MarchEE_upto 1 st = Some (ab_obj s1).
Proof.
  intros Hr Hk.
  destruct (MarchAB_upto_advanced st 1 Hr) as (sA & EA & HsA & HlA & _ & _ & HA);
    [lia|].
  destruct (MarchEE_upto_advanced st 1 Hr) as (sE & EE & HsE & HlE & HE);
    [lia|].
  exists sA. split; [done|]. rewrite EE. f_equal.
  rewrite HsA, HsE. f_equal. apply list_eq_same_length with (length (parts st));
    [done..|].
  intros n pE pA Hn HpE HpA.
  destruct (lookup_lt_is_Some_2 (parts st) n Hn) as [p0 Hp0].
  destruct (HA n p0 pA Hp0 HpA) as ((HxA & HyA & HfA & _ & HfrA) & _).
  destruct (HE n p0 pE Hp0 HpE) as (HxE & HyE & HrE & HfrE).
  destruct (HfA ltac:(lia)) as [HxA1 HyA1].
  destruct (HrE 0 ltac:(lia)) as [HxE1 HyE1]. simpl in HxE1, HyE1.
  destruct (HfrA 0) as [HxA0 HyA0]; [by left|].
  destruct (HfrE 0) as [HxE0 HyE0]; [by left|].
  assert (x pE !!! 0 = x pA !!! 0 ∧ y pE !!! 0 = y pA !!! 0) as [Hx0 Hy0].
  { split; apply lookup_total_eq; congruence. }
  unfold vel_u, vel_v in *.
  destruct pE as [xE yE], pA as [xA yA]. simpl in *. f_equal.
  - apply list_eq_same_length with (length (x p0)); [done..|].
    intros j a b Hj Ha Hb. destruct (decide (j = 1)) as [->|Hne].
    + apply list_lookup_total_correct in Ha, Hb. rewrite <- Ha, <- Hb.
      rewrite HxE1, HxA1. by rewrite Hx0, Hy0.
    + destruct (HfrA j) as [H1 _]; [lia|]. destruct (HfrE j) as [H2 _]; [lia|].
      congruence.
  - apply list_eq_same_length with (length (y p0)); [done..|].
    intros j a b Hj Ha Hb. destruct (decide (j = 1)) as [->|Hne].
    + apply list_lookup_total_correct in Ha, Hb. rewrite <- Ha, <- Hb.
      rewrite HyE1, HyA1. by rewrite Hx0, Hy0.
    + destruct (HfrA j) as [_ H1]; [lia|]. destruct (HfrE j) as [_ H2]; [lia|].
      congruence.
Qed.

(** C10. On an object for which both configuration calls have completed
    (a time vector of [t_count] entries, position vectors of [t_count + 1])
    neither MarchEE nor MarchAB ever reads or writes outside a vector: both
    run to completion, the vectors keep their sizes, and entry [0] of every
    position vector, which is only read, keeps its value. (A pass of the
    loop body at time index [i] reads at [i] and writes at [i + 1], see
    [EE_body_accesses] and [AB_body_accesses]; [i] runs from [0] to
    [t_count - 1].) *)
Theorem March_in_bounds st :
  ready st →
  (∃ sE, MarchEE st = Some sE ∧ ready sE ∧
     ∀ n p0 p, parts st !! n = Some p0 → parts sE !! n = Some p →
       x p !! 0 = x p0 !! 0 ∧ y p !! 0 = y p0 !! 0) ∧
  (∃ sA, MarchAB st = Some sA ∧ ready sA ∧
     ∀ n p0 p, parts st !! n = Some p0 → parts sA !! n = Some p →
       x p !! 0 = x p0 !! 0 ∧ y p !! 0 = y p0 !! 0).
Proof.
  intros Hr. split.
  - destruct (MarchEE_upto_advanced st (t_count st) Hr)
      as (sE & E & Hs & Hlen & Hrel); [done|].
    exists sE. split; [done|]. split.
    + destruct Hr as (Ht & Hic & Hlt & Hall). rewrite Hs.
      do 3 (split; [done|]). simpl. apply Forall_lookup_2. intros n p Hp.
      destruct (lookup_lt_is_Some_2 (parts st) n) as [p0 Hp0].
      { rewrite <- Hlen. by apply lookup_lt_Some in Hp. }
      destruct (Hrel n p0 p Hp0 Hp) as (-> & -> & _).
      by apply (Forall_lookup_1 _ _ _ _ Hall Hp0).
    + intros n p0 p Hp0 Hp.
      destruct (Hrel n p0 p Hp0 Hp) as (_ & _ & _ & Hfr). apply Hfr. by left.
  - destruct (MarchAB_upto_advanced st (t_count st) Hr)
      as (sA & E & Hs & Hlen & _ & _ & Hrel); [done|].
    exists (ab_obj sA). split.
    { unfold MarchAB. unfold MarchAB_upto in E. by rewrite E. }
    split.
    + destruct Hr as (Ht & Hic & Hlt & Hall). rewrite Hs.
      do 3 (split; [done|]). simpl. apply Forall_lookup_2. intros n p Hp.
      destruct (lookup_lt_is_Some_2 (parts st) n) as [p0 Hp0].
      { rewrite <- Hlen. by apply lookup_lt_Some in Hp. }
      destruct (Hrel n p0 p Hp0 Hp) as ((-> & -> & _) & _).
      by apply (Forall_lookup_1 _ _ _ _ Hall Hp0).
    + intros n p0 p Hp0 Hp.
      destruct (Hrel n p0 p Hp0 Hp) as ((_ & _ & _ & _ & Hfr) & _).
      apply Hfr. by left.
Qed.

(** ** Reaching a ready object *)

Lemma SetTime_ready st dt_in tmax_in st' :
  ic_set st = true → SetTime st dt_in tmax_in = Some st' → ready st'.
Proof.
  intros Hic E. unfold SetTime in E.
  destruct (to_size_t _) as [n|] eqn:Hn; [|done].
  destruct (SetTime_Some st _ _ _ Hn)
    as (s2 & E2 & _ & _ & Hc & Ht & Hts & Hics & Hp & _).
  unfold SetTime in E2. rewrite Hn in E2. rewrite E2 in E. injection E as <-.
  split; [done|]. split; [congruence|]. split.
  - by rewrite Ht, length_imap, length_resize.
  - rewrite Hp, Hic, Hc. apply Forall_fmap, Forall_true. intros p. simpl.
    by rewrite !length_conservativeResize.
Qed.

Lemma SetICs_ready st x0 y0 :
  t_set st = true → length (t st) = t_count st →
  length x0 = length y0 → ready (SetICs st x0 y0).1.
Proof.
  intros Hts Ht H. pose proof (SetICs_parts st x0 y0 H) as Hp.
  rewrite SetICs_Returned in * by done. simpl in *. rewrite Hts in *.
  split; [done|]. split; [done|]. split; [done|]. simpl. rewrite Hp.
  apply Forall_fmap, Forall_true. intros p. simpl.
  by rewrite !length_conservativeResize.
Qed.

Lemma new_Dsys_Anal_ready dt_in tmax_in x0 y0 u_in v_in st :
  new_Dsys_Anal dt_in tmax_in x0 y0 u_in v_in = Some (st, Returned) →
  ready st.
Proof.
  unfold new_Dsys_Anal. destruct (SetTime blank _ _) as [st1|] eqn:E1; [|done].
  simpl. unfold SetTime in E1.
  destruct (to_size_t _) as [n|] eqn:Hn; [|done].
  destruct (SetTime_Some blank _ _ _ Hn)
    as (s2 & E2 & _ & _ & Hc & Ht & Hts & _).
  unfold SetTime in E2. rewrite Hn in E2. rewrite E2 in E1. injection E1 as <-.
  destruct (decide (length x0 = length y0)) as [H|H].
  - pose proof (SetICs_ready s2 x0 y0 Hts) as Hr.
    rewrite SetICs_Returned in * by done. simpl in *. intros [= <-].
    destruct Hr as (H1 & H2 & H3 & H4); [|done|done].
    by rewrite Ht, length_imap, length_resize.
  - by rewrite SetICs_throws.
Qed.

(** ** PrintTraj *)

Lemma particle_at_valid st n :
  valid_index st n → ∃ p, particle_at st n = Some p ∧
                          parts st !! Z.to_nat n = Some p.
Proof.
  intros [H0 H1]. unfold particle_at. rewrite decide_True by done.
  destruct (lookup_lt_is_Some_2 (parts st) (Z.to_nat n)) as [p Hp]; [lia|].
  eauto.
Qed.

Lemma particle_at_invalid st n :
  ¬ valid_index st n → particle_at st n = None.
Proof.
  intros H. unfold particle_at, valid_index in *. case_decide; [|done].
  apply lookup_ge_None_2. lia.
Qed.

Lemma print_rows_valid st n p i count out :
  particle_at st n = Some p →
  i + count ≤ length (t st) → i + count ≤ length (x p) →
  i + count ≤ length (y p) →
  print_rows st n i count out
  = (out ++ ((λ j, row (t st !!! j) (x p !!! j) (y p !!! j)) <$> seq i count),
     Returned).
Proof.
  intros Hp. revert i out. induction count as [|c IH]; intros i out Ht Hx Hy.
  - simpl. by rewrite app_nil_r.
  - simpl. unfold print_row. rewrite Hp. simpl.
    rewrite !vec_read_Some by lia. simpl.
    rewrite IH by lia. by rewrite <- app_assoc.
Qed.

Lemma print_rows_invalid st n i count out :
  particle_at st n = None →
  print_rows st n i count out
  = (out, if decide (count = 0) then Returned else Undefined).
Proof.
  intros Hp. destruct count as [|c]; [done|].
  simpl. unfold print_row. rewrite Hp.
  by destruct (vec_read (t st) i).
Qed.

(** C5 (as amended). For a valid particle index on a ready object
    PrintTraj prints the header line and then one row per time index
    [i < t_count] with [t[i]], [x[n][i]], [y[n][i]], and returns. For an
    index that is not valid no exception is raised: the header line is
    printed all the same, and the first row makes an unchecked access
    outside [parts] (undefined behaviour); only when there is no time point
    does the call return, having printed the header alone. *)
Theorem PrintTraj_lines st n out :
  (ready st → valid_index st n →
     ∃ p, parts st !! Z.to_nat n = Some p ∧
       PrintTraj st n out
       = (out ++ header "     t     x     y"
              :: ((λ i, row (t st !!! i) (x p !!! i) (y p !!! i))
                    <$> seq 0 (t_count st)),
          Returned)) ∧
  (¬ valid_index st n →
     PrintTraj st n out
     = (out ++ [header "     t     x     y"],
        if decide (t_count st = 0) then Returned else Undefined)).
Proof.
  split.
  - intros Hr Hn. destruct (particle_at_valid st n Hn) as (p & Hp & Hl).
    exists p. split; [done|]. unfold PrintTraj.
    destruct (ready_lengths st _ p Hr Hl) as [Hx Hy].
    destruct Hr as (_ & _ & Ht & _).
    rewrite (print_rows_valid st n p) by (try done; lia).
    by rewrite <- app_assoc.
  - intros Hn. unfold PrintTraj.
    by rewrite print_rows_invalid by (by apply particle_at_invalid).
Qed.

(** ** ExportData *)

Lemma insert_end (l : list json) (a b : json) m :
  length l = m → <[m := a]> (l ++ [b]) = l ++ [a].
Proof.
  intros <-. rewrite insert_app_r_alt by lia. by rewrite Nat.sub_diag.
Qed.

Lemma export_document_Some st :
  export_document st = Some (object_document st).
Proof.
  unfold export_document. simpl.
  destruct (for_loop_inv
    (λ m j, j = JObject [("parts"%string,
                          JArray (particle_document <$> take m (parts st)));
                         ("t"%string, of_vector (t st))])
    (export_body st) (length (parts st))
    (JObject [("parts"%string, JArray []); ("t"%string, of_vector (t st))]))
    as (j & E & ->).
  - done.
  - intros m j Hm ->.
    destruct (lookup_lt_is_Some_2 (parts st) m Hm) as [p Hp].
    unfold export_body. rewrite Hp. simpl.
    assert (length (particle_document <$> take m (parts st)) = m) as Hl.
    { rewrite length_fmap, length_take. lia. }
    rewrite Hl. replace (S m - m) with 1 by lia. simpl.
    rewrite list_lookup_total_middle by done. simpl.
    rewrite (insert_end _ _ _ m) by done.
    rewrite length_app, Hl. simpl. replace (m + 1) with (S m) by lia.
    rewrite Nat.sub_diag. simpl. rewrite app_nil_r.
    rewrite list_lookup_total_middle by done. simpl.
    rewrite (insert_end _ _ _ m) by done.
    eexists. split; [done|]. do 3 f_equal.
    by rewrite (take_S_r _ _ _ Hp), fmap_app.
  - rewrite E. by rewrite take_ge.
Qed.

Lemma mapM_fmap_Some_gen {A B C} (f : B → option C) (g : A → B) (h : A → C)
    (l : list A) :
  (∀ a, f (g a) = Some (h a)) → mapM f (g <$> l) = Some (h <$> l).
Proof.
  intros H. apply mapM_Some_2.
  induction l as [|a l IH]; csimpl; constructor; [apply H|apply IH].
Qed.

Lemma as_vector_of_vector vec : as_vector (of_vector vec) = Some vec.
Proof. simpl. by apply mapM_fmap_Some. Qed.

Lemma read_object_document st :
  read_document (object_document st)
  = Some (t st, (λ p, (x p, y p)) <$> parts st).
Proof.
  unfold read_document, object_document. simpl.
  rewrite (mapM_fmap_Some as_number JNumber) by done. simpl.
  rewrite (mapM_fmap_Some_gen as_particle particle_document
             (λ p, (x p, y p))); [done|].
  intros p. unfold as_particle, particle_document. simpl.
  by rewrite !(mapM_fmap_Some as_number JNumber) by done.
Qed.

(** C6 (as amended). ExportData never raises an error. When the path
    cannot be opened for writing the call returns normally and the file
    system is left as it was; when it can, the call returns normally and
    the file system differs only in that the named file now holds the
    document of the object. *)
Theorem ExportData_effect st filename fs :
  (can_open fs filename = false →
     ExportData st filename fs = (fs, Returned)) ∧
  (can_open fs filename = true →
     ExportData st filename fs
     = (mkFs (can_open fs) (<[filename := object_document st]> (files fs)),
        Returned) ∧
     ∀ other, other ≠ filename →
       files (ExportData st filename fs).1 !! other = files fs !! other).
Proof.
  unfold ExportData. rewrite export_document_Some.
  split; intros ->; [done|]. split; [done|].
  intros other Hne. simpl. by rewrite lookup_insert_ne.
Qed.

(** C7. After ExportData to a path that can be opened, on a ready object,
    the file holds a document that reads back as the time vector itself,
    of [t_count] entries, and, particle by particle in the order of the
    store, the two position vectors themselves, of [t_count + 1] entries
    each. *)
Theorem ExportData_roundtrip st filename fs :
  ready st → can_open fs filename = true →
  ∃ j, files (ExportData st filename fs).1 !! filename = Some j ∧
    read_document j = Some (t st, (λ p, (x p, y p)) <$> parts st) ∧
    length (t st) = t_count st ∧
    Forall (λ xy, length xy.1 = t_count st + 1 ∧ length xy.2 = t_count st + 1)
           ((λ p, (x p, y p)) <$> parts st).
Proof.
  intros Hr Hopen. exists (object_document st).
  unfold ExportData. rewrite export_document_Some, Hopen. simpl.
  split; [by rewrite lookup_insert_eq|].
  split; [apply read_object_document|].
  destruct Hr as (_ & _ & Ht & Hall). split; [done|].
  apply Forall_fmap. by apply (Forall_impl _ _ _ Hall).
Qed.

(** ** A march is a function of the initial positions *)

Lemma lookup_Some_total (l : list float) i :
  i < length l → l !! i = Some (l !!! i).
Proof. intros H. by apply list_lookup_lookup_total_lt. Qed.

(** A trajectory of [k] Euler steps held in vectors of [k + 1] entries is
    determined by its first entry. *)
Lemma euler_upto_determined st k p1 p2 q1 q2 :
  euler_upto st k p1 q1 → euler_upto st k p2 q2 →
  length (x p1) = k + 1 → length (y p1) = k + 1 →
  length (x p2) = k + 1 → length (y p2) = k + 1 →
  x p1 !! 0 = x p2 !! 0 → y p1 !! 0 = y p2 !! 0 →
  q1 = q2.
Proof.
  intros (Hx1 & Hy1 & Hr1 & Hf1) (Hx2 & Hy2 & Hr2 & Hf2) Lx1 Ly1 Lx2 Ly2 Ex Ey.
  assert (∀ j, j ≤ k → x q1 !! j = x q2 !! j ∧ y q1 !! j = y q2 !! j) as H.
  { induction j as [|j IH]; intros Hj.
    - destruct (Hf1 0) as [-> ->]; [by left|].
      destruct (Hf2 0) as [-> ->]; [by left|]. done.
    - destruct IH as [IHx IHy]; [lia|].
      apply lookup_total_eq in IHx, IHy.
      destruct (Hr1 j) as [A1 B1]; [lia|]. destruct (Hr2 j) as [A2 B2]; [lia|].
      simpl in *. replace (S j) with (j + 1) by lia.
      rewrite !lookup_Some_total by lia.
      by rewrite A1, A2, B1, B2, IHx, IHy. }
  destruct q1 as [xa ya], q2 as [xb yb]. simpl in *. f_equal.
  - apply list_eq. intros j. destruct (decide (j ≤ k)) as [Hj|Hj].
    + by apply H.
    + by rewrite !lookup_ge_None_2 by lia.
  - apply list_eq. intros j. destruct (decide (j ≤ k)) as [Hj|Hj].
    + by apply H.
    + by rewrite !lookup_ge_None_2 by lia.
Qed.

Lemma euler_upto_fields st st' k p0 p :
  t st' = t st → dt st' = dt st → u st' = u st → v st' = v st →
  euler_upto st' k p0 p → euler_upto st k p0 p.
Proof.
  intros Ht Hd Hu Hv. unfold euler_upto. by rewrite Ht, Hd, Hu, Hv.
Qed.

Lemma same_start_fields st1 st2 :
  same_start st1 st2 →
  t st2 = t st1 ∧ dt st2 = dt st1 ∧ u st2 = u st1 ∧ v st2 = v st1 ∧
  t_count st2 = t_count st1.
Proof. intros (E & _). by rewrite E. Qed.

Lemma MarchEE_same_start st1 st2 :
  ready st1 → ready st2 → same_start st1 st2 →
  ∃ s, MarchEE st1 = Some s ∧ MarchEE st2 = Some s.
Proof.
  intros Hr1 Hr2 Hss.
  destruct (same_start_fields _ _ Hss) as (Ht & Hd & Hu & Hv & Hc).
  destruct Hss as (E & Hl & H0).
  destruct (MarchEE_upto_advanced st1 (t_count st1) Hr1)
    as (s1 & E1 & Hs1 & Hl1 & Hrel1); [done|].
  destruct (MarchEE_upto_advanced st2 (t_count st2) Hr2)
    as (s2 & E2 & Hs2 & Hl2 & Hrel2); [done|].
  exists s1. split; [done|]. change (MarchEE st2) with
    (MarchEE_upto (t_count st2) st2). rewrite E2. f_equal.
  rewrite Hs1, Hs2, E. simpl. unfold with_parts. simpl. f_equal.
  apply list_eq_same_length with (length (parts st1)); [lia..|].
  intros n q2 q1 Hn Hq2 Hq1.
  destruct (lookup_lt_is_Some_2 (parts st1) n Hn) as [p1 Hp1].
  destruct (lookup_lt_is_Some_2 (parts st2) n) as [p2 Hp2]; [lia|].
  destruct (ready_lengths _ _ _ Hr1 Hp1) as [Lx1 Ly1].
  destruct (ready_lengths _ _ _ Hr2 Hp2) as [Lx2 Ly2].
  destruct (H0 n p1 p2 Hp1 Hp2) as [Ex Ey].
  pose proof (Hrel1 n p1 q1 Hp1 Hq1) as A1.
  pose proof (Hrel2 n p2 q2 Hp2 Hq2) as A2. rewrite Hc in A2, Lx2, Ly2.
  apply (euler_upto_fields st1) in A2; [|done..].
  symmetry. by apply (euler_upto_determined st1 (t_count st1) p1 p2).
Qed.

(** A marched object starts where the object it was marched from
    starts. *)
Lemma advanced_same_start st k s :
  advanced st (λ _, k) s → same_start st s.
Proof.
  intros (Hs & Hl & Hrel). split; [done|]. split; [done|].
  intros n p1 p2 Hp1 Hp2. destruct (Hrel n p1 p2 Hp1 Hp2) as (_ & _ & _ & Hf).
  destruct (Hf 0) as [-> ->]; [by left|done].
Qed.

(** The same for a trajectory of [k] steps of MarchAB. *)
Lemma ab2_upto_determined st k p1 p2 q1 q2 :
  ab2_upto st k p1 q1 → ab2_upto st k p2 q2 →
  length (x p1) = k + 1 → length (y p1) = k + 1 →
  length (x p2) = k + 1 → length (y p2) = k + 1 →
  x p1 !! 0 = x p2 !! 0 → y p1 !! 0 = y p2 !! 0 →
  q1 = q2.
Proof.
  intros (Hx1 & Hy1 & Hs1 & Hr1 & Hf1) (Hx2 & Hy2 & Hs2 & Hr2 & Hf2)
    Lx1 Ly1 Lx2 Ly2 Ex Ey.
  assert (∀ j, j ≤ k → ∀ i, i ≤ j →
            x q1 !! i = x q2 !! i ∧ y q1 !! i = y q2 !! i) as H.
  { induction j as [|j IH]; intros Hj i Hi.
    - replace i with 0 by lia.
      destruct (Hf1 0) as [-> ->]; [by left|].
      destruct (Hf2 0) as [-> ->]; [by left|]. done.
    - destruct (decide (i ≤ j)) as [Hle|Hgt]; [apply IH; lia|].
      replace i with (j + 1) by lia.
      rewrite !lookup_Some_total by lia.
      destruct (decide (j = 0)) as [->|Hj0].
      + destruct (IH ltac:(lia) 0 ltac:(lia)) as [IHx IHy].
        apply lookup_total_eq in IHx, IHy.
        destruct (Hs1 ltac:(lia)) as [A1 B1].
        destruct (Hs2 ltac:(lia)) as [A2 B2].
        unfold vel_u, vel_v in *. simpl.
        by rewrite A1, A2, B1, B2, IHx, IHy.
      + destruct (IH ltac:(lia) j ltac:(lia)) as [IHx IHy].
        destruct (IH ltac:(lia) (j - 1) ltac:(lia)) as [IHx' IHy'].
        apply lookup_total_eq in IHx, IHy, IHx', IHy'.
        destruct (Hr1 j) as [A1 B1]; [lia..|].
        destruct (Hr2 j) as [A2 B2]; [lia..|].
        unfold vel_u, vel_v in *.
        by rewrite A1, A2, B1, B2, IHx, IHy, IHx', IHy'. }
  destruct q1 as [xa ya], q2 as [xb yb]. simpl in *. f_equal.
  - apply list_eq. intros j. destruct (decide (j ≤ k)) as [Hj|Hj].
    + by apply (H k).
    + by rewrite !lookup_ge_None_2 by lia.
  - apply list_eq. intros j. destruct (decide (j ≤ k)) as [Hj|Hj].
    + by apply (H k).
    + by rewrite !lookup_ge_None_2 by lia.
Qed.

Lemma ab2_upto_fields st st' k p0 p :
  t st' = t st → dt st' = dt st → u st' = u st → v st' = v st →
  ab2_upto st' k p0 p → ab2_upto st k p0 p.
Proof.
  intros Ht Hd Hu Hv. unfold ab2_upto, vel_u, vel_v.
  by rewrite Ht, Hd, Hu, Hv.
Qed.

Lemma MarchAB_same_start st1 st2 :
  ready st1 → ready st2 → same_start st1 st2 →
  ∃ s, MarchAB st1 = Some s ∧ MarchAB st2 = Some s.
Proof.
  intros Hr1 Hr2 Hss.
  destruct (same_start_fields _ _ Hss) as (Ht & Hd & Hu & Hv & Hc).
  destruct Hss as (E & Hl & H0).
  destruct (MarchAB_upto_advanced st1 (t_count st1) Hr1)
    as (s1 & E1 & Hs1 & Hl1 & _ & _ & Hrel1); [done|].
  destruct (MarchAB_upto_advanced st2 (t_count st2) Hr2)
    as (s2 & E2 & Hs2 & Hl2 & _ & _ & Hrel2); [done|].
  unfold MarchAB. unfold MarchAB_upto in E1, E2. rewrite E1, E2. simpl.
  exists (ab_obj s1). split; [done|]. f_equal.
  rewrite Hs1, Hs2, E. simpl. unfold with_parts. simpl. f_equal.
  apply list_eq_same_length with (length (parts st1)); [lia..|].
  intros n q2 q1 Hn Hq2 Hq1.
  destruct (lookup_lt_is_Some_2 (parts st1) n Hn) as [p1 Hp1].
  destruct (lookup_lt_is_Some_2 (parts st2) n) as [p2 Hp2]; [lia|].
  destruct (ready_lengths _ _ _ Hr1 Hp1) as [Lx1 Ly1].
  destruct (ready_lengths _ _ _ Hr2 Hp2) as [Lx2 Ly2].
  destruct (H0 n p1 p2 Hp1 Hp2) as [Ex Ey].
  destruct (Hrel1 n p1 q1 Hp1 Hq1) as [A1 _].
  destruct (Hrel2 n p2 q2 Hp2 Hq2) as [A2 _]. rewrite Hc in A2, Lx2, Ly2.
  apply (ab2_upto_fields st1) in A2; [|done..].
  symmetry. by apply (ab2_upto_determined st1 (t_count st1) p1 p2).
Qed.

Lemma ab_advanced_same_start st k s :
  ab_advanced st (λ _, k) s → same_start st (ab_obj s).
Proof.
  intros (Hs & Hl & _ & _ & Hrel). split; [done|]. split; [done|].
  intros n p1 p2 Hp1 Hp2.
  destruct (Hrel n p1 p2 Hp1 Hp2) as ((_ & _ & _ & _ & Hf) & _).
  destruct (Hf 0) as [-> ->]; [by left|done].
Qed.

Lemma advanced_ready st k s : ready st → advanced st (λ _, k) s → ready s.
Proof.
  intros Hr (Hs & Hl & Hrel). pose proof Hr as (Ht & Hic & Hlt & Hall).
  rewrite Hs. do 3 (split; [done|]). simpl. apply Forall_lookup_2.
  intros n p Hp.
  destruct (lookup_lt_is_Some_2 (parts st) n) as [p0 Hp0].
  { rewrite <- Hl. by apply lookup_lt_Some in Hp. }
  destruct (Hrel n p0 p Hp0 Hp) as (-> & -> & _).
  by apply (ready_lengths st n).
Qed.

Lemma ab_advanced_ready st k s :
  ready st → ab_advanced st (λ _, k) s → ready (ab_obj s).
Proof.
  intros Hr (Hs & Hl & _ & _ & Hrel). pose proof Hr as (Ht & Hic & Hlt & Hall).
  rewrite Hs. do 3 (split; [done|]). simpl. apply Forall_lookup_2.
  intros n p Hp.
  destruct (lookup_lt_is_Some_2 (parts st) n) as [p0 Hp0].
  { rewrite <- Hl. by apply lookup_lt_Some in Hp. }
  destruct (Hrel n p0 p Hp0 Hp) as ((-> & -> & _) & _).
  by apply (ready_lengths st n).
Qed.

Lemma same_start_refl st : same_start st st.
Proof.
  split; [by destruct st|]. split; [done|].
  intros n p1 p2 H1 H2. rewrite H1 in H2. by injection H2 as <-.
Qed.

Lemma MarchEE_ready st s :
  ready st → MarchEE st = Some s → ready s ∧ same_start st s.
Proof.
  intros Hr E.
  destruct (MarchEE_upto_advanced st (t_count st) Hr) as (s' & E' & Ha);
    [done|].
  change (MarchEE_upto (t_count st) st) with (MarchEE st) in E'.
  rewrite E in E'. injection E' as <-.
  split; [by apply (advanced_ready st (t_count st))|].
  by apply (advanced_same_start st (t_count st)).
Qed.

Lemma MarchAB_ready st s :
  ready st → MarchAB st = Some s → ready s ∧ same_start st s.
Proof.
  intros Hr E.
  destruct (MarchAB_upto_advanced st (t_count st) Hr) as (s' & E' & Ha);
    [done|].
  unfold MarchAB in E. unfold MarchAB_upto in E'. rewrite E' in E.
  injection E as <-.
  split; [by apply (ab_advanced_ready st (t_count st))|].
  by apply (ab_advanced_same_start st (t_count st)).
Qed.

(** X1. On objects for which both configuration calls have completed, the
    result of a march depends on the configuration and on the first entry
    of each position vector only: two such objects that differ at most in
    the later entries are taken to the same object by MarchEE, and to the
    same object by MarchAB. Whatever the vectors held past their first
    entry is overwritten. *)
Theorem March_from_start st1 st2 :
  ready st1 → ready st2 → same_start st1 st2 →
  (∃ s, MarchEE st1 = Some s ∧ MarchEE st2 = Some s) ∧
  (∃ s, MarchAB st1 = Some s ∧ MarchAB st2 = Some s).
Proof.
  intros H1 H2 Hss. split.
  - by apply MarchEE_same_start.
  - by apply MarchAB_same_start.
Qed.

(** X2. Marching again changes nothing, and a march replaces what the
    other scheme computed: after MarchEE, a second MarchEE returns the same
    object and MarchAB returns what it returns on the object as it was
    before any march; likewise with the two schemes exchanged. *)
Theorem March_again st s :
  ready st →
  (MarchEE st = Some s → MarchEE s = Some s ∧ MarchAB s = MarchAB st) ∧
  (MarchAB st = Some s → MarchAB s = Some s ∧ MarchEE s = MarchEE st).
Proof.
  intros Hr. split; intros E.
  - destruct (MarchEE_ready st s Hr E) as [Hrs Hss].
    destruct (MarchEE_same_start st s Hr Hrs Hss) as (a & Ea & Eb).
    destruct (MarchAB_same_start st s Hr Hrs Hss) as (b & Ec & Ed).
    split; [|congruence]. rewrite Eb. congruence.
  - destruct (MarchAB_ready st s Hr E) as [Hrs Hss].
    destruct (MarchAB_same_start st s Hr Hrs Hss) as (a & Ea & Eb).
    destruct (MarchEE_same_start st s Hr Hrs Hss) as (b & Ec & Ed).
    split; [|congruence]. rewrite Eb. congruence.
Qed.

(** ** The sizes stay consistent *)

Lemma ready_consistent st : ready st → consistent st.
Proof.
  intros (Ht & Hic & Hl & Hall). split; [done|].
  split; [by rewrite Ht|]. split; [by rewrite Hic|done].
Qed.

Lemma for_loop_skip {St : Type} (body : nat → St → option St) i k s :
  (∀ j, body j s = Some s) → for_loop body i k s = Some s.
Proof.
  intros H. revert i. induction k as [|k IH]; intros i; [done|].
  simpl. rewrite H. simpl. apply IH.
Qed.

Lemma MarchEE_no_particles st : parts st = [] → MarchEE st = Some st.
Proof.
  intros H. unfold MarchEE. apply for_loop_skip. intros j.
  unfold EE_step. by rewrite H.
Qed.

Lemma MarchAB_no_particles st : parts st = [] → MarchAB st = Some st.
Proof.
  intros H. unfold MarchAB. rewrite for_loop_skip; [done|].
  intros j. unfold AB_step. simpl. by rewrite H.
Qed.

(** X3. From an object whose sizes are consistent both marches run to
    completion without an access outside a vector, whether or not SetTime
    and SetICs were both called, and leave the sizes consistent: with no
    time step or no particle they return the object as it is. *)
Theorem consistent_March st :
  consistent st →
  (∃ sE, MarchEE st = Some sE ∧ consistent sE) ∧
  (∃ sA, MarchAB st = Some sA ∧ consistent sA) ∧
  (t_set st = false ∨ ic_set st = false →
   MarchEE st = Some st ∧ MarchAB st = Some st).
Proof.
  intros Hc. pose proof Hc as (Ht & Hts & Hics & Hall).
  assert (t_set st = false ∨ ic_set st = false →
          MarchEE st = Some st ∧ MarchAB st = Some st) as Hskip.
  { intros [H|H].
    - specialize (Hts H). unfold MarchEE, MarchAB. by rewrite Hts.
    - specialize (Hics H).
      by rewrite MarchEE_no_particles, MarchAB_no_particles. }
  destruct (t_set st) eqn:E1, (ic_set st) eqn:E2;
    try (destruct Hskip as [HE HA]; [by auto|];
         split; [by exists st|]; split; [by exists st|done]).
  assert (ready st) as Hr by done.
  split; [|split; [|intros [?|?]; done]].
  - destruct (MarchEE_upto_advanced st (t_count st) Hr) as (s & E & Ha);
      [done|].
    exists s. split; [done|].
    by apply ready_consistent, (advanced_ready st (t_count st)).
  - destruct (MarchAB_upto_advanced st (t_count st) Hr) as (s & E & Ha);
      [done|].
    exists (ab_obj s). split.
    { unfold MarchAB. unfold MarchAB_upto in E. by rewrite E. }
    by apply ready_consistent, (ab_advanced_ready st (t_count st)).
Qed.

(** X4. The object a constructor starts from has consistent sizes, and
    SetTime, SetICs and SetVel keep them consistent, in whatever order and
    however often they are called, also when SetICs throws. *)
Theorem consistent_configuration :
  consistent blank ∧
  ∀ st, consistent st →
    (∀ dt_in tmax_in st',
       SetTime st dt_in tmax_in = Some st' → consistent st') ∧
    (∀ x0 y0, consistent (SetICs st x0 y0).1) ∧
    (∀ u_in v_in, consistent (SetVel st u_in v_in)).
Proof.
  split; [by repeat split|].
  intros st (Ht & Hts & Hics & Hall). split; [|split].
  - intros dt_in tmax_in st' E. unfold SetTime in E.
    destruct (to_size_t _) as [n|] eqn:Hn; [|done].
    destruct (SetTime_Some st _ _ _ Hn)
      as (s2 & E2 & _ & _ & Hc & Ht2 & Hts2 & Hics2 & Hp & _).
    unfold SetTime in E2. rewrite Hn in E2. rewrite E2 in E.
    injection E as <-. split.
    { by rewrite Ht2, length_imap, length_resize. }
    split; [by rewrite Hts2|]. split.
    + rewrite Hics2. intros H. rewrite Hp, H. by apply Hics.
    + rewrite Hp, Hc. destruct (ic_set st) eqn:Eic.
      * apply Forall_fmap, Forall_true. intros p. simpl.
        by rewrite !length_conservativeResize.
      * by rewrite Hics.
  - intros x0 y0. destruct (decide (length x0 = length y0)) as [H|H].
    + pose proof (SetICs_parts st x0 y0 H) as Hp.
      rewrite SetICs_Returned in * by done. simpl in *.
      split; [done|]. split; [done|]. split; [done|]. rewrite Hp.
      destruct (t_set st) eqn:Ets.
      * apply Forall_fmap, Forall_true. intros p. simpl.
        by rewrite !length_conservativeResize.
      * rewrite Hts by done. apply Forall_fmap, Forall_lookup_2.
        intros i p Hi. apply lookup_zip_with_Some in Hi
          as (a & b & -> & _ & _). done.
    + by rewrite SetICs_throws.
  - intros u_in v_in. done.
Qed.

(** ** The constructor *)

Lemma new_Dsys_Anal_Some dt_in tmax_in x0 y0 u_in v_in n :
  to_size_t (tmax_in / dt_in + 1)%float = Some n →
  length x0 = length y0 →
  ∃ st, new_Dsys_Anal dt_in tmax_in x0 y0 u_in v_in = Some (st, Returned) ∧
    constructed_from dt_in tmax_in x0 y0 u_in v_in n st.
Proof.
  intros Hn H.
  destruct (SetTime_Some blank _ _ _ Hn)
    as (s1 & E1 & Hd & Hm & Hc & Ht & Hts & _ & _ & _).
  assert (length (t s1) = t_count s1) as Hlen.
  { by rewrite Ht, length_imap, length_resize. }
  unfold new_Dsys_Anal. rewrite E1. simpl.
  pose proof (SetICs_ready s1 x0 y0 Hts Hlen H) as Hr.
  pose proof (SetICs_parts s1 x0 y0 H) as Hp.
  rewrite SetICs_Returned in * by done. simpl in *.
  eexists. split; [done|]. split; [exact Hr|]. simpl.
  do 5 (split; [done|]). split; [|split].
  - intros i Hi. apply (SetTime_lookup blank dt_in tmax_in); [done|lia].
  - rewrite Hp, length_fmap, length_zip_with. lia.
  - intros k a b Ha Hb. rewrite Hp, Hts, list_lookup_fmap, lookup_zip_with.
    rewrite Ha, Hb. simpl. eexists. split; [done|]. simpl.
    by rewrite !lookup_conservativeResize_old by (simpl; lia).
Qed.

Lemma new_Dsys_Anal_Returned dt_in tmax_in x0 y0 u_in v_in st :
  new_Dsys_Anal dt_in tmax_in x0 y0 u_in v_in = Some (st, Returned) →
  ∃ n, to_size_t (tmax_in / dt_in + 1)%float = Some n ∧
    length x0 = length y0 ∧
    constructed_from dt_in tmax_in x0 y0 u_in v_in n st.
Proof.
  intros E. destruct (to_size_t (tmax_in / dt_in + 1)%float) as [n|] eqn:Hn.
  - destruct (decide (length x0 = length y0)) as [H|H].
    + destruct (new_Dsys_Anal_Some dt_in tmax_in x0 y0 u_in v_in n Hn H)
        as (st' & E' & Hc).
      rewrite E in E'. injection E' as <-. by exists n.
    + unfold new_Dsys_Anal in E.
      destruct (SetTime blank _ _) as [s1|]; [|done]. simpl in E.
      by rewrite SetICs_throws in E.
  - unfold new_Dsys_Anal, SetTime in E. by rewrite Hn in E.
Qed.

(** X5. The constructor, for a step size and an end time whose count
    [tmax / dt + 1] has a defined conversion: with as many [x0] as [y0] it
    returns an object on which both configuration calls have completed,
    holding the given step size, end time and velocity field, the time
    points [dt * i], and one particle per initial condition, starting at
    [(x0[k], y0[k])]; with vectors of different sizes it ends by the
    [invalid_argument] of SetICs. *)
Theorem new_Dsys_Anal_configured dt_in tmax_in x0 y0 u_in v_in n :
  to_size_t (tmax_in / dt_in + 1)%float = Some n →
  (length x0 = length y0 →
   ∃ st, new_Dsys_Anal dt_in tmax_in x0 y0 u_in v_in = Some (st, Returned) ∧
     ready st ∧ dt st = dt_in ∧ tmax st = tmax_in ∧ t_count st = n ∧
     u st = u_in ∧ v st = v_in ∧
     (∀ i, i < n → t st !! i = Some (dt_in * of_size_t i)%float) ∧
     length (parts st) = length x0 ∧
     ∀ k a b, x0 !! k = Some a → y0 !! k = Some b →
       ∃ p, parts st !! k = Some p ∧ x p !! 0 = Some a ∧ y p !! 0 = Some b) ∧
  (length x0 ≠ length y0 →
   ∃ st, new_Dsys_Anal dt_in tmax_in x0 y0 u_in v_in
         = Some (st, Threw (invalid_argument "Mismatched IC Vectors"))).
Proof.
  intros Hn. split.
  - intros H. by apply new_Dsys_Anal_Some.
  - intros H. destruct (SetTime_Some blank _ _ _ Hn) as (s1 & E1 & _).
    unfold new_Dsys_Anal. rewrite E1. simpl.
    rewrite SetICs_throws by done. by eexists.
Qed.

(** ** SetTime at its edges *)

Lemma to_size_t_not_finite d :
  SFtrunc (Prim2SF d) = None → to_size_t d = None.
Proof. intros H. unfold to_size_t. by rewrite H. Qed.

Lemma count_zero_step (tmax_in dt_in : float) s :
  Prim2SF dt_in = S754_zero s →
  SFtrunc (Prim2SF (tmax_in / dt_in + 1)%float) = None.
Proof.
  intros Hz. rewrite add_spec, div_spec, Hz.
  change (Prim2SF 1) with (S754_finite false 4503599627370496 (-52)).
  by destruct (Prim2SF tmax_in) as [[]|[]| |[] m e], s.
Qed.

(** X6. The step size is not checked: with a step size of zero (of either
    sign) the count [tmax / dt + 1] is an infinity or NaN for every end
    time, its conversion to an integer is undefined, and so are SetTime and
    the constructor. *)
Theorem SetTime_zero_step st tmax_in x0 y0 u_in v_in :
  SetTime st 0 tmax_in = None ∧ SetTime st (-0) tmax_in = None ∧
  new_Dsys_Anal 0 tmax_in x0 y0 u_in v_in = None ∧
  new_Dsys_Anal (-0) tmax_in x0 y0 u_in v_in = None.
Proof.
  assert (∀ s, SetTime s 0 tmax_in = None) as H1.
  { intros s. unfold SetTime.
    by rewrite to_size_t_not_finite by (by apply (count_zero_step _ _ false)). }
  assert (∀ s, SetTime s (-0) tmax_in = None) as H2.
  { intros s. unfold SetTime.
    by rewrite to_size_t_not_finite by (by apply (count_zero_step _ _ true)). }
  unfold new_Dsys_Anal. by rewrite !H1, !H2.
Qed.

Lemma conservativeResize_same n vec :
  length vec = n → conservativeResize n vec = vec.
Proof.
  intros H. unfold conservativeResize.
  rewrite take_ge by lia. rewrite H, Nat.sub_diag. simpl. apply app_nil_r.
Qed.

Lemma SetTime_fixed st dt_in tmax_in :
  dt st = dt_in → tmax st = tmax_in → t_set st = true →
  to_size_t (tmax_in / dt_in + 1)%float = Some (t_count st) →
  length (t st) = t_count st →
  (∀ i, i < t_count st → t st !! i = Some (dt_in * of_size_t i)%float) →
  (ic_set st = true →
   Forall (λ p, length (x p) = t_count st + 1 ∧ length (y p) = t_count st + 1)
          (parts st)) →
  SetTime st dt_in tmax_in = Some st.
Proof.
  intros Hd Hm Hts Hn Hl Ht Hp. unfold SetTime. rewrite Hn. simpl. f_equal.
  assert (imap (λ i _, dt_in * of_size_t i)%float (resize (t_count st) (t st))
          = t st) as ->.
  { unfold resize. rewrite decide_True by done. apply list_eq. intros i.
    rewrite list_lookup_imap. destruct (decide (i < t_count st)) as [Hi|Hi].
    - rewrite (Ht i Hi). simpl. done.
    - by rewrite (lookup_ge_None_2 (t st)) by lia. }
  destruct (ic_set st) eqn:Eic.
  - unfold ResizeParts, with_parts. simpl.
    assert ((λ p, mkParticle (conservativeResize (t_count st + 1) (x p))
                             (conservativeResize (t_count st + 1) (y p)))
              <$> parts st = parts st) as ->.
    { specialize (Hp eq_refl). induction Hp as [|p ps [Hx Hy] _ IH]; [done|].
      rewrite fmap_cons, IH, !conservativeResize_same by done.
      by destruct p. }
    destruct st; simpl in *. by subst.
  - destruct st; simpl in *. by subst.
Qed.

(** X7. Calling SetTime again with the same step size and end time changes
    nothing, also after a march: the time points are recomputed to the same
    values and the position vectors, already of the right size, keep every
    entry. *)
Theorem SetTime_again st dt_in tmax_in st' :
  SetTime st dt_in tmax_in = Some st' →
  SetTime st' dt_in tmax_in = Some st' ∧
  (ic_set st = true →
   ∀ s, MarchEE st' = Some s ∨ MarchAB st' = Some s →
        SetTime s dt_in tmax_in = Some s).
Proof.
  intros E. pose proof E as E0. unfold SetTime in E0.
  destruct (to_size_t _) as [n|] eqn:Hn; [|done]. clear E0.
  destruct (SetTime_Some st _ _ _ Hn)
    as (s2 & E2 & Hd & Hm & Hc & Ht & Hts & Hics & Hp & _).
  rewrite E in E2. injection E2 as <-.
  assert (length (t st') = t_count st') as Hl.
  { by rewrite Ht, length_imap, length_resize. }
  assert (∀ i, i < t_count st' →
               t st' !! i = Some (dt_in * of_size_t i)%float) as Hti.
  { intros i Hi. by apply (SetTime_lookup st dt_in tmax_in). }
  split.
  - apply SetTime_fixed; try done; [by rewrite Hc|].
    rewrite Hics. intros Hic. rewrite Hp, Hic, Hc.
    apply Forall_fmap, Forall_true. intros p. simpl.
    by rewrite !length_conservativeResize.
  - intros Hic s Hs.
    assert (ready st') as Hr by (by apply (SetTime_ready st dt_in tmax_in)).
    assert (ready s ∧ same_start st' s) as [Hrs Hss].
    { destruct Hs as [Hs|Hs];
        [by apply MarchEE_ready|by apply MarchAB_ready]. }
    destruct Hss as (Es & _). destruct Hrs as (R1 & R2 & R3 & R4).
    assert (dt s = dt st' ∧ tmax s = tmax st' ∧ t_count s = t_count st' ∧
            t s = t st') as (F1 & F2 & F3 & F4) by (by rewrite Es).
    apply SetTime_fixed; try congruence. by rewrite F4, F3.
Qed.

(** ** The order of the configuration calls *)

Lemma SetICs_fields st x0 y0 :
  length x0 = length y0 →
  dt (SetICs st x0 y0).1 = dt st ∧ tmax (SetICs st x0 y0).1 = tmax st ∧
  t_count (SetICs st x0 y0).1 = t_count st ∧ t (SetICs st x0 y0).1 = t st ∧
  t_set (SetICs st x0 y0).1 = t_set st ∧ ic_set (SetICs st x0 y0).1 = true ∧
  u (SetICs st x0 y0).1 = u st ∧ v (SetICs st x0 y0).1 = v st.
Proof. intros H. by rewrite SetICs_Returned. Qed.

Lemma with_parts_eq s1 s2 :
  dt s2 = dt s1 → tmax s2 = tmax s1 → t_count s2 = t_count s1 →
  t s2 = t s1 → t_set s2 = t_set s1 → ic_set s2 = ic_set s1 →
  u s2 = u s1 → v s2 = v s1 →
  s2 = with_parts s1 (parts s2).
Proof. destruct s1, s2. simpl. intros. by subst. Qed.

(** X8. SetTime and SetICs may be called in either order: both orders
    complete the configuration, and the two objects differ at most in the
    entries of the position vectors that no call has written yet, so that
    MarchEE takes both to the same object, and so does MarchAB. *)
Theorem configuration_order st dt_in tmax_in x0 y0 sA sB :
  length x0 = length y0 →
  SetTime st dt_in tmax_in = Some sA →
  SetTime (SetICs st x0 y0).1 dt_in tmax_in = Some sB →
  ready (SetICs sA x0 y0).1 ∧ ready sB ∧
  same_start (SetICs sA x0 y0).1 sB ∧
  (∃ s, MarchEE (SetICs sA x0 y0).1 = Some s ∧ MarchEE sB = Some s) ∧
  (∃ s, MarchAB (SetICs sA x0 y0).1 = Some s ∧ MarchAB sB = Some s).
Proof.
  intros H EA EB.
  pose proof EA as E0. unfold SetTime in E0.
  destruct (to_size_t _) as [n|] eqn:Hn; [|done]. clear E0.
  destruct (SetTime_Some st _ _ _ Hn)
    as (s2 & E2 & Hd & Hm & Hc & Ht & Hts & Hics & Hp & Hu & Hv).
  rewrite EA in E2. injection E2 as <-.
  destruct (SetTime_Some (SetICs st x0 y0).1 _ _ _ Hn)
    as (s3 & E3 & Hd' & Hm' & Hc' & Ht' & Hts' & Hics' & Hp' & Hu' & Hv').
  rewrite EB in E3. injection E3 as <-.
  destruct (SetICs_fields sA x0 y0 H)
    as (A1 & A2 & A3 & A4 & A5 & A6 & A7 & A8).
  destruct (SetICs_fields st x0 y0 H)
    as (B1 & B2 & B3 & B4 & B5 & B6 & B7 & B8).
  pose proof (SetICs_parts sA x0 y0 H) as PA.
  pose proof (SetICs_parts st x0 y0 H) as PB.
  rewrite B6, PB in Hp'. rewrite Hts, Hc in PA.
  assert (ready (SetICs sA x0 y0).1) as HrA.
  { apply SetICs_ready; [done| |done].
    by rewrite Ht, Hc, length_imap, length_resize. }
  assert (ready sB) as HrB
    by (by apply (SetTime_ready (SetICs st x0 y0).1 dt_in tmax_in)).
  assert (same_start (SetICs sA x0 y0).1 sB) as Hss.
  { split; [|split].
    - apply with_parts_eq; congruence.
    - by rewrite PA, Hp', !length_fmap.
    - intros k p1 p2. rewrite PA, Hp', !list_lookup_fmap, lookup_zip_with.
      destruct (x0 !! k) as [a|]; [|done]. destruct (y0 !! k) as [b|]; [|done].
      simpl. intros [= <-] [= <-]. simpl.
      destruct (t_set st); simpl;
        rewrite !lookup_conservativeResize_old;
        rewrite ?length_conservativeResize; simpl; try lia; done. }
  do 3 (split; [done|]). split.
  - by apply MarchEE_same_start.
  - by apply MarchAB_same_start.
Qed.

(** ** A grid of one step *)

(** X9. When the time grid has at most one point, MarchAB never reaches
    its two-step formula and returns the very object MarchEE returns. *)
Theorem MarchAB_single_step st :
  ready st → t_count st ≤ 1 → MarchAB st = MarchEE st.
Proof.
  intros Hr Hk. destruct (decide (t_count st = 0)) as [H0|H0].
  - unfold MarchAB, MarchEE. by rewrite H0.
  - destruct (MarchAB_first_step st Hr) as (s1 & EA & EE); [lia|].
    unfold MarchAB, MarchEE. unfold MarchAB_upto in EA.
    unfold MarchEE_upto in EE.
    replace (t_count st) with 1 by lia. by rewrite EA, EE.
Qed.

(** ** The rounding error of a time point *)

Section Rounding_error.

#[local] Open Scope Z_scope.

(** The product [dt * i] in units of the last place of [dt], for an index
    that a double holds exactly: an integer [R] within [2^-52] of [m * i],
    relatively. *)
Lemma product_error (d : float) (m : positive) (e : Z) (n : nat) :
  Prim2SF d = S754_finite false m e →
  Z.of_nat n < 2 ^ 53 →
  Prim2SF (d * of_size_t n)%float = S754_infinity false ∨
  ∃ R q, B2Q (d * of_size_t n)%float = Some q ∧
    (q == inject_Z R * 2 ^ e)%Q ∧
    2 ^ 52 * Z.abs (R - Z.pos m * Z.of_nat n) ≤ Z.pos m * Z.of_nat n.
Proof.
  intros Hd Hn.
  pose proof (Prim2SF_valid d) as Hv. rewrite Hd in Hv.
  destruct (valid_finite_canonical _ _ _ Hv) as [He Hdm].
  destruct (decide (n = 0%nat)) as [->|Hn0].
  { right. exists 0, 0%Q. unfold B2Q. rewrite mul_spec, Hd.
    split; [done|]. split; [ring|lia]. }
  destruct (of_size_t_repr n) as (mi & ei & Hi & Hei & Hmi); [lia|].
  unfold B2Q. rewrite mul_spec, Hd, Hi.
  cbn [SF64mul SFmul xorb].
  set (i := Z.of_nat n) in *. set (s := - ei) in *.
  set (a := Z.pos m * i).
  assert (0 < a) as Ha by (subst a; lia).
  assert (0 ≤ s) as Hs by (subst s; lia).
  assert (Z.pos (m * mi) = a * 2 ^ s) as HM.
  { rewrite Pos2Z.inj_mul, Hmi. subst a. ring. }
  rewrite HM.
  destruct (binary_round_aux_value (a * 2 ^ s) (e + ei) ltac:(nia))
    as [Hinf|(m1 & q & Hq & Hqv & Hb & Hex)]; [by left|].
  right. rewrite Hq.
  set (k := 0 `max` (fexp64 (Zdigits2 (a * 2 ^ s) + (e + ei)) - (e + ei)))
    in *.
  assert (Zdigits2 (a * 2 ^ s) + (e + ei) = Zdigits2 a + e) as HD.
  { rewrite Zdigits2_mul_pow2 by lia. subst s. lia. }
  assert (k = 0 `max` (fexp64 (Zdigits2 a + e) - (e + ei))) as Hkdef.
  { subst k. by rewrite HD. }
  clearbody k.
  assert (0 ≤ k) as Hk by lia.
  destruct (decide (k ≤ s)) as [Hks|Hks].
  - exists a, q. split; [done|].
    assert (a * 2 ^ s = a * 2 ^ (s - k) * 2 ^ k) as Hsplit.
    { rewrite <- Z.mul_assoc, <- Z.pow_add_r by lia. do 2 f_equal. lia. }
    assert (m1 = a * 2 ^ (s - k)) as Hm1.
    { rewrite Hex; rewrite Hsplit; [by rewrite Z.div_mul by lia|].
      by rewrite Z.mod_mul by lia. }
    split; [|lia].
    rewrite Hqv, Hm1. replace (e + ei + k) with (e - (s - k)) by lia.
    apply Q_scale. lia.
  - set (c := k - s). assert (0 < c) as Hc by (subst c; lia).
    assert (c = Zdigits2 a - 53) as Hcd.
    { subst c s. rewrite fexp64_eq in Hkdef. lia. }
    assert (a * 2 ^ s / 2 ^ k = a / 2 ^ c) as Hdiv.
    { replace k with (c + s) by (subst c; lia).
      rewrite Z.pow_add_r by lia. rewrite Z.div_mul_cancel_r by lia. done. }
    rewrite Hdiv in Hb.
    exists (m1 * 2 ^ c), q. split; [done|]. split.
    + rewrite Hqv. replace (e + ei + k) with (e + c) by (subst c s; lia).
      rewrite <- (Q_scale m1 c (e + c)) by lia.
      by replace (e + c - c) with e by lia.
    + assert (2 ^ c * 2 ^ 52 ≤ a) as Hu.
      { rewrite <- Z.pow_add_r by lia.
        replace (c + 52) with (Z.log2 a)
          by (rewrite Hcd, Zdigits2_log2 by lia; lia).
        apply Z.log2_spec. lia. }
      pose proof (Z.mul_div_le a (2 ^ c) ltac:(lia)) as H1.
      pose proof (Z.mul_succ_div_gt a (2 ^ c) ltac:(lia)) as H2.
      assert (0 < 2 ^ c) as Hp by lia.
      assert (- 2 ^ c ≤ m1 * 2 ^ c - a ≤ 2 ^ c) as Hdiff by nia.
      change (2 ^ 52) with 4503599627370496 in *. lia.
Qed.

End Rounding_error.

Lemma scaled_bounds (R x : Z) (P : Q) :
  (0 < P)%Q → (0 ≤ x)%Z →
  (4503599627370496 * Z.abs (R - x) ≤ x)%Z →
  ((1 - DBL_EPSILON) * (inject_Z x * P) <= inject_Z R * P)%Q ∧
  (inject_Z R * P <= (1 + DBL_EPSILON) * (inject_Z x * P))%Q.
Proof.
  intros HP Hx Hb.
  assert ((1 - DBL_EPSILON) * inject_Z x <= inject_Z R)%Q as H1.
  { unfold DBL_EPSILON, Qle, Qminus, Qplus, Qmult, Qopp, inject_Z.
    cbn [Qnum Qden]. lia. }
  assert (inject_Z R <= (1 + DBL_EPSILON) * inject_Z x)%Q as H2.
  { unfold DBL_EPSILON, Qle, Qminus, Qplus, Qmult, Qopp, inject_Z.
    cbn [Qnum Qden]. lia. }
  split.
  - rewrite Qmult_assoc. apply Qmult_le_compat_r; [done|]. by apply Qlt_le_weak.
  - rewrite Qmult_assoc. apply Qmult_le_compat_r; [done|]. by apply Qlt_le_weak.
Qed.

(** X12. Every finite time point is within a relative error of [2^-52]
    of [i * dt], on a grid of at most [2^53] points with a finite step
    size [dt > 0]. *)
Theorem SetTime_grid_error st dt_in tmax_in qdt n :
  exactly dt_in qdt → (0 < qdt)%Q →
  to_size_t (tmax_in / dt_in + 1)%float = Some n →
  (Z.of_nat n ≤ 2 ^ 53)%Z →
  ∃ st', SetTime st dt_in tmax_in = Some st' ∧
    ∀ i a qa, t st' !! i = Some a → exactly a qa →
      ((1 - DBL_EPSILON) * (inject_Z (Z.of_nat i) * qdt) <= qa)%Q ∧
      (qa <= (1 + DBL_EPSILON) * (inject_Z (Z.of_nat i) * qdt))%Q.
Proof.
  intros (q0 & Hq0 & E0) Hpos Hn Hsmall. rewrite <- E0 in Hpos.
  destruct (SF2Q_pos_finite _ _ Hq0 Hpos) as (m & e & Hd).
  unfold B2Q in Hq0. rewrite Hd in Hq0. simpl in Hq0. injection Hq0 as <-.
  destruct (SetTime_Some st _ _ _ Hn) as (st' & E & _ & _ & Hc & Ht & _).
  exists st'. split; [done|]. intros i a qa Ha (qa' & Hqa & Ea).
  assert (i < n) as Hi.
  { apply lookup_lt_Some in Ha.
    by rewrite Ht, length_imap, length_resize in Ha. }
  rewrite (SetTime_lookup st dt_in tmax_in st' i E) in Ha by lia.
  injection Ha as <-.
  destruct (product_error dt_in m e i Hd ltac:(lia))
    as [Hinf|(R & q & Hq & Hqv & Hb)].
  { unfold B2Q in Hqa. by rewrite Hinf in Hqa. }
  rewrite Hqa in Hq. injection Hq as <-.
  rewrite <- Ea, <- E0, Hqv.
  assert (inject_Z (Z.of_nat i) * (inject_Z (Z.pos m) * 2 ^ e)
          == inject_Z (Z.pos m * Z.of_nat i) * 2 ^ e)%Q as ->
    by (rewrite inject_Z_mult; ring).
  apply scaled_bounds; [by apply Qpower_0_lt|lia|done].
Qed.

(** ** The grid is never empty *)

Section Count.

#[local] Open Scope Z_scope.

(** Adding 1 to a positive double gives an infinity or a double of integer
    part at least 1. *)
Lemma SFadd_one_finite ma ea :
  let r := SFadd prec emax (S754_finite false ma ea)
                 (S754_finite false 4503599627370496 (-52)) in
  r = S754_infinity false ∨ ∃ z, SFtrunc r = Some z ∧ 1 ≤ z.
Proof.
  cbn [SFadd cond_Zopp]. set (ez := Z.min ea (-52)).
  destruct (shl_align_spec ma ea ez ltac:(lia)) as (m1 & -> & Hm1).
  destruct (shl_align_spec 4503599627370496 (-52) ez ltac:(lia))
    as (m2 & -> & Hm2).
  cbn [fst]. change (Z.pos m1 + Z.pos m2) with (Z.pos (m1 + m2)).
  cbn [binary_normalize]. unfold binary_round. fold fexp64.
  change (Z.pos (digits2_pos (m1 + m2))) with (Zdigits2 (Z.pos (m1 + m2))).
  set (M := Z.pos (m1 + m2)).
  assert (2 ^ (- ez) < M) as HM.
  { subst M. rewrite Pos2Z.inj_add, Hm2.
    change 4503599627370496 with (2 ^ 52). rewrite <- Z.pow_add_r by lia.
    replace (52 + (-52 - ez)) with (- ez) by lia. lia. }
  assert (- ez + 1 ≤ Zdigits2 M) as Hdig.
  { rewrite Zdigits2_log2 by lia.
    assert (- ez ≤ Z.log2 M); [|lia]. apply Z.log2_le_pow2; lia. }
  set (f := fexp64 (Zdigits2 M + ez)).
  assert (ez ≤ f) as Hf by (subst f; rewrite fexp64_eq; lia).
  assert (shl_align (m1 + m2) ez f = ((m1 + m2)%positive, ez)) as ->.
  { unfold shl_align. destruct (f - ez) eqn:E; try done. lia. }
  cbv beta iota. fold M.
  destruct (binary_round_aux_value M ez ltac:(lia))
    as [Hinf|(r1 & q & Hq & Hqv & [Hlo _] & _)]; [by left|].
  fold f in Hqv, Hlo. rewrite Z.max_r in Hqv, Hlo by lia.
  replace (ez + (f - ez)) with f in Hqv by lia.
  assert (0 < 2 ^ (f - ez)) as Hp by (apply Z.pow_pos_nonneg; lia).
  assert (1 ≤ r1 ∧ (f ≤ 0 → 2 ^ (- f) ≤ r1)) as [Hr1 Hr1'].
  { split.
    - eapply Z.le_trans; [|exact Hlo]. apply Z.div_le_lower_bound; [done|].
      rewrite Z.mul_1_r. destruct (decide (f ≤ 0)) as [H0|H0].
      + eapply Z.le_trans; [|apply Z.lt_le_incl, HM].
        apply Z.pow_le_mono_r; lia.
      + assert (f - ez = Zdigits2 M - 53) as ->
          by (subst f; rewrite fexp64_eq; rewrite fexp64_eq in H0; lia).
        rewrite Zdigits2_log2 by lia.
        eapply Z.le_trans; [|apply Z.log2_spec; lia].
        apply Z.pow_le_mono_r; lia.
    - intros H0. eapply Z.le_trans; [|exact Hlo].
      apply Z.div_le_lower_bound; [done|].
      rewrite <- Z.pow_add_r by lia.
      replace (f - ez + - f) with (- ez) by lia. lia. }
  right. destruct r1 as [|p|p]; try lia.
  assert (0 <= q)%Q as Hq0.
  { rewrite Hqv. apply Qmult_le_0_compat; [done|].
    apply Qlt_le_weak. by apply Qpower_0_lt. }
  rewrite (SF2Q_nonneg_trunc _ _ Hq Hq0).
  eexists. split; [done|]. rewrite (Qfloor_comp _ _ Hqv), Qfloor_shiftl.
  destruct (decide (f ≤ 0)) as [H0|H0].
  - rewrite Z.shiftl_div_pow2 by lia.
    apply Z.div_le_lower_bound; [apply Z.pow_pos_nonneg; lia|].
    rewrite Z.mul_1_r. by apply Hr1'.
  - rewrite Z.shiftl_mul_pow2 by lia.
    assert (0 < 2 ^ f) by (apply Z.pow_pos_nonneg; lia). nia.
Qed.

End Count.

Lemma count_positive dt_in tmax_in qdt qtmax n :
  exactly dt_in qdt → exactly tmax_in qtmax → (0 < qdt)%Q → (0 <= qtmax)%Q →
  to_size_t (tmax_in / dt_in + 1)%float = Some n → 1 ≤ n.
Proof.
  intros (q' & Hq' & Heq) Htmax Hpos Hnn. rewrite <- Heq in Hpos.
  destruct (SF2Q_pos_finite _ _ Hq' Hpos) as (m & e & Hdt).
  destruct (exactly_nonneg _ _ Htmax Hnn) as [Hs Hinf].
  destruct (SFdiv_nonneg _ _ m e Hs Hinf Hdt) as [Hd Hnan].
  unfold to_size_t. rewrite add_spec, div_spec. unfold SF64add, SF64div.
  change (Prim2SF 1) with (S754_finite false 4503599627370496 (-52)).
  destruct (SFdiv prec emax (Prim2SF tmax_in) (Prim2SF dt_in))
    as [s|s| |s ma ea]; simpl in Hd; try done.
  - cbn [SFadd SFtrunc]. simpl. intros [= <-].
    by change (4503599627370496 ≪ (-52))%Z with 1%Z.
  - subst s. destruct (SFadd_one_finite ma ea) as [->|(z & -> & Hz)]; [done|].
    simpl. case_decide; [|done]. intros [= <-]. lia.
Qed.

(** X13. For a finite step size [dt > 0] and end time [tmax >= 0]
    SetTime is undefined only by overflow, when the count [tmax / dt + 1]
    is infinite or exceeds the largest [std::size_t]. Otherwise the grid is
    not empty: the count is at least 1, the time vector starts with the
    time point 0, and once the initial conditions are set every position
    vector has at least two entries. *)
Theorem SetTime_valid_inputs st dt_in tmax_in qdt qtmax :
  exactly dt_in qdt → exactly tmax_in qtmax → (0 < qdt)%Q → (0 <= qtmax)%Q →
  (∃ st', SetTime st dt_in tmax_in = Some st' ∧
     to_size_t (tmax_in / dt_in + 1)%float = Some (t_count st') ∧
     1 ≤ t_count st' ∧ t st' !! 0 = Some 0%float ∧
     (ic_set st = true →
      Forall (λ p, 2 ≤ length (x p) ∧ 2 ≤ length (y p)) (parts st'))) ∨
  (SetTime st dt_in tmax_in = None ∧
   ((tmax_in / dt_in + 1)%float = infinity ∨
    ∃ z, SFtrunc (Prim2SF (tmax_in / dt_in + 1)%float) = Some z ∧
         (size_max < z)%Z)).
Proof.
  intros Hdt Htmax Hpos Hnn.
  destruct (SetTime_defined st _ _ _ _ Hdt Htmax Hpos Hnn) as [[s E]|H];
    [left|by right].
  pose proof E as E0. unfold SetTime in E0.
  destruct (to_size_t _) as [n|] eqn:Hn; [|done]. clear E0.
  pose proof (count_positive _ _ _ _ _ Hdt Htmax Hpos Hnn Hn) as H1.
  destruct (SetTime_Some st _ _ _ Hn)
    as (st' & E' & _ & _ & Hc & Ht & _ & _ & Hp & _).
  rewrite E in E'. injection E' as <-.
  exists s. split; [done|]. rewrite Hc. do 2 (split; [done|]). split.
  - rewrite (SetTime_lookup st dt_in tmax_in s 0 E) by lia.
    by rewrite (mul_zero_pos _ _ Hdt Hpos).
  - intros Hic. rewrite Hp, Hic. apply Forall_fmap, Forall_true.
    intros p. simpl. rewrite !length_conservativeResize. lia.
Qed.

(** ** PrintTraj in every state *)

(** X14. With a valid particle index PrintTraj stays within the vectors on
    every object of consistent sizes, whether or not SetTime and SetICs
    were both called: it prints the header and one row per time point, so
    the header alone as long as no time grid is set. *)
Theorem PrintTraj_consistent st n out :
  consistent st → valid_index st n →
  ∃ p, parts st !! Z.to_nat n = Some p ∧
    PrintTraj st n out
    = (out ++ header "     t     x     y"
           :: ((λ i, row (t st !!! i) (x p !!! i) (y p !!! i))
                 <$> seq 0 (t_count st)),
       Returned) ∧
    (t_set st = false →
     PrintTraj st n out = (out ++ [header "     t     x     y"], Returned)).
Proof.
  intros (Ht & Hts & _ & Hall) Hn.
  destruct (particle_at_valid st n Hn) as (p & Hp & Hl).
  exists p. split; [done|].
  destruct (Forall_lookup_1 _ _ _ _ Hall Hl) as [Hx Hy].
  assert (PrintTraj st n out
          = (out ++ header "     t     x     y"
                 :: ((λ i, row (t st !!! i) (x p !!! i) (y p !!! i))
                       <$> seq 0 (t_count st)),
             Returned)) as E.
  { unfold PrintTraj. rewrite (print_rows_valid st n p) by (try done; lia).
    by rewrite <- app_assoc. }
  split; [done|]. intros H. rewrite E, (Hts H). done.
Qed.

(** ** Particles do not interact *)

Lemma ready_alone st n p :
  ready st → parts st !! n = Some p → ready (with_parts st [p]).
Proof.
  intros Hr Hp. pose proof (ready_lengths st n p Hr Hp) as Hl.
  destruct Hr as (H1 & H2 & H3 & _). do 3 (split; [done|]).
  simpl. by constructor.
Qed.

Lemma singleton_parts (ps : list Particle) :
  length ps = 1 → ∃ q, ps = [q].
Proof. destruct ps as [|q [|r ps]]; try done. by exists q. Qed.

Lemma MarchEE_alone st n p :
  ready st → parts st !! n = Some p →
  ∃ s q, MarchEE st = Some s ∧ parts s !! n = Some q ∧
    MarchEE (with_parts st [p]) = Some (with_parts st [q]).
Proof.
  intros Hr Hp. pose proof (ready_alone st n p Hr Hp) as Hr1.
  destruct (ready_lengths st n p Hr Hp) as [Lx Ly].
  destruct (MarchEE_upto_advanced st (t_count st) Hr)
    as (s & E & Hs & Hl & Hrel); [done|].
  destruct (MarchEE_upto_advanced (with_parts st [p]) (t_count st) Hr1)
    as (s1 & E1 & Hs1 & Hl1 & Hrel1); [done|].
  destruct (lookup_lt_is_Some_2 (parts s) n) as [q Hq].
  { rewrite Hl. by apply lookup_lt_Some in Hp. }
  destruct (singleton_parts (parts s1) Hl1) as [q1 Hq1].
  exists s, q. split; [done|]. split; [done|].
  change (MarchEE (with_parts st [p]))
    with (MarchEE_upto (t_count st) (with_parts st [p])).
  rewrite E1, Hs1, Hq1. do 3 f_equal.
  pose proof (Hrel n p q Hp Hq) as A.
  pose proof (Hrel1 0 p q1 eq_refl) as A1. rewrite Hq1 in A1.
  specialize (A1 eq_refl).
  apply (euler_upto_fields st) in A1; [|done..].
  symmetry. by apply (euler_upto_determined st (t_count st) p p).
Qed.

Lemma MarchAB_alone st n p :
  ready st → parts st !! n = Some p →
  ∃ s q, MarchAB st = Some s ∧ parts s !! n = Some q ∧
    MarchAB (with_parts st [p]) = Some (with_parts st [q]).
Proof.
  intros Hr Hp. pose proof (ready_alone st n p Hr Hp) as Hr1.
  destruct (ready_lengths st n p Hr Hp) as [Lx Ly].
  destruct (MarchAB_upto_advanced st (t_count st) Hr)
    as (s & E & Hs & Hl & _ & _ & Hrel); [done|].
  destruct (MarchAB_upto_advanced (with_parts st [p]) (t_count st) Hr1)
    as (s1 & E1 & Hs1 & Hl1 & _ & _ & Hrel1); [done|].
  destruct (lookup_lt_is_Some_2 (parts (ab_obj s)) n) as [q Hq].
  { rewrite Hl. by apply lookup_lt_Some in Hp. }
  destruct (singleton_parts (parts (ab_obj s1)) Hl1) as [q1 Hq1].
  exists (ab_obj s), q.
  unfold MarchAB. unfold MarchAB_upto in E, E1.
  change (t_count (with_parts st [p])) with (t_count st).
  rewrite E, E1. simpl. split; [done|]. split; [done|].
  rewrite Hs1, Hq1. do 3 f_equal.
  destruct (Hrel n p q Hp Hq) as [A _].
  pose proof (Hrel1 0 p q1 eq_refl) as A1. rewrite Hq1 in A1.
  destruct (A1 eq_refl) as [A2 _].
  apply (ab2_upto_fields st) in A2; [|done..].
  symmetry. by apply (ab2_upto_determined st (t_count st) p p).
Qed.

(** X15. Particles do not interact: a march takes each particle where it
    takes it in an object that holds this particle alone, with the same
    time grid and velocity field; neither the other particles nor the
    position in the store matter. *)
Theorem March_particle_alone st n p :
  ready st → parts st !! n = Some p →
  (∃ s q, MarchEE st = Some s ∧ parts s !! n = Some q ∧
     MarchEE (with_parts st [p]) = Some (with_parts st [q])) ∧
  (∃ s q, MarchAB st = Some s ∧ parts s !! n = Some q ∧
     MarchAB (with_parts st [p]) = Some (with_parts st [q])).
Proof.
  intros Hr Hp. split.
  - by apply MarchEE_alone.
  - by apply MarchAB_alone.
Qed.

(** ** A longer run extends a shorter one *)

Lemma euler_upto_prefix sa sb ka kb pa pb qa qb :
  euler_upto sa ka pa qa → euler_upto sb kb pb qb → ka ≤ kb →
  dt sa = dt sb → u sa = u sb → v sa = v sb →
  (∀ i, i < ka → t sa !!! i = t sb !!! i) →
  length (x pa) = ka + 1 → length (y pa) = ka + 1 →
  length (x pb) = kb + 1 → length (y pb) = kb + 1 →
  x pa !! 0 = x pb !! 0 → y pa !! 0 = y pb !! 0 →
  ∀ j, j ≤ ka → x qa !! j = x qb !! j ∧ y qa !! j = y qb !! j.
Proof.
  intros (Hx1 & Hy1 & Hr1 & Hf1) (Hx2 & Hy2 & Hr2 & Hf2) Hk Hd Hu Hv Ht
    Lx1 Ly1 Lx2 Ly2 Ex Ey.
  induction j as [|j IH]; intros Hj.
  - destruct (Hf1 0) as [-> ->]; [by left|].
    destruct (Hf2 0) as [-> ->]; [by left|]. done.
  - destruct IH as [IHx IHy]; [lia|].
    apply lookup_total_eq in IHx, IHy.
    destruct (Hr1 j) as [A1 B1]; [lia|]. destruct (Hr2 j) as [A2 B2]; [lia|].
    simpl in *. replace (S j) with (j + 1) by lia.
    rewrite !lookup_Some_total by lia.
    by rewrite A1, A2, B1, B2, IHx, IHy, Hd, Hu, Hv, Ht by lia.
Qed.

Lemma ab2_upto_prefix sa sb ka kb pa pb qa qb :
  ab2_upto sa ka pa qa → ab2_upto sb kb pb qb → ka ≤ kb →
  dt sa = dt sb → u sa = u sb → v sa = v sb →
  (∀ i, i < ka → t sa !!! i = t sb !!! i) →
  length (x pa) = ka + 1 → length (y pa) = ka + 1 →
  length (x pb) = kb + 1 → length (y pb) = kb + 1 →
  x pa !! 0 = x pb !! 0 → y pa !! 0 = y pb !! 0 →
  ∀ j, j ≤ ka → x qa !! j = x qb !! j ∧ y qa !! j = y qb !! j.
Proof.
  intros (Hx1 & Hy1 & Hs1 & Hr1 & Hf1) (Hx2 & Hy2 & Hs2 & Hr2 & Hf2)
    Hk Hd Hu Hv Ht Lx1 Ly1 Lx2 Ly2 Ex Ey.
  assert (∀ j, j ≤ ka → ∀ i, i ≤ j →
            x qa !! i = x qb !! i ∧ y qa !! i = y qb !! i) as H.
  { induction j as [|j IH]; intros Hj i Hi.
    - replace i with 0 by lia.
      destruct (Hf1 0) as [-> ->]; [by left|].
      destruct (Hf2 0) as [-> ->]; [by left|]. done.
    - destruct (decide (i ≤ j)) as [Hle|Hgt]; [apply IH; lia|].
      replace i with (j + 1) by lia.
      rewrite !lookup_Some_total by lia.
      destruct (decide (j = 0)) as [->|Hj0].
      + destruct (IH ltac:(lia) 0 ltac:(lia)) as [IHx IHy].
        apply lookup_total_eq in IHx, IHy.
        destruct (Hs1 ltac:(lia)) as [A1 B1].
        destruct (Hs2 ltac:(lia)) as [A2 B2].
        unfold vel_u, vel_v in *. simpl.
        by rewrite A1, A2, B1, B2, IHx, IHy, Hd, Hu, Hv, Ht by lia.
      + destruct (IH ltac:(lia) j ltac:(lia)) as [IHx IHy].
        destruct (IH ltac:(lia) (j - 1) ltac:(lia)) as [IHx' IHy'].
        apply lookup_total_eq in IHx, IHy, IHx', IHy'.
        destruct (Hr1 j) as [A1 B1]; [lia..|].
        destruct (Hr2 j) as [A2 B2]; [lia..|].
        unfold vel_u, vel_v in *.
        by rewrite A1, A2, B1, B2, IHx, IHy, IHx', IHy', Hd, Hu, Hv,
          (Ht j), (Ht (j - 1)) by lia. }
  intros j Hj. by apply (H j).
Qed.

Lemma constructed_prefix dt_in tmax1 tmax2 x0 y0 u_in v_in n1 n2 st1 st2 :
  constructed_from dt_in tmax1 x0 y0 u_in v_in n1 st1 →
  constructed_from dt_in tmax2 x0 y0 u_in v_in n2 st2 →
  length x0 = length y0 → n1 ≤ n2 →
  dt st1 = dt st2 ∧ u st1 = u st2 ∧ v st1 = v st2 ∧
  length (parts st1) = length (parts st2) ∧
  (∀ i, i < n1 → t st1 !! i = t st2 !! i) ∧
  ∀ k p1 p2, parts st1 !! k = Some p1 → parts st2 !! k = Some p2 →
    x p1 !! 0 = x p2 !! 0 ∧ y p1 !! 0 = y p2 !! 0.
Proof.
  intros (R1 & D1 & M1 & C1 & U1 & V1 & T1 & L1 & P1)
         (R2 & D2 & M2 & C2 & U2 & V2 & T2 & L2 & P2) H Hn.
  do 3 (split; [congruence|]). split; [lia|]. split.
  - intros i Hi. by rewrite T1, T2 by lia.
  - intros k p1 p2 Hp1 Hp2.
    destruct (lookup_lt_is_Some_2 x0 k) as [a Ha].
    { rewrite <- L1. by apply lookup_lt_Some in Hp1. }
    destruct (lookup_lt_is_Some_2 y0 k) as [b Hb].
    { rewrite <- H, <- L1. by apply lookup_lt_Some in Hp1. }
    destruct (P1 k a b Ha Hb) as (q1 & Hq1 & X1 & Y1).
    destruct (P2 k a b Ha Hb) as (q2 & Hq2 & X2 & Y2).
    rewrite Hp1 in Hq1. rewrite Hp2 in Hq2.
    injection Hq1 as <-. injection Hq2 as <-. by rewrite X1, X2, Y1, Y2.
Qed.

(** X16. A longer run extends a shorter one: of two objects constructed
    with the same step size, initial conditions and velocity field, and
    end times that give the first no more time points than the second,
    the marched trajectories of the first are the leading samples of those
    of the second, for MarchEE and for MarchAB. *)
Theorem March_longer_run dt_in tmax1 tmax2 x0 y0 u_in v_in st1 st2 :
  new_Dsys_Anal dt_in tmax1 x0 y0 u_in v_in = Some (st1, Returned) →
  new_Dsys_Anal dt_in tmax2 x0 y0 u_in v_in = Some (st2, Returned) →
  t_count st1 ≤ t_count st2 →
  (∃ s1 s2, MarchEE st1 = Some s1 ∧ MarchEE st2 = Some s2 ∧
     same_upto (t_count st1) s1 s2) ∧
  (∃ s1 s2, MarchAB st1 = Some s1 ∧ MarchAB st2 = Some s2 ∧
     same_upto (t_count st1) s1 s2).
Proof.
  intros E1 E2 Hk.
  destruct (new_Dsys_Anal_Returned _ _ _ _ _ _ _ E1) as (n1 & _ & H & F1).
  destruct (new_Dsys_Anal_Returned _ _ _ _ _ _ _ E2) as (n2 & _ & _ & F2).
  pose proof F1 as (R1 & _ & _ & C1 & _). pose proof F2 as (R2 & _ & _ & C2 & _).
  destruct (constructed_prefix _ _ _ _ _ _ _ _ _ _ _ F1 F2 H ltac:(lia))
    as (Hd & Hu & Hv & Hl & Ht & H0).
  rewrite <- C1 in Ht.
  assert (∀ i, i < t_count st1 → t st1 !!! i = t st2 !!! i) as Ht'.
  { intros i Hi. apply lookup_total_eq. by apply Ht. }
  split.
  - destruct (MarchEE_upto_advanced st1 (t_count st1) R1)
      as (s1 & Ea & Hs1 & Hl1 & Hrel1); [done|].
    destruct (MarchEE_upto_advanced st2 (t_count st2) R2)
      as (s2 & Eb & Hs2 & Hl2 & Hrel2); [done|].
    exists s1, s2. split; [done|]. split; [done|]. split; [lia|]. split.
    { rewrite Hs1, Hs2. done. }
    intros n q1 q2 Hq1 Hq2.
    destruct (lookup_lt_is_Some_2 (parts st1) n) as [p1 Hp1].
    { rewrite <- Hl1. by apply lookup_lt_Some in Hq1. }
    destruct (lookup_lt_is_Some_2 (parts st2) n) as [p2 Hp2].
    { rewrite <- Hl2. by apply lookup_lt_Some in Hq2. }
    destruct (ready_lengths _ _ _ R1 Hp1). destruct (ready_lengths _ _ _ R2 Hp2).
    destruct (H0 n p1 p2 Hp1 Hp2).
    by apply (euler_upto_prefix st1 st2 (t_count st1) (t_count st2) p1 p2
                q1 q2 (Hrel1 n p1 q1 Hp1 Hq1) (Hrel2 n p2 q2 Hp2 Hq2)).
  - destruct (MarchAB_upto_advanced st1 (t_count st1) R1)
      as (s1 & Ea & Hs1 & Hl1 & _ & _ & Hrel1); [done|].
    destruct (MarchAB_upto_advanced st2 (t_count st2) R2)
      as (s2 & Eb & Hs2 & Hl2 & _ & _ & Hrel2); [done|].
    exists (ab_obj s1), (ab_obj s2).
    unfold MarchAB. unfold MarchAB_upto in Ea, Eb. rewrite Ea, Eb.
    split; [done|]. split; [done|]. split; [lia|]. split.
    { rewrite Hs1, Hs2. done. }
    intros n q1 q2 Hq1 Hq2.
    destruct (lookup_lt_is_Some_2 (parts st1) n) as [p1 Hp1].
    { rewrite <- Hl1. by apply lookup_lt_Some in Hq1. }
    destruct (lookup_lt_is_Some_2 (parts st2) n) as [p2 Hp2].
    { rewrite <- Hl2. by apply lookup_lt_Some in Hq2. }
    destruct (ready_lengths _ _ _ R1 Hp1). destruct (ready_lengths _ _ _ R2 Hp2).
    destruct (H0 n p1 p2 Hp1 Hp2).
    destruct (Hrel1 n p1 q1 Hp1 Hq1) as [A1 _].
    destruct (Hrel2 n p2 q2 Hp2 Hq2) as [A2 _].
    by apply (ab2_upto_prefix st1 st2 (t_count st1) (t_count st2) p1 p2).
Qed.

End Model.

(** * Concrete runs *)

(** Decimal literals below stand for the nearest binary64 value, as they
    do in C++. *)
#[local] Set Warnings "-inexact-float".

Lemma demo_constructed :
  new_Dsys_Anal garbage 0.25 0.5 [1; 0]%float [2; -1]%float rot_u rot_v
  = Some (demo, Returned).
Proof. vm_compute. reflexivity. Qed.

Lemma demo_MarchEE : MarchEE demo = Some demo_EE.
Proof. vm_compute. reflexivity. Qed.

Lemma demo_MarchAB : MarchAB garbage demo = Some demo_AB.
Proof. vm_compute. reflexivity. Qed.

(** After one iteration of the outer loop every particle has taken its
    first step and none its second. *)
Lemma demo_MarchEE_upto_1 :
  parts <$> MarchEE_upto 1 demo
  = Some [mkParticle [1; 0.5; nan; nan]%float [2; 2.25; nan; nan]%float;
          mkParticle [0; 0.25; nan; nan]%float [-1; -1; nan; nan]%float].
Proof. vm_compute. reflexivity. Qed.

(** The out-of-range branch of the embedding is there: position vectors
    that were not given [t_count + 1] entries make both marches fail. *)
Lemma unready_March :
  MarchEE unready = None ∧ MarchAB garbage unready = None.
Proof. split; vm_compute; reflexivity. Qed.

Lemma MarchEE_euler_witness :
  ready demo ∧ 3 ≤ t_count demo ∧
  ∃ sk, MarchEE demo = Some sk ∧ parts sk = parts demo_EE.
Proof.
  assert (ready demo) as Hr by solve_ready.
  assert (3 ≤ t_count demo) as Hk by (simpl; lia).
  split; [exact Hr|]. split; [exact Hk|].
  destruct (MarchEE_euler demo 3 Hr Hk) as (sk & E & Hfull & _).
  exists sk. split; [apply Hfull; reflexivity|].
  vm_compute in E. injection E as <-. reflexivity.
Defined.

Lemma MarchAB_adams_bashforth_witness :
  ready demo ∧ 3 ≤ t_count demo ∧
  ∃ sk, MarchAB garbage demo = Some (ab_obj sk) ∧
        parts (ab_obj sk) = parts demo_AB ∧
        u_nm1 sk = [-2.3125; 0.90625]%float ∧
        v_nm1 sk = [-0.09375; 0.5]%float.
Proof.
  assert (ready demo) as Hr by solve_ready.
  assert (3 ≤ t_count demo) as Hk by (simpl; lia).
  split; [exact Hr|]. split; [exact Hk|].
  destruct (MarchAB_adams_bashforth garbage demo 3 Hr Hk)
    as (sk & E & Hfull & _).
  exists sk. split; [apply Hfull; reflexivity|].
  vm_compute in E. injection E as <-. repeat split; reflexivity.
Defined.

Lemma SetTime_grid_witness :
  ∃ st', SetTime garbage blank 0.25 1 = Some st' ∧
    t st' = [0; 0.25; 0.5; 0.75; 1]%float ∧
    grid_as_specified 0.25 1 (t st').
Proof.
  destruct (SetTime_grid garbage blank 0.25 1 (1 # 4) 1 5)
    as (st' & E & _ & _ & _ & _ & _ & _ & _ & Hspec).
  - apply exactly_compute. vm_compute. reflexivity.
  - apply exactly_compute. vm_compute. reflexivity.
  - reflexivity.
  - discriminate.
  - vm_compute. reflexivity.
  - exists st'. split; [exact E|]. split.
    + vm_compute in E. injection E as <-. reflexivity.
    + apply Hspec.
      * apply exactly_compute. vm_compute. reflexivity.
      * intros i Hi.
        do 5 (destruct i as [|i];
              [apply exactly_compute; vm_compute; reflexivity|]).
        lia.
Defined.

(** C3, as the specification words it, fails on the code. With the double
    nearest to 0.1 as step and 1 as end time, the quotient [1 / 0.1] rounds
    up to 10: SetTime makes 11 time points, where [floor (tmax / dt) + 1]
    is 10, and the fourth one, 0.30000000000000004, is not [3 * dt]. With
    step 1 and the largest double below 1 as end time, the quotient is exact
    but adding 1 rounds up to 2: SetTime makes the 2 time points 0 and 1,
    where [floor (tmax / dt) + 1] is 1. *)
Lemma SetTime_grid_rounding :
  (∃ st', SetTime garbage blank 0.1 1 = Some st' ∧
     length (t st') = 11 ∧ t st' !! 3 = Some 0.30000000000000004%float ∧
     ¬ grid_as_specified 0.1 1 (t st')) ∧
  (∃ st', SetTime garbage blank 1 0x1.fffffffffffffp-1 = Some st' ∧
     t st' = [0; 1]%float ∧
     ¬ grid_as_specified 1 0x1.fffffffffffffp-1 (t st')).
Proof.
  split.
  - destruct (SetTime garbage blank 0.1 1) as [st'|] eqn:E;
      [|vm_compute in E; discriminate].
    exists st'. split; [reflexivity|].
    vm_compute in E. injection E as <-.
    split; [reflexivity|]. split; [reflexivity|].
    intros (qdt & qtmax & Hdt & Htmax & Hlen & _).
    assert (exactly 0.1 (3602879701896397 # 36028797018963968)) as Hdt'
      by (apply exactly_compute; vm_compute; reflexivity).
    assert (exactly 1 1) as Htmax'
      by (apply exactly_compute; vm_compute; reflexivity).
    rewrite (exactly_unique _ _ _ Hdt Hdt'), (exactly_unique _ _ _ Htmax Htmax')
      in Hlen.
    vm_compute in Hlen. discriminate.
  - destruct (SetTime garbage blank 1 0x1.fffffffffffffp-1)
      as [st'|] eqn:E; [|vm_compute in E; discriminate].
    exists st'. split; [reflexivity|].
    vm_compute in E. injection E as <-.
    split; [reflexivity|].
    intros (qdt & qtmax & Hdt & Htmax & Hlen & _).
    assert (exactly 1 1) as Hdt'
      by (apply exactly_compute; vm_compute; reflexivity).
    assert (exactly 0x1.fffffffffffffp-1 (9007199254740991 # 9007199254740992))
      as Htmax' by (apply exactly_compute; vm_compute; reflexivity).
    rewrite (exactly_unique _ _ _ Hdt Hdt'), (exactly_unique _ _ _ Htmax Htmax')
      in Hlen.
    vm_compute in Hlen. discriminate.
Qed.

(** Beyond [2^53] time points the conversion of the index to [double] is no
    longer one to one, and consecutive time points coincide. (Such a grid
    is out of reach of any memory; the lemma shows where the embedding stops
    giving a strictly increasing sequence.) *)
Lemma of_size_t_collides :
  of_size_t (Z.to_nat 9007199254740993) = 9007199254740992%float ∧
  of_size_t (Z.to_nat 9007199254740992) = 9007199254740992%float.
Proof.
  unfold of_size_t. rewrite !Z2Nat.id by lia. split; vm_compute; reflexivity.
Qed.

Lemma SetTime_grid_plateau :
  ∃ st', SetTime garbage blank 1 9007199254740994 = Some st' ∧
    t st' !! Z.to_nat 9007199254740992 = Some 9007199254740992%float ∧
    t st' !! Z.to_nat 9007199254740993 = Some 9007199254740992%float.
Proof.
  assert (to_size_t (9007199254740994 / 1 + 1)%float
          = Some (Z.to_nat 9007199254740996)) as Hn.
  { unfold to_size_t.
    assert (SFtrunc (Prim2SF (9007199254740994 / 1 + 1)%float)
            = Some 9007199254740996%Z) as -> by (vm_compute; reflexivity).
    cbn [mbind option_bind]. rewrite decide_True; [done|].
    unfold size_max. lia. }
  destruct (SetTime_Some garbage blank 1 9007199254740994 _ Hn) as (st' & E & _ & _ & Hc & _).
  destruct of_size_t_collides as [H1 H2].
  exists st'. split; [done|]. split.
  - rewrite (SetTime_lookup garbage blank 1 9007199254740994 st' _ E)
      by (rewrite Hc; lia).
    rewrite H2. f_equal.
  - rewrite (SetTime_lookup garbage blank 1 9007199254740994 st' _ E)
      by (rewrite Hc; lia).
    rewrite H1. f_equal.
Qed.

Lemma SetICs_mismatch_witness :
  SetICs garbage demo_EE [1]%float []
  = (demo_EE, Threw (invalid_argument "Mismatched IC Vectors")) ∧
  (SetICs garbage demo_EE [1]%float [2]%float).2 = Returned.
Proof.
  split.
  - apply (proj1 (SetICs_mismatch garbage demo_EE [1%float] [])). simpl. lia.
  - apply (proj2 (SetICs_mismatch garbage demo_EE [1%float] [2%float])).
    reflexivity.
Defined.

Lemma SetICs_resets_witness :
  (SetICs garbage demo_EE [5]%float [6]%float).2 = Returned ∧
  parts (SetICs garbage demo_EE [5]%float [6]%float).1
  = [mkParticle [5; nan; nan; nan]%float [6; nan; nan; nan]%float] ∧
  parts (SetICs garbage demo [5]%float [6]%float).1
  = parts (SetICs garbage demo_EE [5]%float [6]%float).1.
Proof.
  destruct (SetICs_resets garbage demo_EE [5%float] [6%float])
    as (Hret & _ & _ & Hold); [reflexivity|].
  split; [exact Hret|]. split; [reflexivity|].
  exact (Hold (parts demo)).
Defined.

Lemma SetTime_keeps_leading_witness :
  (∃ st', SetTime garbage demo_EE 0.25 1 = Some st' ∧ t_count st' = 5 ∧
     parts st'
     = [mkParticle [1; 0.5; -0.0625; -0.65625; nan; nan]%float
                   [2; 2.25; 2.375; 2.359375; nan; nan]%float;
        mkParticle [0; 0.25; 0.5; 0.734375; nan; nan]%float
                   [-1; -1; -0.9375; -0.8125; nan; nan]%float]) ∧
  (∃ st', SetTime garbage demo_EE 0.5 0.5 = Some st' ∧ t_count st' = 2 ∧
     parts st'
     = [mkParticle [1; 0.5; -0.0625]%float [2; 2.25; 2.375]%float;
        mkParticle [0; 0.25; 0.5]%float [-1; -1; -0.9375]%float]).
Proof.
  split.
  - destruct (SetTime_keeps_leading garbage demo_EE 0.25 1 5)
      as (st' & E & Hc & _); [reflexivity|vm_compute; reflexivity|].
    exists st'. split; [exact E|]. split; [exact Hc|].
    vm_compute in E. injection E as <-. reflexivity.
  - destruct (SetTime_keeps_leading garbage demo_EE 0.5 0.5 2)
      as (st' & E & Hc & _); [reflexivity|vm_compute; reflexivity|].
    exists st'. split; [exact E|]. split; [exact Hc|].
    vm_compute in E. injection E as <-. reflexivity.
Defined.

(** C8, as the specification words it, fails on the code. The marched
    object [demo_EE] holds particles; the step size [2^-1000] is positive
    and the end time [2^1000] is not negative, both finite; the quotient
    [tmax / dt] overflows to infinity, whose conversion to the step count
    is undefined. SetTime has then no defined result, so there is no
    reconfigured object whose buffers keep the leading samples. *)
Lemma SetTime_keeps_leading_overflow :
  ic_set demo_EE = true ∧
  exactly 0x1p-1000 (2 ^ (-1000)) ∧ exactly 0x1p+1000 (2 ^ 1000) ∧
  (0 < 2 ^ (-1000))%Q ∧ (0 <= 2 ^ 1000)%Q ∧
  (0x1p+1000 / 0x1p-1000 + 1)%float = infinity ∧
  SetTime garbage demo_EE 0x1p-1000 0x1p+1000 = None ∧
  ¬ ∃ st', SetTime garbage demo_EE 0x1p-1000 0x1p+1000 = Some st' ∧
      ∀ k p, parts demo_EE !! k = Some p →
        ∃ p', parts st' !! k = Some p' ∧
          length (x p') = t_count st' + 1 ∧
          length (y p') = t_count st' + 1 ∧
          (∀ i, i < length (x p) `min` (t_count st' + 1) →
                x p' !! i = x p !! i) ∧
          (∀ i, i < length (y p) `min` (t_count st' + 1) →
                y p' !! i = y p !! i).
Proof.
  assert (SetTime garbage demo_EE 0x1p-1000 0x1p+1000 = None) as E
    by (vm_compute; reflexivity).
  split; [reflexivity|].
  split; [apply exactly_compute; vm_compute; reflexivity|].
  split; [apply exactly_compute; vm_compute; reflexivity|].
  split; [by apply Qpower_0_lt|].
  split; [apply Qlt_le_weak; by apply Qpower_0_lt|].
  split; [vm_compute; reflexivity|]. split; [exact E|].
  intros (st' & E' & _). rewrite E in E'. discriminate E'.
Qed.

Lemma March_in_bounds_witness :
  ready demo ∧ MarchEE demo = Some demo_EE ∧
  MarchAB garbage demo = Some demo_AB.
Proof.
  assert (ready demo) as Hr by solve_ready.
  split; [exact Hr|].
  destruct (March_in_bounds garbage demo Hr)
    as ((sE & EE & _) & (sA & EA & _)).
  split.
  - rewrite EE. f_equal. vm_compute in EE. injection EE as <-. reflexivity.
  - rewrite EA. f_equal. vm_compute in EA. injection EA as <-. reflexivity.
Defined.

Lemma PrintTraj_lines_witness :
  PrintTraj demo_EE 1 []
  = ([header "     t     x     y"; row 0 0 (-1); row 0.25 0.25 (-1);
      row 0.5 0.5 (-0.9375)], Returned) ∧
  PrintTraj blank 0 [] = ([header "     t     x     y"], Returned).
Proof.
  split.
  - destruct (proj1 (PrintTraj_lines demo_EE 1 [])) as (p & Hp & ->).
    + solve_ready.
    + unfold valid_index. simpl. lia.
    + vm_compute in Hp. injection Hp as <-. reflexivity.
  - rewrite (proj2 (PrintTraj_lines blank 0 [])); [reflexivity|].
    unfold valid_index. simpl. lia.
Defined.

(** C5, as the specification words it, fails on the code. The object holds
    two particles; [PrintTraj(2)] and [PrintTraj(-1)] throw nothing, print
    the header line, and then index [parts] out of range. *)
Lemma PrintTraj_unchecked :
  ¬ valid_index demo_EE 2 ∧
  PrintTraj demo_EE 2 [] = ([header "     t     x     y"], Undefined) ∧
  ¬ valid_index demo_EE (-1) ∧
  PrintTraj demo_EE (-1) [] = ([header "     t     x     y"], Undefined).
Proof.
  unfold valid_index. simpl. repeat split; try reflexivity; lia.
Qed.

Lemma ExportData_effect_witness :
  ExportData demo_EE "out.json" fs_closed = (fs_closed, Returned) ∧
  ExportData demo_EE "out.json" fs_open
  = (mkFs (can_open fs_open) {["out.json"%string := object_document demo_EE]},
     Returned).
Proof.
  split.
  - apply (proj1 (ExportData_effect demo_EE "out.json" fs_closed)).
    reflexivity.
  - destruct (proj2 (ExportData_effect demo_EE "out.json" fs_open))
      as [-> _]; reflexivity.
Defined.

(** C6, as the specification words it, fails on the code. On a file system
    where no path can be opened ExportData returns normally: the caller
    sees no error, and no file is written. *)
Lemma ExportData_unreported :
  can_open fs_closed "/nowhere/out.json" = false ∧
  ExportData demo_EE "/nowhere/out.json" fs_closed = (fs_closed, Returned).
Proof. split; reflexivity. Qed.

Lemma ExportData_roundtrip_witness :
  ∃ j, files (ExportData demo_EE "out.json" fs_open).1 !! "out.json"%string
       = Some j ∧
    read_document j
    = Some ([0; 0.25; 0.5]%float,
            [([1; 0.5; -0.0625; -0.65625]%float,
              [2; 2.25; 2.375; 2.359375]%float);
             ([0; 0.25; 0.5; 0.734375]%float,
              [-1; -1; -0.9375; -0.8125]%float)]).
Proof.
  destruct (ExportData_roundtrip demo_EE "out.json" fs_open)
    as (j & Hj & Hread & _); [solve_ready|reflexivity|].
  exists j. split; [exact Hj|]. exact Hread.
Defined.

(** * Uninitialised memory *)

Section Oracles.

(** Two contents of the memory that allocations leave uninitialised. *)
Variables o1 o2 : nat → float.

(** A pass of the inner loop of MarchAB at the first time index writes the
    cache at the particle's index and does not read it. *)
Lemma AB_body_0_oracle n s1 s2 :
  ab_obj s1 = ab_obj s2 →
  length (u_nm1 s1) = length (u_nm1 s2) →
  length (v_nm1 s1) = length (v_nm1 s2) →
  n < length (u_nm1 s1) → n < length (v_nm1 s1) →
  (∀ j, j < n → u_nm1 s1 !! j = u_nm1 s2 !! j ∧
                v_nm1 s1 !! j = v_nm1 s2 !! j) →
  match AB_body 0 n s1, AB_body 0 n s2 with
  | Some a, Some b =>
      ab_obj a = ab_obj b ∧
      length (u_nm1 a) = length (u_nm1 s1) ∧
      length (v_nm1 a) = length (v_nm1 s1) ∧
      length (u_nm1 b) = length (u_nm1 s2) ∧
      length (v_nm1 b) = length (v_nm1 s2) ∧
      ∀ j, j < S n → u_nm1 a !! j = u_nm1 b !! j ∧
                     v_nm1 a !! j = v_nm1 b !! j
  | None, None => True
  | _, _ => False
  end.
Proof.
  intros Hobj Hlu Hlv Hu Hv Hag. unfold AB_body. rewrite <- Hobj.
  destruct (parts (ab_obj s1) !! n) as [p|]; simpl; [|done].
  destruct (vec_read (t (ab_obj s1)) 0) as [t0|]; simpl; [|done].
  destruct (vec_read (x p) 0) as [xa|]; simpl; [|done].
  destruct (vec_read (y p) 0) as [ya|]; simpl; [|done].
  destruct (vec_write (x p) 1 _) as [x'|]; simpl; [|done].
  destruct (vec_write (y p) 1 _) as [y'|]; simpl; [|done].
  rewrite !vec_write_Some by lia. simpl. rewrite !length_insert.
  do 5 (split; [done|]). intros j Hj.
  destruct (decide (j = n)) as [->|Hne].
  - by rewrite !list_lookup_insert_eq by lia.
  - rewrite !list_lookup_insert_ne by lia. apply Hag. lia.
Qed.

Lemma AB_inner_oracle c n s1 s2 :
  ab_obj s1 = ab_obj s2 →
  length (u_nm1 s1) = length (u_nm1 s2) →
  length (v_nm1 s1) = length (v_nm1 s2) →
  n + c = length (u_nm1 s1) → n + c = length (v_nm1 s1) →
  (∀ j, j < n → u_nm1 s1 !! j = u_nm1 s2 !! j ∧
                v_nm1 s1 !! j = v_nm1 s2 !! j) →
  for_loop (AB_body 0) n c s1 = for_loop (AB_body 0) n c s2.
Proof.
  revert n s1 s2. induction c as [|c IH]; intros n s1 s2 Hobj Hlu Hlv Hu Hv Hag.
  - simpl. f_equal. destruct s1 as [a1 u1 v1], s2 as [a2 u2 v2]. simpl in *.
    f_equal; [done| |].
    + apply list_eq. intros j. destruct (decide (j < n)) as [Hj|Hj].
      * by apply Hag.
      * by rewrite !lookup_ge_None_2 by lia.
    + apply list_eq. intros j. destruct (decide (j < n)) as [Hj|Hj].
      * by apply Hag.
      * by rewrite !lookup_ge_None_2 by lia.
  - pose proof (AB_body_0_oracle n s1 s2 Hobj Hlu Hlv ltac:(lia) ltac:(lia) Hag)
      as Hb.
    simpl. destruct (AB_body 0 n s1) as [a|], (AB_body 0 n s2) as [b|];
      try done.
    destruct Hb as (Hab & L1 & L2 & L3 & L4 & Hag'). simpl.
    apply IH; try done; lia.
Qed.

(** The first pass of the outer loop ends in the same state whatever the
    caches held at first. *)
Lemma AB_step_0_oracle st :
  AB_step 0 (AB_init o1 st) = AB_step 0 (AB_init o2 st).
Proof.
  unfold AB_step. simpl. apply AB_inner_oracle; simpl;
    rewrite ?length_fmap, ?length_seq; try done.
  intros j Hj. lia.
Qed.

(** X10. MarchAB does not read its velocity caches before it has written
    them: the object it returns is the same whatever the two vectors hold
    when they are allocated, on every object, also where the march runs
    into an access out of range. *)
Theorem MarchAB_caches st : MarchAB o1 st = MarchAB o2 st.
Proof.
  unfold MarchAB. destruct (t_count st) as [|k]; [done|].
  change (for_loop AB_step 0 (S k) (AB_init o1 st))
    with (AB_step 0 (AB_init o1 st) ≫= for_loop AB_step 1 k).
  change (for_loop AB_step 0 (S k) (AB_init o2 st))
    with (AB_step 0 (AB_init o2 st) ≫= for_loop AB_step 1 k).
  by rewrite AB_step_0_oracle.
Qed.

Lemma constructed_same_start dt_in tmax_in x0 y0 u_in v_in n st1 st2 :
  constructed_from dt_in tmax_in x0 y0 u_in v_in n st1 →
  constructed_from dt_in tmax_in x0 y0 u_in v_in n st2 →
  length x0 = length y0 →
  same_start st1 st2.
Proof.
  intros (R1 & D1 & M1 & C1 & U1 & V1 & T1 & L1 & P1)
         (R2 & D2 & M2 & C2 & U2 & V2 & T2 & L2 & P2) H.
  pose proof R1 as (A1 & B1 & Lt1 & _). pose proof R2 as (A2 & B2 & Lt2 & _).
  split; [|split].
  - apply with_parts_eq; try congruence.
    apply list_eq. intros i. destruct (decide (i < n)) as [Hi|Hi].
    + by rewrite T1, T2.
    + by rewrite !lookup_ge_None_2 by lia.
  - lia.
  - intros k p1 p2 Hp1 Hp2.
    destruct (lookup_lt_is_Some_2 x0 k) as [a Ha].
    { rewrite <- L1. by apply lookup_lt_Some in Hp1. }
    destruct (lookup_lt_is_Some_2 y0 k) as [b Hb].
    { rewrite <- H, <- L1. by apply lookup_lt_Some in Hp1. }
    destruct (P1 k a b Ha Hb) as (q1 & Hq1 & X1 & Y1).
    destruct (P2 k a b Ha Hb) as (q2 & Hq2 & X2 & Y2).
    rewrite Hp1 in Hq1. rewrite Hp2 in Hq2.
    injection Hq1 as <-. injection Hq2 as <-. by rewrite X1, X2, Y1, Y2.
Qed.

(** X11. A march leaves nothing uninitialised in a constructed object:
    whatever the memory held that the constructor allocated, the time
    vector is the same, and MarchEE returns the same object, and so does
    MarchAB. *)
Theorem marched_initialised dt_in tmax_in x0 y0 u_in v_in st1 st2 :
  new_Dsys_Anal o1 dt_in tmax_in x0 y0 u_in v_in = Some (st1, Returned) →
  new_Dsys_Anal o2 dt_in tmax_in x0 y0 u_in v_in = Some (st2, Returned) →
  t st1 = t st2 ∧
  (∃ s, MarchEE st1 = Some s ∧ MarchEE st2 = Some s) ∧
  (∃ s, MarchAB o1 st1 = Some s ∧ MarchAB o2 st2 = Some s).
Proof.
  intros E1 E2.
  destruct (new_Dsys_Anal_Returned _ _ _ _ _ _ _ _ E1) as (n & Hn & H & F1).
  destruct (new_Dsys_Anal_Returned _ _ _ _ _ _ _ _ E2) as (n' & Hn' & _ & F2).
  rewrite Hn in Hn'. injection Hn' as <-.
  pose proof (constructed_same_start _ _ _ _ _ _ _ _ _ F1 F2 H) as Hss.
  pose proof F1 as (R1 & _). pose proof F2 as (R2 & _).
  split; [|split].
  - destruct Hss as (E & _). by rewrite E.
  - by apply MarchEE_same_start.
  - destruct (MarchAB_same_start o1 st1 st2 R1 R2 Hss) as (s & Ea & Eb).
    exists s. split; [done|]. rewrite <- Eb. unfold MarchAB.
    destruct (t_count st2) as [|k]; [done|]. simpl.
    by rewrite AB_step_0_oracle.
Qed.

End Oracles.

(** * Concrete runs of the further properties *)

Lemma demo_single_constructed :
  new_Dsys_Anal garbage 0.5 0.25 [1]%float [2]%float rot_u rot_v
  = Some (demo_single, Returned).
Proof. vm_compute. reflexivity. Qed.

Lemma demo_untimed_configured :
  SetICs garbage blank [1]%float [2]%float = (demo_untimed, Returned).
Proof. vm_compute. reflexivity. Qed.

Lemma demo_same_start : same_start demo demo_EE.
Proof.
  split; [reflexivity|]. split; [reflexivity|].
  intros [|[|n]] p1 p2; simpl; intros [= <-] [= <-]; split; reflexivity.
Defined.

Lemma demo_untimed_consistent : consistent demo_untimed.
Proof.
  split; [reflexivity|]. split; [reflexivity|]. split; [discriminate|].
  repeat constructor.
Defined.

Lemma March_from_start_witness :
  ready demo ∧ ready demo_EE ∧ same_start demo demo_EE ∧
  MarchEE demo_EE = Some demo_EE ∧ MarchAB garbage demo_EE = Some demo_AB.
Proof.
  assert (ready demo) as H1 by solve_ready.
  assert (ready demo_EE) as H2 by solve_ready.
  split; [exact H1|]. split; [exact H2|]. split; [exact demo_same_start|].
  destruct (March_from_start garbage demo demo_EE H1 H2 demo_same_start)
    as ((a & Ea & Eb) & (b & Ec & Ed)).
  split.
  - rewrite Eb. f_equal. vm_compute in Ea. by injection Ea as <-.
  - rewrite Ed. f_equal. vm_compute in Ec. by injection Ec as <-.
Defined.

Lemma March_again_witness :
  ready demo ∧
  MarchEE demo_EE = Some demo_EE ∧ MarchAB garbage demo_EE = Some demo_AB ∧
  MarchAB garbage demo_AB = Some demo_AB ∧ MarchEE demo_AB = Some demo_EE.
Proof.
  assert (ready demo) as Hr by solve_ready. split; [exact Hr|].
  destruct (March_again garbage demo demo_EE Hr) as [HE _].
  destruct (March_again garbage demo demo_AB Hr) as [_ HA].
  destruct HE as [E1 E2]; [vm_compute; reflexivity|].
  destruct HA as [E3 E4]; [vm_compute; reflexivity|].
  split; [exact E1|]. split; [rewrite E2; vm_compute; reflexivity|].
  split; [exact E3|]. rewrite E4. vm_compute. reflexivity.
Defined.

Lemma consistent_March_witness :
  consistent demo_untimed ∧
  MarchEE demo_untimed = Some demo_untimed ∧
  MarchAB garbage demo_untimed = Some demo_untimed.
Proof.
  split; [exact demo_untimed_consistent|].
  destruct (consistent_March garbage demo_untimed demo_untimed_consistent)
    as (_ & _ & H).
  apply H. by left.
Defined.

Lemma consistent_configuration_witness :
  consistent blank ∧ consistent (SetICs garbage blank [1]%float [2]%float).1 ∧
  consistent (SetVel blank rot_u rot_v).
Proof.
  destruct (consistent_configuration garbage) as [H0 H].
  split; [exact H0|]. destruct (H blank H0) as (_ & H1 & H2).
  split; [apply H1|apply H2].
Defined.

Lemma new_Dsys_Anal_configured_witness :
  (∃ st, new_Dsys_Anal garbage 0.25 0.5 [1; 0]%float [2; -1]%float
           rot_u rot_v = Some (st, Returned) ∧
     ready st ∧ t st = [0; 0.25; 0.5]%float ∧ length (parts st) = 2) ∧
  (∃ st, new_Dsys_Anal garbage 0.25 0.5 [1; 0]%float [2]%float rot_u rot_v
         = Some (st, Threw (invalid_argument "Mismatched IC Vectors"))).
Proof.
  destruct (new_Dsys_Anal_configured garbage 0.25 0.5 [1; 0]%float
              [2; -1]%float rot_u rot_v 3) as [H _];
    [vm_compute; reflexivity|].
  destruct (new_Dsys_Anal_configured garbage 0.25 0.5 [1; 0]%float
              [2]%float rot_u rot_v 3) as [_ H'];
    [vm_compute; reflexivity|].
  split.
  - destruct H as (st & E & Hr & _ & _ & _ & _ & _ & _ & Hl & _);
      [reflexivity|].
    exists st. split; [exact E|]. split; [exact Hr|]. split; [|exact Hl].
    vm_compute in E. by injection E as <-.
  - apply H'. simpl. lia.
Defined.

Lemma SetTime_again_witness :
  SetTime garbage demo 0.25 0.5 = Some demo ∧
  SetTime garbage demo_EE 0.25 0.5 = Some demo_EE ∧
  SetTime garbage demo_AB 0.25 0.5 = Some demo_AB.
Proof.
  assert (SetTime garbage demo 0.25 0.5 = Some demo) as E
    by (vm_compute; reflexivity).
  destruct (SetTime_again garbage demo 0.25 0.5 demo E) as [H1 H2].
  split; [exact H1|]. split.
  - apply H2; [reflexivity|]. left. vm_compute. reflexivity.
  - apply H2; [reflexivity|]. right. vm_compute. reflexivity.
Defined.

Lemma configuration_order_witness :
  ∃ sA sB, SetTime garbage blank 0.25 0.5 = Some sA ∧
    SetTime garbage (SetICs garbage blank [1; 0]%float [2; -1]%float).1
            0.25 0.5 = Some sB ∧
    ready sB ∧
    MarchEE (SetICs garbage sA [1; 0]%float [2; -1]%float).1 = MarchEE sB ∧
    parts <$> MarchEE sB
    = Some [mkParticle [1; 1; 1; 1]%float [2; 2; 2; 2]%float;
            mkParticle [0; 0; 0; 0]%float [-1; -1; -1; -1]%float].
Proof.
  destruct (SetTime garbage blank 0.25 0.5) as [sA|] eqn:EA;
    [|vm_compute in EA; discriminate].
  destruct (SetTime garbage
              (SetICs garbage blank [1; 0]%float [2; -1]%float).1 0.25 0.5)
    as [sB|] eqn:EB; [|vm_compute in EB; discriminate].
  exists sA, sB. split; [reflexivity|]. split; [reflexivity|].
  destruct (configuration_order garbage blank 0.25 0.5 [1; 0]%float
              [2; -1]%float sA sB eq_refl EA EB)
    as (_ & Hr & _ & (s & E1 & E2) & _).
  split; [exact Hr|]. split; [by rewrite E1, E2|].
  vm_compute in EB. injection EB as <-. vm_compute. reflexivity.
Defined.

Lemma MarchAB_single_step_witness :
  ready demo_single ∧ t_count demo_single ≤ 1 ∧
  MarchAB garbage demo_single = MarchEE demo_single ∧
  parts <$> MarchEE demo_single
  = Some [mkParticle [1; 0]%float [2; 2.5]%float].
Proof.
  assert (ready demo_single) as Hr by solve_ready.
  assert (t_count demo_single ≤ 1) as Hk by (simpl; lia).
  split; [exact Hr|]. split; [exact Hk|].
  split; [exact (MarchAB_single_step garbage demo_single Hr Hk)|].
  vm_compute. reflexivity.
Defined.

Lemma marched_initialised_witness :
  ∃ st1 st2,
    new_Dsys_Anal garbage 0.25 0.5 [1; 0]%float [2; -1]%float rot_u rot_v
    = Some (st1, Returned) ∧
    new_Dsys_Anal zeroed 0.25 0.5 [1; 0]%float [2; -1]%float rot_u rot_v
    = Some (st2, Returned) ∧
    st1 ≠ st2 ∧
    MarchEE st1 = MarchEE st2 ∧ MarchAB garbage st1 = MarchAB zeroed st2.
Proof.
  destruct (new_Dsys_Anal garbage 0.25 0.5 [1; 0]%float [2; -1]%float
              rot_u rot_v) as [[st1 o1]|] eqn:E1;
    [|vm_compute in E1; discriminate].
  destruct (new_Dsys_Anal zeroed 0.25 0.5 [1; 0]%float [2; -1]%float
              rot_u rot_v) as [[st2 o2]|] eqn:E2;
    [|vm_compute in E2; discriminate].
  assert (o1 = Returned) as -> by (vm_compute in E1; by injection E1).
  assert (o2 = Returned) as -> by (vm_compute in E2; by injection E2).
  exists st1, st2. split; [reflexivity|]. split; [reflexivity|].
  destruct (marched_initialised garbage zeroed 0.25 0.5 [1; 0]%float
              [2; -1]%float rot_u rot_v st1 st2 E1 E2)
    as (_ & (a & Ea & Eb) & (b & Ec & Ed)).
  split; [|split; congruence].
  vm_compute in E1, E2. injection E1 as <-. injection E2 as <-.
  intros H. discriminate H.
Defined.

Lemma SetTime_grid_error_witness :
  ∃ st', SetTime garbage blank 0.1 1 = Some st' ∧
    t st' !! 3 = Some 0.30000000000000004%float ∧
    ((1 - DBL_EPSILON) * (3 * (3602879701896397 # 36028797018963968))
     <= 5404319552844596 # 18014398509481984)%Q ∧
    (5404319552844596 # 18014398509481984
     <= (1 + DBL_EPSILON) * (3 * (3602879701896397 # 36028797018963968)))%Q.
Proof.
  destruct (SetTime_grid_error garbage blank 0.1 1
              (3602879701896397 # 36028797018963968) 11)
    as (st' & E & H).
  - apply exactly_compute. vm_compute. reflexivity.
  - reflexivity.
  - vm_compute. reflexivity.
  - vm_compute. discriminate.
  - exists st'. split; [exact E|].
    assert (t st' !! 3 = Some 0.30000000000000004%float) as Ht.
    { vm_compute in E. injection E as <-. reflexivity. }
    split; [exact Ht|].
    apply (H 3 _ _ Ht). apply exactly_compute. vm_compute. reflexivity.
Defined.

Lemma SetTime_valid_inputs_witness :
  ∃ st', SetTime garbage demo_untimed 0.1 1 = Some st' ∧ t_count st' = 11 ∧
    t st' !! 0 = Some 0%float ∧
    Forall (λ p, 2 ≤ length (x p) ∧ 2 ≤ length (y p)) (parts st').
Proof.
  destruct (SetTime_valid_inputs garbage demo_untimed 0.1 1
              (3602879701896397 # 36028797018963968) 1)
    as [(st' & E & Hc & _ & H0 & Hp)|[E _]].
  - apply exactly_compute. vm_compute. reflexivity.
  - apply exactly_compute. vm_compute. reflexivity.
  - reflexivity.
  - discriminate.
  - exists st'. split; [exact E|]. split.
    + assert (to_size_t (1 / 0.1 + 1)%float = Some 11) as Hn
        by (vm_compute; reflexivity).
      rewrite Hn in Hc. by injection Hc.
    + split; [exact H0|]. apply Hp. reflexivity.
  - vm_compute in E. discriminate E.
Defined.

(** The two ways the count can overflow: with a step size of [2^-1000]
    and an end time of [2^1000] the quotient is infinite; with a step size
    of 1 and an end time of [2^70] the count is finite and larger than any
    [std::size_t]. *)
Lemma SetTime_count_overflows :
  SetTime garbage blank 0x1p-1000 0x1p+1000 = None ∧
  (0x1p+1000 / 0x1p-1000 + 1)%float = infinity ∧
  SetTime garbage blank 1 0x1p+70 = None ∧
  SFtrunc (Prim2SF (0x1p+70 / 1 + 1)%float) = Some (2 ^ 70)%Z.
Proof. repeat split; vm_compute; reflexivity. Qed.

Lemma PrintTraj_consistent_witness :
  consistent demo_untimed ∧ valid_index demo_untimed 0 ∧
  PrintTraj demo_untimed 0 [] = ([header "     t     x     y"], Returned).
Proof.
  assert (valid_index demo_untimed 0) as Hn by (split; simpl; lia).
  split; [exact demo_untimed_consistent|]. split; [exact Hn|].
  destruct (PrintTraj_consistent demo_untimed 0 []
              demo_untimed_consistent Hn) as (p & _ & _ & H).
  apply H. reflexivity.
Defined.

Lemma March_particle_alone_witness :
  ready demo ∧
  MarchEE (with_parts demo [mkParticle [0; nan; nan; nan]%float
                                       [-1; nan; nan; nan]%float])
  = Some (with_parts demo [mkParticle [0; 0.25; 0.5; 0.734375]%float
                                     [-1; -1; -0.9375; -0.8125]%float]) ∧
  MarchAB garbage
    (with_parts demo [mkParticle [0; nan; nan; nan]%float
                                 [-1; nan; nan; nan]%float])
  = Some (with_parts demo [mkParticle [0; 0.25; 0.5; 0.71484375]%float
                                     [-1; -1; -0.90625; -0.75]%float]).
Proof.
  assert (ready demo) as Hr by solve_ready. split; [exact Hr|].
  destruct (March_particle_alone garbage demo 1
              (mkParticle [0; nan; nan; nan]%float [-1; nan; nan; nan]%float)
              Hr eq_refl)
    as ((s & q & E & Hq & H) & (s' & q' & E' & Hq' & H')).
  split.
  - rewrite H. do 3 f_equal. vm_compute in E. injection E as <-.
    vm_compute in Hq. by injection Hq as <-.
  - rewrite H'. do 3 f_equal. vm_compute in E'. injection E' as <-.
    vm_compute in Hq'. by injection Hq' as <-.
Defined.

Lemma demo_long_constructed :
  new_Dsys_Anal garbage 0.25 1 [1; 0]%float [2; -1]%float rot_u rot_v
  = Some (demo_long, Returned).
Proof. vm_compute. reflexivity. Qed.

Lemma March_longer_run_witness :
  t_count demo ≤ t_count demo_long ∧
  ∃ s2, MarchEE demo_long = Some s2 ∧ same_upto 3 demo_EE s2 ∧
    x <$> parts s2
    = [[1; 0.5; -0.0625; -0.65625; -1.24609375; -1.794921875]%float;
       [0; 0.25; 0.5; 0.734375; 0.9375; 1.0947265625]%float].
Proof.
  assert (t_count demo ≤ t_count demo_long) as Hk by (simpl; lia).
  split; [exact Hk|].
  destruct (March_longer_run garbage 0.25 0.5 1 [1; 0]%float [2; -1]%float
              rot_u rot_v demo demo_long demo_constructed
              demo_long_constructed Hk)
    as ((s1 & s2 & Ea & Eb & Hs) & _).
  exists s2. split; [exact Eb|]. split.
  - vm_compute in Ea. injection Ea as <-. exact Hs.
  - vm_compute in Eb. injection Eb as <-. vm_compute. reflexivity.
Defined.
